(** * A shallow embedding of the Redux store sources

    The development follows the TypeScript sources file by file:
    - [JS]: the fragment of JavaScript data the sources manipulate
      (values, objects with prototypes, property access) and
      [isPlainObject] (utils/isPlainObject.ts);
    - [Redux]: [createStore] and the store closures, [compose],
      [combineReducers] and [bindActionCreators], embedded as operations of
      a state-and-exception monad over the program's memory, together with
      an interpreter for the user callbacks (reducers, listeners, enhancers,
      action creators) the library calls and is called from.
    [applyMiddleware] is built from the public functions only; it is not
    embedded, and a user function can stand for it.  The [observable]
    function of a store is a value of the model, but what a call of it does
    is not represented.

    What is left out of the language: accessor properties other than
    [__proto__] of [Object.prototype], property attributes other than
    [enumerable], symbols, proxies, the receiver [this] of a call, numbers
    other than the integers and [NaN], characters outside ASCII, and the
    properties of functions, of error objects and of the prototypes of
    primitives.  This restricts the programs and the memories the model
    describes.  Where the library meets something whose behaviour the model
    does not describe (a property of a function or of a primitive that a
    built-in prototype may define, an object whose prototype is a function,
    the conversion of an object to a string), the model gives no result. *)

From Stdlib Require Import ZArith Lia DecimalString.
From stdpp Require Import base option list strings.


(* ===================================================================== *)
(** * JavaScript data *)
(* ===================================================================== *)

Module JS.

(** Errors raised by the library itself.  Each constructor stands for one
    [throw new Error(...)] of the sources (or for a TypeError / ReferenceError
    of the language); message texts, and the [kindOf] rendering of the
    offending value they embed, are not represented. *)
Inductive lib_error :=
| ErrSeveralEnhancers
| ErrEnhancerNotFunction
| ErrReducerNotFunction
| ErrGetStateWhileDispatching
| ErrListenerNotFunction
| ErrSubscribeWhileDispatching
| ErrUnsubscribeWhileDispatching
| ErrActionNotPlain
| ErrActionTypeUndefined
| ErrReducersMayNotDispatch
| ErrNextReducerNotFunction
| ErrBindExpectedObjectOrFunction
| ErrSliceInitUndefined (key : string)
| ErrSliceProbeUndefined (key : string)
| ErrSliceReturnedUndefined (key : string)
| TypeErrorNotCallable
| TypeErrorNullish
| ReferenceErrorUninitialized.

(** Values.  The numbers are the integers and [NaN]: the library tests
    numbers for their type, their truthiness and their identity only, and
    every other number behaves there as a nonzero integer does.  Ordinary
    objects live in the heap and are named by their location; functions are
    values of their own: a function is either a user function (its body is
    given by the program environment), one of the library's exports, a
    closure created by the library, which carries the variables it captured
    (the immutable ones as values, the mutable ones as the index of their
    cell), or a built-in function of the language, named by the property of
    [Object.prototype] that holds it. *)
Inductive value :=
| VUndefined
| VNull
| VBool (b : bool)
| VNum (n : Z)
| VNaN
| VStr (s : string)
| VObj (l : nat)
| VError (e : lib_error)
| VFun (f : func)
with func :=
| FUser (i : nat)
| FCreateStore
| FGetState (s : nat)
| FSubscribe (s : nat)
| FDispatch (s : nat)
| FReplaceReducer (s : nat)
| FUnsubscribe (s : nat) (listener : value) (isSubscribed : nat)
| FCompose
| FIdentity (id : nat)
| FComposed (id : nat) (a b : value)
| FCombineReducers
| FCombination (id : nat) (finalReducers : list (string * value))
    (shapeAssertionError : value) (unexpectedKeyCache : option nat)
| FBindActionCreators
| FBound (id : nat) (actionCreator dispatch : value)
| FObservable (s : nat)
| FBuiltin (name : string).

Inductive type_tag :=
  TUndefined | TObject | TBoolean | TNumber | TString | TFunction.

#[global] Instance type_tag_eq_dec : EqDecision type_tag.
Proof. solve_decision. Defined.

(** [typeof v] *)
Definition typeof (v : value) : type_tag :=
  match v with
  | VUndefined => TUndefined
  | VNull => TObject
  | VBool _ => TBoolean
  | VNum _ | VNaN => TNumber
  | VStr _ => TString
  | VObj _ => TObject
  | VError _ => TObject
  | VFun _ => TFunction
  end.

(** Truthiness, as tested by [if (v)]. *)
Definition truthy (v : value) : bool :=
  match v with
  | VUndefined | VNull | VNaN => false
  | VBool b => b
  | VNum n => negb (n =? 0)%Z
  | VStr s => negb (String.eqb s "")
  | VObj _ | VError _ | VFun _ => true
  end.

(** The identity of a function object: two function values are the same
    function exactly when their identities agree. *)
Inductive fun_identity :=
| IdUser (i : nat)
| IdExport (name : string)
| IdStoreMethod (name : string) (s : nat)
| IdUnsubscribe (isSubscribed : nat)
| IdClosure (id : nat)
| IdBuiltin (name : string).

#[global] Instance fun_identity_eq_dec : EqDecision fun_identity.
Proof. solve_decision. Defined.

Definition identity_of (f : func) : fun_identity :=
  match f with
  | FUser i => IdUser i
  | FCreateStore => IdExport "createStore"
  | FGetState s => IdStoreMethod "getState" s
  | FSubscribe s => IdStoreMethod "subscribe" s
  | FDispatch s => IdStoreMethod "dispatch" s
  | FReplaceReducer s => IdStoreMethod "replaceReducer" s
  | FUnsubscribe _ _ c => IdUnsubscribe c
  | FCompose => IdExport "compose"
  | FIdentity id => IdClosure id
  | FComposed id _ _ => IdClosure id
  | FCombineReducers => IdExport "combineReducers"
  | FCombination id _ _ _ => IdClosure id
  | FBindActionCreators => IdExport "bindActionCreators"
  | FBound id _ _ => IdClosure id
  | FObservable s => IdStoreMethod "observable" s
  | FBuiltin name => IdBuiltin name
  end.

#[global] Instance lib_error_eq_dec : EqDecision lib_error.
Proof. solve_decision. Defined.

(** Strict equality [a === b]: by value on primitives ([NaN] equals
    nothing), by identity on objects and functions.  An error value names
    the [throw] that made the object, not the object: two errors made by one
    [throw] statement in two runs of it are distinct objects, which this
    function cannot tell apart.  It answers for them as if they were one;
    the library compares values that may both be errors in one place only,
    and [same_object] is used there. *)
Definition strict_eq (a b : value) : bool :=
  match a, b with
  | VUndefined, VUndefined => true
  | VNull, VNull => true
  | VBool x, VBool y => bool_decide (x = y)
  | VNum x, VNum y => bool_decide (x = y)
  | VStr x, VStr y => bool_decide (x = y)
  | VObj x, VObj y => bool_decide (x = y)
  | VError x, VError y => bool_decide (x = y)
  | VFun f, VFun g => bool_decide (identity_of f = identity_of g)
  | _, _ => false
  end.

(** [a === b] where the model knows the answer: [None] for two errors made
    by the same [throw] statement. *)
Definition same_object (a b : value) : option bool :=
  match a, b with
  | VError x, VError y => if decide (x = y) then None else Some false
  | _, _ => Some (strict_eq a b)
  end.

(** Objects: a prototype link ([None] is [null]) and the own properties,
    listed in the order [Object.keys] gives them (array indices in
    ascending order, then the other keys in insertion order), each with its
    enumerable flag.  Only data properties with string keys are represented;
    in particular the accessor [__proto__] of [Object.prototype] is no
    property of the heap: what reading and writing that key does is part of
    [get] and of the assignments of the library. *)
Record property := Property { pvalue : value; enumerable : bool }.

Record object := Object { proto : option nat; props : list (string * property) }.

Definition heap := list object.

(** [Object.getPrototypeOf(o)] for the object at [l]; the outer [None] means
    that [l] is not allocated. *)
Definition getPrototypeOf (h : heap) (l : nat) : option (option nat) :=
  proto <$> h !! l.

Fixpoint find_prop (key : string) (ps : list (string * property)) : option property :=
  match ps with
  | [] => None
  | (k, p) :: ps' => if String.eqb k key then Some p else find_prop key ps'
  end.

(** utils/isPlainObject.ts.

    [[
      let proto = obj
      while (Object.getPrototypeOf(proto) !== null) {
        proto = Object.getPrototypeOf(proto)
      }
    ]]
    The loop runs on a budget; [None] is returned when the budget is used up
    or a link of the chain is not allocated. *)
Fixpoint proto_loop (budget : nat) (h : heap) (proto : nat) : option nat :=
  match budget with
  | 0 => None
  | S budget' =>
      match getPrototypeOf h proto with
      | None => None
      | Some None => Some proto
      | Some (Some p) => proto_loop budget' h p
      end
  end.

(** [[
      if (typeof obj !== 'object' || obj === null) return false
      ...
      return Object.getPrototypeOf(obj) === proto
    ]]
    A chain that terminates passes through pairwise distinct objects, so
    one step per allocated object, and one more, is budget enough
    ([proto_loop_enough]); the result is [None] only for heaps no
    program can build (a cyclic prototype chain, on which the source loops
    forever, or a dangling link). *)
Definition isPlainObject (h : heap) (obj : value) : option bool :=
  if negb (bool_decide (typeof obj = TObject)) || strict_eq obj VNull then Some false
  else match obj with
       | VObj l =>
           match proto_loop (S (length h)) h l, getPrototypeOf h l with
           | Some t, Some p => Some (bool_decide (p = Some t))
           | _, _ => None
           end
       | _ => Some false
       end.

(** The array indices among the property keys: the decimal numerals, with
    no leading zero, of the integers below [2^32 - 1]. *)
Definition array_index (key : string) : option N :=
  match NilZero.uint_of_string key with
  | Some u =>
      let n := N.of_uint u in
      if String.eqb (NilZero.string_of_uint (N.to_uint n)) key
         && (n <? 4294967295)%N
      then Some n else None
  | None => None
  end.

Definition index_key (i : nat) : string := NilZero.string_of_uint (Nat.to_uint i).

(** Property read [o[key]] on the object at [l]: the own property, else the
    one inherited along the prototype chain, else [undefined]. *)
Fixpoint get_loop (budget : nat) (h : heap) (l : nat) (key : string) : option value :=
  match budget with
  | 0 => None
  | S budget' =>
      match h !! l with
      | None => None
      | Some o =>
          match find_prop key (props o) with
          | Some p => Some (pvalue p)
          | None =>
              match proto o with
              | None => Some VUndefined
              | Some p => get_loop budget' h p key
              end
          end
      end
  end.

(** Whether some object of the prototype chain of [l] has [key] as a
    property of its own. *)
Fixpoint defines_loop (budget : nat) (h : heap) (l : nat) (key : string) : option bool :=
  match budget with
  | 0 => None
  | S budget' =>
      match h !! l with
      | None => None
      | Some o =>
          match find_prop key (props o) with
          | Some _ => Some true
          | None =>
              match proto o with
              | None => Some false
              | Some p => defines_loop budget' h p key
              end
          end
      end
  end.

(** Whether the key [__proto__] is answered, for the object at [l], by the
    accessor of [Object.prototype]: it is when no object of the chain has a
    data property of that name. *)
Definition proto_accessor (h : heap) (l : nat) : option bool :=
  negb <$> defines_loop (S (length h)) h l "__proto__".

(** Keys that no built-in prototype, function or error object defines: of
    the keys the library reads, [type] and the array indices. *)
Definition undefined_key (key : string) : bool :=
  String.eqb key "type" || bool_decide (is_Some (array_index key)).

(** [v[key]].  The result is [None] where the model has no answer:
    - on [null] and [undefined], where the language raises a TypeError
      (see [getM]);
    - on a heap object, for the key [__proto__] when no object of the chain
      has a data property of that name, since the read is then answered by
      the accessor of [Object.prototype];
    - on a string, a number, a boolean, a function or an error object, for
      a key that a built-in prototype or the value itself may define.  A
      string has its characters under the array indices, and its [length]. *)
Definition get (h : heap) (v : value) (key : string) : option value :=
  match v with
  | VObj l =>
      if String.eqb key "__proto__" then
        match proto_accessor h l with
        | Some false => get_loop (S (length h)) h l key
        | _ => None
        end
      else get_loop (S (length h)) h l key
  | VUndefined | VNull => None
  | VStr s =>
      if String.eqb key "length" then Some (VNum (Z.of_nat (String.length s)))
      else match array_index key with
           | Some i =>
               match String.get (N.to_nat i) s with
               | Some c => Some (VStr (String c ""))
               | None => Some VUndefined
               end
           | None => if undefined_key key then Some VUndefined else None
           end
  | _ => if undefined_key key then Some VUndefined else None
  end.

(** The own enumerable keys of an object ([Object.keys]).  The properties
    are listed in that order already. *)
Definition own_keys (o : object) : list string :=
  (filter (λ kp, enumerable kp.2 = true) (props o)).*1.

(** [Object.keys(v)]: the indices of a string, and nothing for a number, a
    boolean, a function or an error object; [None] on [null] and
    [undefined], where the language raises a TypeError (see [keysM]). *)
Definition keys (h : heap) (v : value) : option (list string) :=
  match v with
  | VObj l => own_keys <$> h !! l
  | VUndefined | VNull => None
  | VStr s => Some (index_key <$> seq 0 (String.length s))
  | _ => Some []
  end.

(** The keys visited by [for (const key in o)]: the enumerable own keys,
    then those inherited along the prototype chain that no object nearer to
    [o] defines. *)
Fixpoint for_in_loop (budget : nat) (h : heap) (l : nat) (seen : list string)
  : option (list string) :=
  match budget with
  | 0 => None
  | S budget' =>
      match h !! l with
      | None => None
      | Some o =>
          let visible :=
            (filter (λ kp, enumerable kp.2 = true ∧ kp.1 ∉ seen) (props o)).*1 in
          match proto o with
          | None => Some visible
          | Some p =>
              match for_in_loop budget' h p (seen ++ (props o).*1) with
              | Some rest => Some (visible ++ rest)
              | None => None
              end
          end
      end
  end.

Definition for_in_keys (h : heap) (v : value) : option (list string) :=
  match v with
  | VObj l => for_in_loop (S (length h)) h l []
  | VStr s => Some (index_key <$> seq 0 (String.length s))
  | _ => Some []
  end.

#[global] Arguments isPlainObject : simpl never.
#[global] Arguments get : simpl never.
#[global] Arguments keys : simpl never.
#[global] Arguments for_in_keys : simpl never.

(** [hops h l n t]: following [n] prototype links from [l] reaches [t],
    whose own prototype is [null]. *)
Inductive hops (h : heap) : nat → nat → nat → Prop :=
| hops_O l o :
    h !! l = Some o → proto o = None → hops h l 0 l
| hops_S l o p n t :
    h !! l = Some o → proto o = Some p → hops h p n t → hops h l (S n) t.

(** The terminal non-null link of the prototype chain of [l]. *)
Definition terminal (h : heap) (l t : nat) : Prop := ∃ n, hops h l n t.

End JS.

(* ===================================================================== *)
(** * The library and its callers *)
(* ===================================================================== *)

Module Redux.
Import JS.

(** ** Memory *)

(** The variables closed over by the functions of one [createStore] call:
    [[
      let currentReducer = reducer
      let currentState = preloadedState as S
      let currentListeners: (() => void)[] | null = []
      let nextListeners = currentListeners
      let isDispatching = false
    ]]
    The two listener variables hold references to arrays ([None] is [null]);
    [store] is the constant the store object is bound to at the end of
    [createStore] ([None] before that). *)
Record store_vars := StoreVars {
  currentReducer : value;
  currentState : value;
  currentListeners : option nat;
  nextListeners : nat;
  isDispatching : bool;
  store : option nat
}.

(** Development-mode warnings (utils/warning.ts writes them to the console). *)
Inductive warning :=
| WarnNoReducerForKey (key : string)
| WarnNoValidReducer
| WarnUnexpectedStateType (isInit : bool) (reducerKeys : list string)
| WarnUnexpectedKeys (isInit : bool) (unexpectedKeys reducerKeys : list string).

(** The memory of a running program: the heap of objects user code can
    reach, and the library's private memory, namely the listener arrays, the
    variables of every store created so far, the [isSubscribed] flag of
    every subscription, the [unexpectedKeyCache] of every combined reducer,
    a supply of identities for new closures, the number of probe action
    types drawn so far, and the console. *)
Record world := World {
  heap : JS.heap;
  arrays : list (list value);
  stores : list store_vars;
  cells : list bool;
  caches : list (list string);
  next_id : nat;
  probes : nat;
  console : list warning
}.

Definition set_heap (h : JS.heap) (w : world) : world :=
  World h (arrays w) (stores w) (cells w) (caches w) (next_id w) (probes w) (console w).
Definition set_arrays (a : list (list value)) (w : world) : world :=
  World (heap w) a (stores w) (cells w) (caches w) (next_id w) (probes w) (console w).
Definition set_stores (s : list store_vars) (w : world) : world :=
  World (heap w) (arrays w) s (cells w) (caches w) (next_id w) (probes w) (console w).
Definition set_cells (c : list bool) (w : world) : world :=
  World (heap w) (arrays w) (stores w) c (caches w) (next_id w) (probes w) (console w).
Definition set_caches (c : list (list string)) (w : world) : world :=
  World (heap w) (arrays w) (stores w) (cells w) c (next_id w) (probes w) (console w).
Definition set_next_id (n : nat) (w : world) : world :=
  World (heap w) (arrays w) (stores w) (cells w) (caches w) n (probes w) (console w).
Definition set_probes (n : nat) (w : world) : world :=
  World (heap w) (arrays w) (stores w) (cells w) (caches w) (next_id w) n (console w).
Definition set_console (c : list warning) (w : world) : world :=
  World (heap w) (arrays w) (stores w) (cells w) (caches w) (next_id w) (probes w) c.

Definition set_currentReducer (v : value) (st : store_vars) : store_vars :=
  StoreVars v (currentState st) (currentListeners st) (nextListeners st)
    (isDispatching st) (store st).
Definition set_currentState (v : value) (st : store_vars) : store_vars :=
  StoreVars (currentReducer st) v (currentListeners st) (nextListeners st)
    (isDispatching st) (store st).
Definition set_currentListeners (r : option nat) (st : store_vars) : store_vars :=
  StoreVars (currentReducer st) (currentState st) r (nextListeners st)
    (isDispatching st) (store st).
Definition set_nextListeners (r : nat) (st : store_vars) : store_vars :=
  StoreVars (currentReducer st) (currentState st) (currentListeners st) r
    (isDispatching st) (store st).
Definition set_isDispatching (b : bool) (st : store_vars) : store_vars :=
  StoreVars (currentReducer st) (currentState st) (currentListeners st)
    (nextListeners st) b (store st).
Definition set_store (o : option nat) (st : store_vars) : store_vars :=
  StoreVars (currentReducer st) (currentState st) (currentListeners st)
    (nextListeners st) (isDispatching st) o.

(** The memory before anything has run: the heap holds [Object.prototype],
    with its built-in methods, none of them enumerable. *)
Definition ObjectPrototype : nat := 0.

Definition builtin (name : string) : string * property :=
  (name, Property (VFun (FBuiltin name)) false).

Definition initial_world : world :=
  World [Object None
           (builtin <$> ["constructor"; "__defineGetter__"; "__defineSetter__";
                         "hasOwnProperty"; "__lookupGetter__"; "__lookupSetter__";
                         "isPrototypeOf"; "propertyIsEnumerable"; "toString";
                         "valueOf"; "toLocaleString"])]
    [] [] [] [] 0 0 [].

(** ** Computations *)

(** A call returns a value, throws a value, or gives no result: its budget
    of nested calls and loop iterations is used up, it reads memory that
    does not exist, or it does something the model does not represent. *)
Inductive outcome (A : Type) :=
| Normal (a : A)
| Thrown (e : value)
| Diverged.
Arguments Normal {A} a.
Arguments Thrown {A} e.
Arguments Diverged {A}.

Definition M (A : Type) : Type := world → outcome A * world.

#[global] Instance M_ret : MRet M := λ A a w, (Normal a, w).

#[global] Instance M_bind : MBind M := λ A B f m w,
  match m w with
  | (Normal a, w') => f a w'
  | (Thrown e, w') => (Thrown e, w')
  | (Diverged, w') => (Diverged, w')
  end.

Definition throw {A} (e : value) : M A := λ w, (Thrown e, w).
Definition throw_error {A} (e : lib_error) : M A := throw (VError e).
Definition diverge {A} : M A := λ w, (Diverged, w).

(** [try { m } catch (e) { handler e }] *)
Definition try_catch {A} (m : M A) (handler : value → M A) : M A := λ w,
  match m w with
  | (Thrown e, w') => handler e w'
  | r => r
  end.

(** [try { m } finally { cleanup }] *)
Definition try_finally {A} (m : M A) (cleanup : M unit) : M A := λ w,
  match m w with
  | (Diverged, w') => (Diverged, w')
  | (r, w') =>
      match cleanup w' with
      | (Normal _, w'') => (r, w'')
      | (Thrown e, w'') => (Thrown e, w'')
      | (Diverged, w'') => (Diverged, w'')
      end
  end.

Definition read {A} (f : world → A) : M A := λ w, (Normal (f w), w).
Definition modify (f : world → world) : M unit := λ w, (Normal tt, f w).
Definition defined {A} (o : option A) : M A :=
  match o with Some a => mret a | None => diverge end.

(** *** Heap operations *)

Definition alloc_object (o : object) : M nat := λ w,
  (Normal (length (heap w)), set_heap (heap w ++ [o]) w).

(** An object literal [{ k1: v1, ... }]. *)
Definition literal (kvs : list (string * value)) : object :=
  Object (Some ObjectPrototype) (prod_map id (λ v, Property v true) <$> kvs).

Definition isPlainObjectM (v : value) : M bool :=
  h ← read heap; defined (isPlainObject h v).

(** [v[key]]; a TypeError when [v] is [null] or [undefined]. *)
Definition getM (v : value) (key : string) : M value :=
  match v with
  | VUndefined | VNull => throw_error TypeErrorNullish
  | _ => h ← read heap; defined (get h v key)
  end.

(** [Object.keys(v)]; a TypeError when [v] is [null] or [undefined]. *)
Definition keysM (v : value) : M (list string) :=
  match v with
  | VUndefined | VNull => throw_error TypeErrorNullish
  | _ => h ← read heap; defined (keys h v)
  end.

(** *** Listener arrays *)

Definition alloc_array (xs : list value) : M nat := λ w,
  (Normal (length (arrays w)), set_arrays (arrays w ++ [xs]) w).
Definition read_array (r : nat) : M (list value) :=
  a ← read arrays; defined (a !! r).
Definition write_array (r : nat) (xs : list value) : M unit :=
  modify (λ w, set_arrays (<[r := xs]> (arrays w)) w).

(** [xs.indexOf(v)] *)
Fixpoint indexOf (xs : list value) (v : value) : Z :=
  match xs with
  | [] => -1
  | x :: xs' =>
      if strict_eq x v then 0
      else let i := indexOf xs' v in if (i <? 0)%Z then -1 else (1 + i)
  end%Z.

(** The array left by [xs.splice(start, 1)]: a negative [start] counts
    from the end. *)
Definition splice1 (xs : list value) (start : Z) : list value :=
  let len := Z.of_nat (length xs) in
  let actualStart :=
    if (start <? 0)%Z then Z.max (len + start) 0 else Z.min start len in
  delete (Z.to_nat actualStart) xs.

(** *** Store variables, cells, caches, identities *)

Definition alloc_store (st : store_vars) : M nat := λ w,
  (Normal (length (stores w)), set_stores (stores w ++ [st]) w).
Definition get_store (s : nat) : M store_vars :=
  ss ← read stores; defined (ss !! s).
Definition update_store (s : nat) (f : store_vars → store_vars) : M unit :=
  modify (λ w, set_stores (alter f s (stores w)) w).

Definition alloc_cell (b : bool) : M nat := λ w,
  (Normal (length (cells w)), set_cells (cells w ++ [b]) w).
Definition read_cell (c : nat) : M bool :=
  cs ← read cells; defined (cs !! c).
Definition write_cell (c : nat) (b : bool) : M unit :=
  modify (λ w, set_cells (<[c := b]> (cells w)) w).

Definition alloc_cache : M nat := λ w,
  (Normal (length (caches w)), set_caches (caches w ++ [[]]) w).
Definition read_cache (c : nat) : M (list string) :=
  cs ← read caches; defined (cs !! c).
Definition write_cache (c : nat) (ks : list string) : M unit :=
  modify (λ w, set_caches (<[c := ks]> (caches w)) w).

Definition fresh_id : M nat := λ w, (Normal (next_id w), set_next_id (S (next_id w)) w).

Definition warn (msg : warning) : M unit :=
  modify (λ w, set_console (console w ++ [msg]) w).

(** ** User code *)

(** The body of a user function (a reducer, a listener, an enhancer, an
    action creator, ...): it returns, throws, calls a function value and
    goes on with its result or with the exception it caught, or reads and
    writes the heap. *)
Inductive prog :=
| Ret (v : value)
| Throw (v : value)
| Call (f : value) (args : list value) (k : value → prog) (handler : value → prog)
| ReadHeap (k : JS.heap → prog)
| WriteHeap (h : JS.heap) (k : prog).

(** Records built by the library before they are handed out: the own
    properties, all enumerable, in the order [Object.keys] gives them.
    [assoc_get] is [o[key]] for a key [o] has, and [assoc_put] is what
    [o[key] = v] does to the own properties: the value of a key that is
    there is replaced; a new array index goes after the array indices
    smaller than it, before every other key, and any other new key goes
    last. *)
Fixpoint assoc_get (key : string) (o : list (string * value)) : value :=
  match o with
  | [] => VUndefined
  | (k, v) :: o' => if String.eqb k key then v else assoc_get key o'
  end.

Fixpoint assoc_lookup (key : string) (o : list (string * value)) : option value :=
  match o with
  | [] => None
  | (k, v) :: o' => if String.eqb k key then Some v else assoc_lookup key o'
  end.

Fixpoint assoc_set (key : string) (v : value) (o : list (string * value))
  : list (string * value) :=
  match o with
  | [] => [(key, v)]
  | (k, v') :: o' =>
      if String.eqb k key then (k, v) :: o' else (k, v') :: assoc_set key v o'
  end.

Fixpoint insert_index (n : N) (key : string) (v : value) (o : list (string * value))
  : list (string * value) :=
  match o with
  | [] => [(key, v)]
  | (k, v') :: o' =>
      match array_index k with
      | Some m =>
          if (m <? n)%N then (k, v') :: insert_index n key v o' else (key, v) :: o
      | None => (key, v) :: o
      end
  end.

Definition assoc_put (key : string) (v : value) (o : list (string * value))
  : list (string * value) :=
  if bool_decide (key ∈ o.*1) then assoc_set key v o
  else match array_index key with
       | Some n => insert_index n key v o
       | None => o ++ [(key, v)]
       end.

(** Whether keys are listed in the order [Object.keys] gives: the array
    indices first, in ascending order, then the other keys. *)
Fixpoint key_order_from (last : option N) (names : bool) (ks : list string) : bool :=
  match ks with
  | [] => true
  | k :: ks' =>
      match array_index k with
      | Some n =>
          negb names
          && match last with Some m => (m <? n)%N | None => true end
          && key_order_from (Some n) false ks'
      | None => key_order_from last true ks'
      end
  end.

Definition key_order (ks : list string) : bool := key_order_from None false ks.

(** An object the library is building: its prototype and its own
    properties.  It starts as [{}]. *)
Record record := Rec { rproto : value; rprops : list (string * value) }.

Definition empty_record : record := Rec (VObj ObjectPrototype) [].

(** [o[key] = v] on such an object.  While its prototype is
    [Object.prototype], an assignment to the key [__proto__] runs the
    setter that [Object.prototype] has for that key: an object, a function
    or [null] becomes the prototype of [o], any other value is ignored, and
    [o] gets no property of its own.  An assignment to another key makes or
    updates the own property.  The model has no answer where the key
    [__proto__] has been redefined as a data property of
    [Object.prototype], and, once [o] has another prototype, for any
    assignment: what it does depends on the properties of that prototype
    (those of a function cannot be written through). *)
Definition rec_set (key : string) (v : value) (o : record) : M record :=
  if negb (strict_eq (rproto o) (VObj ObjectPrototype)) then diverge
  else if String.eqb key "__proto__" then
    h ← read heap;
    match proto_accessor h ObjectPrototype with
    | Some true =>
        match v with
        | VObj _ | VFun _ | VError _ | VNull => mret (Rec v (rprops o))
        | _ => mret o
        end
    | _ => diverge
    end
  else mret (Rec (rproto o) (assoc_put key v (rprops o))).

(** The object is handed out: it is allocated in the heap.  The heap has
    objects and [null] for prototypes; an object whose prototype is a
    function has no representation there. *)
Definition alloc_record (o : record) : M value :=
  let properties := prod_map id (λ v, Property v true) <$> rprops o in
  match rproto o with
  | VObj p => l ← alloc_object (Object (Some p) properties); mret (VObj l)
  | VNull => l ← alloc_object (Object None properties); mret (VObj l)
  | _ => diverge
  end.

(** [String(v)], for its effect: converting an object calls its [toString]
    or [valueOf] method, which is not represented. *)
Definition to_String (v : value) : M unit :=
  match v with
  | VObj _ => diverge
  | _ => mret tt
  end.

(** The [i]-th argument of a call; [undefined] when it is not given. *)
Definition arg (args : list value) (i : nat) : value := default VUndefined (args !! i).


(** ** The library *)

Section Library.

(** utils/actionTypes.ts is taken as given: the two reserved action types,
    and the random source behind [PROBE_UNKNOWN_ACTION()], whose [k]-th
    draw is [PROBE_UNKNOWN_ACTION k]. *)
Variables INIT REPLACE : string.
Variable PROBE_UNKNOWN_ACTION : nat → string.

(** utils/symbol-observable.ts is taken as given: the key [$$observable] of
    the store object is the string ["@@observable"] where the environment
    has no [Symbol.observable], and that symbol where it has; [None] stands
    for the symbol, which is no string key. *)
Variable OBSERVABLE : option string.

(** [process.env.NODE_ENV === 'production'] *)
Variable production : bool.

(** The bodies of the user functions. *)
Variable code : nat → list value → prog.

Definition probe : M string := λ w,
  (Normal (PROBE_UNKNOWN_ACTION (probes w)), set_probes (S (probes w)) w).

Section Calls.

(** [call f args] calls the function value [f]; it is [apply] below, one
    level of nesting further down. *)
Variable call : value → list value → M value.

Fixpoint run (p : prog) : M value := λ w,
  match p with
  | Ret v => (Normal v, w)
  | Throw v => (Thrown v, w)
  | Call f args k handler =>
      match call f args w with
      | (Normal v, w') => run (k v) w'
      | (Thrown e, w') => run (handler e) w'
      | (Diverged, w') => (Diverged, w')
      end
  | ReadHeap k => run (k (heap w)) w
  | WriteHeap h k => run k (set_heap h w)
  end.

(** *** createStore.ts *)

(** [[
      function ensureCanMutateNextListeners() {
        if (nextListeners === currentListeners) {
          nextListeners = currentListeners.slice()
        }
      }
    ]] *)
Definition ensureCanMutateNextListeners (s : nat) : M unit :=
  st ← get_store s;
  if bool_decide (Some (nextListeners st) = currentListeners st) then
    xs ← read_array (nextListeners st);
    copy ← alloc_array xs;
    update_store s (set_nextListeners copy)
  else mret tt.

Definition getState (s : nat) : M value :=
  st ← get_store s;
  if isDispatching st then throw_error ErrGetStateWhileDispatching
  else mret (currentState st).

(** The function returned by [subscribe]; [c] is its [isSubscribed]. *)
Definition unsubscribe (s : nat) (listener : value) (c : nat) : M value :=
  isSubscribed ← read_cell c;
  if negb isSubscribed then mret VUndefined
  else
    st ← get_store s;
    if isDispatching st then throw_error ErrUnsubscribeWhileDispatching
    else
      write_cell c false;;
      ensureCanMutateNextListeners s;;
      st ← get_store s;
      xs ← read_array (nextListeners st);
      let index := indexOf xs listener in
      write_array (nextListeners st) (splice1 xs index);;
      update_store s (set_currentListeners None);;
      mret VUndefined.

Definition subscribe (s : nat) (listener : value) : M value :=
  if negb (bool_decide (typeof listener = TFunction))
  then throw_error ErrListenerNotFunction
  else
    st ← get_store s;
    if isDispatching st then throw_error ErrSubscribeWhileDispatching
    else
      c ← alloc_cell true;
      ensureCanMutateNextListeners s;;
      st ← get_store s;
      xs ← read_array (nextListeners st);
      write_array (nextListeners st) (xs ++ [listener]);;
      mret (VFun (FUnsubscribe s listener c)).

(** [[
      for (let i = 0; i < listeners.length; i++) {
        const listener = listeners[i]
        listener()
      }
    ]]
    [listeners] is a reference: length and element are read from the array
    at every turn. *)
Fixpoint notify (budget : nat) (listeners : nat) (i : nat) : M unit :=
  match budget with
  | 0 => diverge
  | S budget' =>
      xs ← read_array listeners;
      if bool_decide (i < length xs) then
        let listener := default VUndefined (xs !! i) in
        call listener [];;
        notify budget' listeners (S i)
      else mret tt
  end.

Definition dispatch (budget : nat) (s : nat) (action : value) : M value :=
  plain ← isPlainObjectM action;
  if negb plain then throw_error ErrActionNotPlain
  else
    type ← getM action "type";
    if bool_decide (typeof type = TUndefined) then throw_error ErrActionTypeUndefined
    else
      st ← get_store s;
      if isDispatching st then throw_error ErrReducersMayNotDispatch
      else
        try_finally
          (update_store s (set_isDispatching true);;
           st ← get_store s;
           next ← call (currentReducer st) [currentState st; action];
           update_store s (set_currentState next))
          (update_store s (set_isDispatching false));;
        st ← get_store s;
        update_store s (set_currentListeners (Some (nextListeners st)));;
        let listeners := nextListeners st in
        notify budget listeners 0;;
        mret action.

Definition replaceReducer (budget : nat) (s : nat) (nextReducer : value) : M value :=
  if negb (bool_decide (typeof nextReducer = TFunction))
  then throw_error ErrNextReducerNotFunction
  else
    update_store s (set_currentReducer nextReducer);;
    a ← alloc_object (literal [("type", VStr REPLACE)]);
    dispatch budget s (VObj a);;
    st ← get_store s;
    match store st with
    | Some o => mret (VObj o)
    | None => throw_error ReferenceErrorUninitialized
    end.

(** The store object:
    [[
      const store = {
        dispatch: dispatch as Dispatch<A>,
        subscribe,
        getState,
        replaceReducer,
        [$$observable]: observable
      }
    ]]
    The last property, whose key is computed, is there when that key is a
    string. *)
Definition store_object (s : nat) : object :=
  let methods :=
    [("dispatch", VFun (FDispatch s));
     ("subscribe", VFun (FSubscribe s));
     ("getState", VFun (FGetState s));
     ("replaceReducer", VFun (FReplaceReducer s))] in
  literal match OBSERVABLE with
          | Some key => assoc_put key (VFun (FObservable s)) methods
          | None => methods
          end.

Definition createStore (budget : nat) (args : list value) : M value :=
  let reducer := arg args 0 in
  let preloadedState := arg args 1 in
  let enhancer := arg args 2 in
  if bool_decide (typeof preloadedState = TFunction)
       && bool_decide (typeof enhancer = TFunction)
     || bool_decide (typeof enhancer = TFunction)
       && bool_decide (typeof (arg args 3) = TFunction)
  then throw_error ErrSeveralEnhancers
  else
    let shift :=
      bool_decide (typeof preloadedState = TFunction)
      && bool_decide (typeof enhancer = TUndefined) in
    let enhancer := if shift then preloadedState else enhancer in
    let preloadedState := if shift then VUndefined else preloadedState in
    if negb (bool_decide (typeof enhancer = TUndefined)) then
      if negb (bool_decide (typeof enhancer = TFunction))
      then throw_error ErrEnhancerNotFunction
      else
        enhanced ← call enhancer [VFun FCreateStore];
        call enhanced [reducer; preloadedState]
    else if negb (bool_decide (typeof reducer = TFunction))
    then throw_error ErrReducerNotFunction
    else
      listeners ← alloc_array [];
      s ← alloc_store (StoreVars reducer preloadedState (Some listeners) listeners false None);
      a ← alloc_object (literal [("type", VStr INIT)]);
      dispatch budget s (VObj a);;
      o ← alloc_object (store_object s);
      update_store s (set_store (Some o));;
      mret (VObj o).

(** *** compose.ts *)

(** [funcs.reduce((a, b) => (...args) => a(b(...args)))], from the first
    element on. *)
Fixpoint compose_reduce (a : value) (funcs : list value) : M value :=
  match funcs with
  | [] => mret a
  | b :: funcs' =>
      id ← fresh_id;
      compose_reduce (VFun (FComposed id a b)) funcs'
  end.

Definition compose (funcs : list value) : M value :=
  match funcs with
  | [] => id ← fresh_id; mret (VFun (FIdentity id))
  | [f] => mret f
  | f :: funcs' => compose_reduce f funcs'
  end.

(** [(...args) => a(b(...args))] *)
Definition composed (a b : value) (args : list value) : M value :=
  r ← call b args; call a [r].

(** *** bindActionCreators.ts *)

Definition bindActionCreator (actionCreator dispatch : value) : M value :=
  id ← fresh_id; mret (VFun (FBound id actionCreator dispatch)).

(** [function (...args) { return dispatch(actionCreator.apply(this, args)) }];
    the receiver [this] is not represented. *)
Definition bound (actionCreator dispatch : value) (args : list value) : M value :=
  action ← call actionCreator args; call dispatch [action].

(** [[
      for (const key in actionCreators) {
        const actionCreator = actionCreators[key]
        if (typeof actionCreator === 'function') {
          boundActionCreators[key] = bindActionCreator(actionCreator, dispatch)
        }
      }
    ]] *)
Fixpoint bind_loop (actionCreators dispatch : value) (ks : list string)
    (boundActionCreators : record) : M record :=
  match ks with
  | [] => mret boundActionCreators
  | key :: ks' =>
      actionCreator ← getM actionCreators key;
      if bool_decide (typeof actionCreator = TFunction) then
        b ← bindActionCreator actionCreator dispatch;
        boundActionCreators ← rec_set key b boundActionCreators;
        bind_loop actionCreators dispatch ks' boundActionCreators
      else bind_loop actionCreators dispatch ks' boundActionCreators
  end.

Definition bindActionCreators (actionCreators dispatch : value) : M value :=
  if bool_decide (typeof actionCreators = TFunction)
  then bindActionCreator actionCreators dispatch
  else if negb (bool_decide (typeof actionCreators = TObject))
          || strict_eq actionCreators VNull
  then throw_error ErrBindExpectedObjectOrFunction
  else
    h ← read heap;
    ks ← defined (for_in_keys h actionCreators);
    boundActionCreators ← bind_loop actionCreators dispatch ks empty_record;
    alloc_record boundActionCreators.

(** *** combineReducers.ts *)

(** [action && action.type === t] *)
Definition action_has_type (action : value) (t : string) : M bool :=
  if truthy action then
    type ← getM action "type"; mret (strict_eq type (VStr t))
  else mret false.

(** [reducers.hasOwnProperty(key)] on the private [finalReducers] record:
    the method is the slice reducer of that name if there is one, and else
    the property of [Object.prototype].  The built-in method tests the own
    properties of its receiver; any other function is called on [key] (the
    receiver of a call is not represented). *)
Definition hasOwnProperty (reducers : list (string * value)) (key : string) : M bool :=
  method ← match assoc_lookup "hasOwnProperty" reducers with
           | Some m => mret m
           | None => getM (VObj ObjectPrototype) "hasOwnProperty"
           end;
  if strict_eq method (VFun (FBuiltin "hasOwnProperty"))
  then mret (bool_decide (key ∈ reducers.*1))
  else r ← call method [VStr key]; mret (truthy r).

(** [unexpectedKeyCache[key]], for its truthiness.  The cache is an object
    made as [{}] whose own properties, all [true], are kept in a cell; a key
    it does not have is read from [Object.prototype], and [__proto__] reads
    as that prototype, through the accessor. *)
Definition cached (unexpectedKeyCache : nat) (key : string) : M bool :=
  cache ← read_cache unexpectedKeyCache;
  if bool_decide (key ∈ cache) then mret true
  else if String.eqb key "__proto__" then
    h ← read heap;
    match proto_accessor h ObjectPrototype with
    | Some true => mret true
    | _ => v ← getM (VObj ObjectPrototype) key; mret (truthy v)
    end
  else v ← getM (VObj ObjectPrototype) key; mret (truthy v).

(** [[
      Object.keys(inputState).filter(
        key => !reducers.hasOwnProperty(key) && !unexpectedKeyCache[key]
      )
    ]] *)
Fixpoint unexpected_keys (reducers : list (string * value)) (unexpectedKeyCache : nat)
    (ks : list string) : M (list string) :=
  match ks with
  | [] => mret []
  | key :: ks' =>
      own ← hasOwnProperty reducers key;
      unexpected ←
        (if own : bool then mret false
         else c ← cached unexpectedKeyCache key; mret (negb c));
      rest ← unexpected_keys reducers unexpectedKeyCache ks';
      mret (if unexpected : bool then key :: rest else rest)
  end.

(** [reducers] is the private [finalReducers] record, [unexpectedKeyCache]
    the cell of the cache.  The result is the message, if any.
    [[
      unexpectedKeys.forEach(key => { unexpectedKeyCache[key] = true })
    ]]
    adds the keys to the cache.  The key [__proto__] is among them only
    when it is a data property of [Object.prototype], and the assignment
    then makes a property of the cache as it does for any other key. *)
Definition getUnexpectedStateShapeWarningMessage (inputState : value)
    (reducers : list (string * value)) (action : value) (unexpectedKeyCache : nat)
  : M (option warning) :=
  let reducerKeys := reducers.*1 in
  isInit ← action_has_type action INIT;
  if bool_decide (length reducerKeys = 0) then mret (Some WarnNoValidReducer)
  else
    plain ← isPlainObjectM inputState;
    if negb plain then mret (Some (WarnUnexpectedStateType isInit reducerKeys))
    else
      ks ← keysM inputState;
      unexpectedKeys ← unexpected_keys reducers unexpectedKeyCache ks;
      cache ← read_cache unexpectedKeyCache;
      write_cache unexpectedKeyCache (cache ++ unexpectedKeys);;
      isReplace ← action_has_type action REPLACE;
      if isReplace : bool then mret (None : option warning)
      else if bool_decide (0 < length unexpectedKeys)
      then mret (Some (WarnUnexpectedKeys isInit unexpectedKeys reducerKeys))
      else mret None.

(** [Object.keys(reducers).forEach(key => { ... })] *)
Fixpoint assertReducerShape_loop (reducers : list (string * value))
    (ks : list string) : M unit :=
  match ks with
  | [] => mret tt
  | key :: ks' =>
      let reducer := assoc_get key reducers in
      a ← alloc_object (literal [("type", VStr INIT)]);
      initialState ← call reducer [VUndefined; VObj a];
      if bool_decide (typeof initialState = TUndefined)
      then throw_error (ErrSliceInitUndefined key)
      else
        t ← probe;
        a' ← alloc_object (literal [("type", VStr t)]);
        probed ← call reducer [VUndefined; VObj a'];
        if bool_decide (typeof probed = TUndefined)
        then throw_error (ErrSliceProbeUndefined key)
        else assertReducerShape_loop reducers ks'
  end.

Definition assertReducerShape (reducers : list (string * value)) : M unit :=
  assertReducerShape_loop reducers reducers.*1.

(** The loop of [combineReducers] over [reducerKeys]:
    [[
      if (typeof reducers[key] === 'function') {
        finalReducers[key] = reducers[key]
      }
    ]] *)
Fixpoint combineReducers_from (reducers : value) (reducerKeys : list string)
    (finalReducers : record) : M record :=
  match reducerKeys with
  | [] => mret finalReducers
  | key :: ks' =>
      r ← getM reducers key;
      (if negb production && bool_decide (typeof r = TUndefined)
       then warn (WarnNoReducerForKey key) else mret tt);;
      if bool_decide (typeof r = TFunction)
      then
        finalReducers ← rec_set key r finalReducers;
        combineReducers_from reducers ks' finalReducers
      else combineReducers_from reducers ks' finalReducers
  end.

(** The loop started on an object that has [Object.prototype] for prototype
    and the given own properties; the result is the own properties of
    [finalReducers], which is all the library reads of it. *)
Definition combineReducers_loop (reducers : value) (reducerKeys : list string)
    (finalReducers : list (string * value)) : M (list (string * value)) :=
  o ← combineReducers_from reducers reducerKeys
        (Rec (VObj ObjectPrototype) finalReducers);
  mret (rprops o).

Definition combineReducers (reducers : value) : M value :=
  reducerKeys ← keysM reducers;
  finalReducers ← combineReducers_loop reducers reducerKeys [];
  unexpectedKeyCache ←
    (if negb production then (c ← alloc_cache; mret (Some c)) else mret None : M (option nat));
  shapeAssertionError ←
    try_catch (assertReducerShape finalReducers;; mret VUndefined) (λ e, mret e);
  id ← fresh_id;
  mret (VFun (FCombination id finalReducers shapeAssertionError unexpectedKeyCache)).

(** The loop of [combination] over [finalReducerKeys]; [nextState] is local
    to the call until it is returned.
    [[
      if (typeof nextStateForKey === 'undefined') {
        const actionType = action && action.type
        throw new Error(`... ${actionType ? `"${String(actionType)}"` : '(unknown type)'} ...`)
      }
      nextState[key] = nextStateForKey
      hasChanged = hasChanged || nextStateForKey !== previousStateForKey
    ]]
    The comparison is made while [hasChanged] is false. *)
Fixpoint combination_loop (finalReducers : list (string * value))
    (finalReducerKeys : list string) (state action : value)
    (hasChanged : bool) (nextState : record) : M (bool * record) :=
  match finalReducerKeys with
  | [] => mret (hasChanged, nextState)
  | key :: ks' =>
      let reducer := assoc_get key finalReducers in
      previousStateForKey ← getM state key;
      nextStateForKey ← call reducer [previousStateForKey; action];
      if bool_decide (typeof nextStateForKey = TUndefined)
      then
        actionType ← (if truthy action then getM action "type" else mret action);
        (if truthy actionType then to_String actionType else mret tt);;
        throw_error (ErrSliceReturnedUndefined key)
      else
        nextState ← rec_set key nextStateForKey nextState;
        hasChanged ←
          (if hasChanged : bool then mret true
           else same ← defined (same_object nextStateForKey previousStateForKey);
                mret (negb same));
        combination_loop finalReducers ks' state action hasChanged nextState
  end.

(** The development-mode block of [combination]:
    [[
      if (process.env.NODE_ENV !== 'production') {
        const warningMessage = getUnexpectedStateShapeWarningMessage(...)
        if (warningMessage) { warning(warningMessage) }
      }
    ]] *)
Definition warn_unexpected_state_shape (finalReducers : list (string * value))
    (unexpectedKeyCache : option nat) (state action : value) : M unit :=
  if negb production then
    c ← defined unexpectedKeyCache;
    warningMessage ← getUnexpectedStateShapeWarningMessage state finalReducers action c;
    match warningMessage with
    | Some msg => warn msg
    | None => mret tt
    end
  else mret tt.

(** The reducer returned by [combineReducers]:
    [[
      hasChanged =
        hasChanged || finalReducerKeys.length !== Object.keys(state).length
      return hasChanged ? nextState : state
    ]] *)
Definition combination (finalReducers : list (string * value))
    (shapeAssertionError : value) (unexpectedKeyCache : option nat)
    (args : list value) : M value :=
  let action := arg args 1 in
  let finalReducerKeys := finalReducers.*1 in
  state ← (if strict_eq (arg args 0) VUndefined
           then l ← alloc_object (literal []); mret (VObj l)
           else mret (arg args 0));
  if truthy shapeAssertionError then throw shapeAssertionError
  else
    warn_unexpected_state_shape finalReducers unexpectedKeyCache state action;;
    '(hasChanged, nextState) ←
      combination_loop finalReducers finalReducerKeys state action false empty_record;
    hasChanged ←
      (if hasChanged : bool then mret true
       else ks ← keysM state;
            mret (negb (bool_decide (length finalReducerKeys = length ks))));
    if hasChanged : bool then alloc_record nextState else mret state.

End Calls.

(** ** Calling a function value *)

(** [apply budget f args] is the call [f(...args)].  Every nested call
    lowers the budget by one.  The calls of the store's [observable] and of
    the built-in functions are not represented. *)
Fixpoint apply (budget : nat) (f : value) (args : list value) : M value :=
  match budget with
  | 0 => diverge
  | S budget' =>
      let call := apply budget' in
      match f with
      | VFun (FUser i) => run call (code i args)
      | VFun FCreateStore => createStore call budget' args
      | VFun (FGetState s) => getState s
      | VFun (FSubscribe s) => subscribe s (arg args 0)
      | VFun (FDispatch s) => dispatch call budget' s (arg args 0)
      | VFun (FReplaceReducer s) => replaceReducer call budget' s (arg args 0)
      | VFun (FUnsubscribe s listener c) => unsubscribe s listener c
      | VFun FCompose => compose args
      | VFun (FIdentity _) => mret (arg args 0)
      | VFun (FComposed _ a b) => composed call a b args
      | VFun FCombineReducers => combineReducers call (arg args 0)
      | VFun (FCombination _ finalReducers shapeAssertionError unexpectedKeyCache) =>
          combination call finalReducers shapeAssertionError unexpectedKeyCache args
      | VFun FBindActionCreators => bindActionCreators (arg args 0) (arg args 1)
      | VFun (FBound _ actionCreator dispatch) => bound call actionCreator dispatch args
      | VFun (FObservable _) | VFun (FBuiltin _) => diverge
      | _ => throw_error TypeErrorNotCallable
      end
  end.

End Library.

End Redux.

(* ===================================================================== *)
(** * A sample program *)
(* ===================================================================== *)

Module Examples.
Import JS Redux.

Definition INIT : string := "@@redux/INIT".
Definition REPLACE : string := "@@redux/REPLACE".
Definition PROBE_UNKNOWN_ACTION (k : nat) : string :=
  "@@redux/PROBE_UNKNOWN_ACTION" +:+ String.concat "" (replicate k ".").

Definition number (v : value) : Z := match v with VNum n => n | _ => 0 end.

(** The user functions:
    0, a counter reducer, which throws on the action type ["boom"];
    1, a listener that subscribes listener 2 to store 0;
    2, a listener that does nothing;
    3, a reducer that returns the state it is given;
    4, an enhancer, and 5, the store creator it returns;
    6, an action creator;
    7 and 8, two scripts that set the memories below up. *)
Definition program (i : nat) (args : list value) : prog :=
  match i with
  | 0 => ReadHeap (λ h,
           let n := number (arg args 0) in
           match get h (arg args 1) "type" with
           | Some (VStr "+") => Ret (VNum (n + 1))
           | Some (VStr "-") => Ret (VNum (n - 1))
           | Some (VStr "boom") => Throw (VStr "boom")
           | _ => Ret (VNum n)
           end)
  | 1 => Call (VFun (FSubscribe 0)) [VFun (FUser 2)] (λ _, Ret VUndefined) Throw
  | 2 => Ret VUndefined
  | 3 => Ret (arg args 0)
  | 4 => Ret (VFun (FUser 5))
  | 5 => Call (VFun FCreateStore) [arg args 0; arg args 1] Ret Throw
  | 6 => ReadHeap (λ h,
           WriteHeap (h ++ [literal [("type", VStr "+")]]) (Ret (VObj (length h))))
  | 7 => Call (VFun FCreateStore) [VFun (FUser 0)] (λ _,
         Call (VFun (FSubscribe 0)) [VFun (FUser 2)] (λ _,
         Call (VFun (FSubscribe 0)) [VFun (FUser 1)] (λ _,
         ReadHeap (λ h,
           WriteHeap (h ++ [literal [("type", VStr "+")];
                            literal [("type", VStr "boom")];
                            literal [("count", VFun (FUser 3))];
                            literal [("count", VNum 0)];
                            literal [("increment", VFun (FUser 6))];
                            literal [("count", VFun (FUser 0))]])
             (Call (VFun FCombineReducers) [VObj 8] Ret Throw))) Throw) Throw) Throw
  | 8 => Call (VFun FCreateStore) [VFun (FUser 0)] (λ _,
         Call (VFun (FSubscribe 0)) [VFun (FUser 2)] (λ _,
         ReadHeap (λ h,
           WriteHeap (h ++ [literal [("type", VStr "+")]])
             (Call (VFun (FDispatch 0)) [VObj 3] Ret Throw))) Throw) Throw
  | _ => Ret VUndefined
  end.

Definition OBSERVABLE : option string := Some "@@observable".

Abbreviation apply :=
  (Redux.apply INIT REPLACE PROBE_UNKNOWN_ACTION OBSERVABLE false program).

(** The memory after script 7: a counter store with two listeners
    subscribed, the objects [{type: "+"}] (3), [{type: "boom"}] (4),
    [{count: f3}] (5), [{count: 0}] (6), [{increment: f6}] (7) and
    [{count: f0}] (8), and the combined reducer of the last one. *)
Definition memory : world :=
  Eval vm_compute in snd (apply 9 (VFun (FUser 7)) [] initial_world).

(** The variables of its store. *)
Definition memory_store : store_vars :=
  StoreVars (VFun (FUser 0)) (VNum 0) (Some 0) 1 false (Some 2).

(** The same memory while the store runs its reducer. *)
Definition memory_dispatching : world :=
  Eval vm_compute in
    set_stores (alter (set_isDispatching true) 0 (stores memory)) memory.

(** The memory after script 8: the store has dispatched and its one
    listener has not touched the subscriptions, so the current list is the
    pending one. *)
Definition memory_adopted : world :=
  Eval vm_compute in snd (apply 9 (VFun (FUser 8)) [] initial_world).

Definition memory_adopted_store : store_vars :=
  StoreVars (VFun (FUser 0)) (VNum 1) (Some 1) 1 false (Some 2).

(** That memory after one more [subscribe]. *)
Definition memory_subscribed : world :=
  Eval vm_compute in
    snd (apply 3 (VFun (FSubscribe 0)) [VFun (FUser 1)] memory_adopted).

(** [memory] when [combineReducers] has made a cache and the INIT action
    for the first probe of a reducer. *)
Definition memory_probed : world :=
  Eval vm_compute in
    set_heap (heap memory ++ [literal [("type", VStr INIT)]])
      (set_caches (caches memory ++ [[]]) memory).

(** [memory] with two more listeners subscribed: the store's own
    [dispatch], which throws when a listener call gives it no action, and
    listener 2 once more. *)
Definition memory_listening : world :=
  Eval vm_compute in
    snd (apply 3 (VFun (FSubscribe 0)) [VFun (FUser 2)]
           (snd (apply 3 (VFun (FSubscribe 0)) [VFun (FDispatch 0)] memory))).

(** [memory] with one more object (11),
    [{a: f3, b: 1, c: undefined, d: f0}]. *)
Definition memory_mixed : world :=
  Eval vm_compute in
    set_heap (heap memory ++ [literal [("a", VFun (FUser 3)); ("b", VNum 1);
                                       ("c", VUndefined); ("d", VFun (FUser 0))]])
      memory.

(** The memory in which [createStore(f0)], called in the initial memory,
    dispatches the INIT action (object 1) to the store it is making. *)
Definition memory_creating : world :=
  Eval vm_compute in
    set_heap (heap initial_world ++ [literal [("type", VStr INIT)]])
      (set_stores
         (stores initial_world ++
          [StoreVars (VFun (FUser 0)) VUndefined (Some 0) 0 false None])
         (set_arrays (arrays initial_world ++ [[]]) initial_world)).

(** The memory in which [replaceReducer(f3)], called in [memory],
    dispatches the REPLACE action (object 11). *)
Definition memory_replacing : world :=
  Eval vm_compute in
    set_heap (heap memory ++ [literal [("type", VStr REPLACE)]])
      (set_stores (alter (set_currentReducer (VFun (FUser 3))) 0 (stores memory))
         memory).

(** [memory] after the dispatch of [{type: "+"}] (object 3), whose second
    listener subscribes a third. *)
Definition memory_dispatched : world :=
  Eval vm_compute in snd (apply 6 (VFun (FDispatch 0)) [VObj 3] memory).




(** Three slice reducers: function 6 under ["a"] and under ["b"], which
    returns a new object at every call, and the identity under
    ["count"]. *)
Definition slices : list (string * value) :=
  [("a", VFun (FUser 6)); ("count", VFun (FUser 3)); ("b", VFun (FUser 6))].

(** [memory] after their combined reducer, with cache 0, has checked the
    state [{type: "+"}] (object 3), and that memory after the reducer under
    ["a"] has been called: it has made object 11. *)
Definition memory_checked : world :=
  Eval vm_compute in
    snd (warn_unexpected_state_shape INIT REPLACE false (apply 3) slices
           (Some 0) (VObj 3) (VObj 3) memory).

Definition memory_sliced : world :=
  Eval vm_compute in
    snd (apply 3 (VFun (FUser 6)) [VUndefined; VObj 3] memory_checked).

(** [memory] with two more objects: 11, [{1: f6}], and 12, which has object
    11 for prototype and the properties [b: f6] and [n: 1] of its own. *)
Definition memory_inherited : world :=
  Eval vm_compute in
    set_heap (heap memory ++
              [literal [("1", VFun (FUser 6))];
               Object (Some 11) [("b", Property (VFun (FUser 6)) true);
                                 ("n", Property (VNum 1) true)]])
      memory.

(** Another program, all of whose functions throw [null]. *)
Definition throwing_program (i : nat) (args : list value) : prog := Throw VNull.

End Examples.

(* ===================================================================== *)
(** * Properties of the JavaScript data *)
(* ===================================================================== *)

Module JSFacts.
Import JS.

Lemma hops_deterministic h l n t n' t' :
  hops h l n t → hops h l n' t' → n = n' ∧ t = t'.
Proof.
  intros H; revert n' t'.
  induction H as [l o Hl Hp|l o p n t Hl Hp _ IH]; intros n' t' H';
    inversion H' as [? ? Hl' Hp'|? ? ? ? ? Hl' Hp' Hh']; subst; simplify_eq; auto.
  destruct (IH _ _ Hh'); subst; auto.
Qed.

Lemma hops_allocated h l n t : hops h l n t → l < length h.
Proof. inversion 1; subst; eapply lookup_lt_Some; eauto. Qed.

Lemma proto_loop_hops h l n t budget :
  hops h l n t → n < budget → proto_loop budget h l = Some t.
Proof.
  intros H; revert budget.
  induction H as [l o Hl Hp|l o p n t Hl Hp _ IH]; intros [|budget] Hlt; try lia;
    simpl; unfold getPrototypeOf; rewrite Hl; simpl; rewrite Hp; auto.
  apply IH; lia.
Qed.

(** The objects on a terminating chain are pairwise distinct. *)
Lemma hops_path h l n t :
  hops h l n t →
  ∃ path : list nat, length path = S n ∧ NoDup path ∧
    ∀ x, x ∈ path → x < length h ∧ ∃ m, m ≤ n ∧ hops h x m t.
Proof.
  induction 1 as [l o Hl Hp|l o p n t Hl Hp Hh (path & Hlen & Hnd & Hall)].
  - exists [l]. split; [done|]. split; [apply NoDup_singleton|].
    intros x ->%list_elem_of_singleton. split; [by eapply lookup_lt_Some|].
    exists 0. split; [lia|]. by econstructor.
  - exists (l :: path). split; [simpl; lia|]. split.
    + constructor; [|done]. intros Hin.
      destruct (Hall _ Hin) as (_ & m & Hm & Hhm).
      assert (Hh' : hops h l (S n) t) by (by econstructor).
      destruct (hops_deterministic _ _ _ _ _ _ Hhm Hh'). lia.
    + intros x [->|Hin]%elem_of_cons.
      * split; [by eapply lookup_lt_Some|]. exists (S n). split; [lia|].
        by econstructor.
      * destruct (Hall _ Hin) as (? & m & ? & ?). split; [done|].
        exists m. split; [lia|done].
Qed.

Lemma hops_bound h l n t : hops h l n t → n < length h.
Proof.
  intros (path & Hlen & Hnd & Hall)%hops_path.
  assert (path ⊆+ seq 0 (length h)) as Hsub.
  { apply NoDup_submseteq; [done|]. intros x Hx. apply elem_of_seq.
    destruct (Hall _ Hx). lia. }
  apply submseteq_length in Hsub. rewrite length_seq in Hsub. lia.
Qed.

Lemma proto_loop_enough h l t :
  terminal h l t → proto_loop (S (length h)) h l = Some t.
Proof.
  intros [n H]. eapply proto_loop_hops; [done|].
  apply hops_bound in H. lia.
Qed.


Lemma terminal_deterministic h l t t' : terminal h l t → terminal h l t' → t = t'.
Proof. intros [n H] [n' H']. by destruct (hops_deterministic _ _ _ _ _ _ H H'). Qed.

Lemma terminal_root h l t : terminal h l t → getPrototypeOf h t = Some None.
Proof.
  intros [n H]. unfold getPrototypeOf.
  induction H as [l o Hl Hp|]; [by rewrite Hl; simpl; rewrite Hp|done].
Qed.

#[local] Instance is_object_dec v : Decision (∃ l, v = VObj l).
Proof.
  destruct v; try (right; intros [? ?]; discriminate). left; eauto.
Defined.

Lemma strict_eq_refl v : v ≠ VNaN → strict_eq v v = true.
Proof. destruct v; simpl; try done; intros _; by apply bool_decide_eq_true. Qed.

(** Claim C10.  On every heap whose prototype chains end, [isPlainObject] gives an
    answer, and the answer is [true] exactly for the objects whose immediate
    prototype is the terminal link of their prototype chain.  Hence it is
    [false] for [null], for every value that is not of object type, for an
    object whose prototype is [null] (the loop then stops on the object
    itself), and for an object whose prototype has a prototype of its own
    (arrays, class instances). *)
Theorem isPlainObject_spec (h : heap) (v : value) :
  (∀ l, v = VObj l → ∃ t, terminal h l t) →
  ∃ b, isPlainObject h v = Some b ∧
    (b = true ↔
       ∃ l t, v = VObj l ∧ terminal h l t ∧ getPrototypeOf h l = Some (Some t)) ∧
    (v = VNull → b = false) ∧
    (typeof v ≠ TObject → b = false) ∧
    (∀ l, v = VObj l → getPrototypeOf h l = Some None → b = false) ∧
    (∀ l p q, v = VObj l → getPrototypeOf h l = Some (Some p) →
       getPrototypeOf h p = Some (Some q) → b = false).
Proof.
  intros Hwf.
  destruct (decide (∃ l, v = VObj l)) as [[l ->]|Hno].
  2: { exists false. split; [by destruct v; try done; destruct Hno; eauto|].
       split; [split; [done|intros (l & ? & -> & _); destruct Hno; eauto]|].
       repeat split; try done; intros; subst; destruct Hno; eauto. }
  - destruct (Hwf l eq_refl) as [t Ht].
    assert (Hl : ∃ p, getPrototypeOf h l = Some p).
    { destruct Ht as [n Hn]. unfold getPrototypeOf.
      inversion Hn as [? o Ho|? o ? ? ? Ho]; subst; rewrite Ho; eauto. }
    destruct Hl as [p Hp].
    exists (bool_decide (p = Some t)). unfold isPlainObject.
    rewrite (proto_loop_enough _ _ _ Ht), Hp. cbn.
    split; [done|]. split; [|split; [done|split; [done|split]]].
    + rewrite bool_decide_eq_true. split.
      * intros ->. eauto 6.
      * intros (l' & t' & [= <-] & Ht' & Hp'). rewrite Hp in Hp'.
        injection Hp' as ->. f_equal. by eapply terminal_deterministic.
    + intros l' [= <-] Hp'. rewrite Hp in Hp'. injection Hp' as ->.
      by apply bool_decide_eq_false.
    + intros l' p' q [= <-] Hp' Hq. rewrite Hp in Hp'. injection Hp' as ->.
      apply bool_decide_eq_false. intros [= ->].
      apply terminal_root in Ht. rewrite Ht in Hq. done.
Qed.

(** ** The answer depends on the prototype links only *)

Lemma loop_hops budget h l t :
  proto_loop budget h l = Some t → ∃ n, hops h l n t.
Proof.
  revert l. induction budget as [|budget IH]; intros l; [done|]. simpl.
  unfold getPrototypeOf. destruct (h !! l) as [o|] eqn:Hl; [|done]. simpl.
  destruct (proto o) as [p|] eqn:Hp.
  - intros [n Hn]%IH. exists (S n). by econstructor.
  - intros [= <-]. exists 0. by econstructor.
Qed.

Lemma hops_links h h' l n t :
  (∀ l o, h !! l = Some o → ∃ o', h' !! l = Some o' ∧ proto o' = proto o) →
  hops h l n t → hops h' l n t.
Proof.
  intros Hlinks. induction 1 as [l o Hl Hp|l o p n t Hl Hp _ IH];
    destruct (Hlinks _ _ Hl) as (o' & Hl' & Hp'); rewrite Hp in Hp';
    by econstructor.
Qed.

(** The test reads the prototype links of the chain of [obj], and nothing
    else: it gives the same answer in every heap that has the objects of
    [h] with the same prototypes, whatever their properties have become
    and whatever has been allocated since. *)
Theorem isPlainObject_links h h' obj b :
  (∀ l o, h !! l = Some o → ∃ o', h' !! l = Some o' ∧ proto o' = proto o) →
  isPlainObject h obj = Some b → isPlainObject h' obj = Some b.
Proof.
  intros Hlinks. unfold isPlainObject.
  destruct (negb _ || _); [done|]. destruct obj as [| | | | | |l| |]; try done.
  destruct (proto_loop _ h l) as [t|] eqn:Hloop; [|done].
  apply loop_hops in Hloop as [n Hn].
  rewrite (proto_loop_enough h' l t) by (exists n; by eapply hops_links).
  unfold getPrototypeOf. destruct (h !! l) as [o|] eqn:Hl; [|done].
  destruct (Hlinks _ _ Hl) as (o' & -> & Hp).
  cbn [fmap option_fmap option_map]. by rewrite Hp.
Qed.

End JSFacts.

(* ===================================================================== *)
(** * Properties of the library *)
(* ===================================================================== *)

Module ReduxFacts.
Import JS Redux JSFacts.

Section Program.

Context (INIT REPLACE : string) (PROBE_UNKNOWN_ACTION : nat → string)
  (OBSERVABLE : option string) (production : bool)
  (code : nat → list value → prog).

#[local] Abbreviation apply :=
  (Redux.apply INIT REPLACE PROBE_UNKNOWN_ACTION OBSERVABLE production code).

(** ** The listener lists a dispatch may be iterating *)

(** Every store's pending list is allocated, and no two stores share one. *)
Definition wf (w : world) : Prop :=
  ∀ s st, stores w !! s = Some st →
    nextListeners st < length (arrays w) ∧
    ∀ s' st', stores w !! s' = Some st' →
      nextListeners st' = nextListeners st → s' = s.

(** An array is frozen when it is not the private pending list of a store:
    no store holds it as [nextListeners] without also holding it as
    [currentListeners].  The array a dispatch iterates is frozen from the
    moment the dispatch adopts it. *)
Definition frozen (w : world) (r : nat) : Prop :=
  r < length (arrays w) ∧
  ∀ s st, stores w !! s = Some st →
    nextListeners st = r → currentListeners st = Some r.

(** From [w] to [w']: stores are not lost, and every frozen array is still
    frozen and holds the same listeners. *)
Definition keeps (w w' : world) : Prop :=
  length (stores w) ≤ length (stores w') ∧
  ∀ r, frozen w r → frozen w' r ∧ arrays w' !! r = arrays w !! r.

Definition safe {A} (m : M A) : Prop :=
  ∀ w r w', wf w → m w = (r, w') → wf w' ∧ keeps w w'.

(** What the loop of [dispatch] amounts to on a list of listeners that is
    fixed beforehand: call each one in order, with no arguments. *)
Fixpoint call_each (call : value → list value → M value) (ls : list value) : M unit :=
  match ls with
  | [] => mret tt
  | l :: ls' => call l [];; call_each call ls'
  end.

(** The memory when [dispatch] has set [isDispatching], when the reducer has
    thrown and the flag is cleared, and when the reducer has returned [next]:
    the state is replaced, the flag cleared and the pending list adopted. *)
Definition begin_dispatch (s : nat) (w : world) : world :=
  set_stores (alter (set_isDispatching true) s (stores w)) w.

Definition abort_dispatch (s : nat) (w : world) : world :=
  set_stores (alter (set_isDispatching false) s (stores w)) w.

Definition commit_dispatch (s : nat) (next : value) (w : world) : world :=
  set_stores
    (alter (λ st, StoreVars (currentReducer st) next (Some (nextListeners st))
                    (nextListeners st) false (store st)) s (stores w)) w.

(** The expression [enhancer(createStore)(reducer, preloadedState)]. *)
Definition enhance (enhancer reducer preloadedState : value) : prog :=
  Call enhancer [VFun FCreateStore]
    (λ enhanced, Call enhanced [reducer; preloadedState] Ret Throw) Throw.

(** The expressions [f(g(h(x)))] and [dispatch(actionCreator(...args))]. *)
Definition call3 (f g h x : value) : prog :=
  Call h [x] (λ a, Call g [a] (λ b, Call f [b] Ret Throw) Throw) Throw.

Definition call_dispatch (dispatch actionCreator : value) (args : list value) : prog :=
  Call actionCreator args (λ action, Call dispatch [action] Ret Throw) Throw.

(** [triple P m Q]: from a well-formed memory where [P] holds, [m] keeps the
    frozen arrays and, when it returns, establishes [Q]. *)
Definition triple {A} (P : world → Prop) (m : M A) (Q : A → world → Prop) : Prop :=
  ∀ w r w', wf w → P w → m w = (r, w') →
    (wf w' ∧ keeps w w') ∧ ∀ a, r = Normal a → Q a w'.

(** The pending list of store [s] is its own: it is not the current list. *)
Definition private (s : nat) (w : world) : Prop :=
  ∃ st, stores w !! s = Some st ∧ currentListeners st ≠ Some (nextListeners st).

(** [refines m1 m2]: whenever [m1] gives a result, [m2] gives the same. *)
Definition refines {A} (m1 m2 : M A) : Prop :=
  ∀ w r w', m1 w = (r, w') → r ≠ Diverged → m2 w = (r, w').

(** [m] does not throw [e]. *)
Definition never_throws {A} (e : value) (m : M A) : Prop :=
  ∀ w r w', m w = (r, w') → r ≠ Thrown e.

(** The call [f(...args)], respectively the program [p], started in [w]
    ends with [r] in [w']. *)
Definition evaluates (f : value) (args : list value) (w : world)
    (r : outcome value) (w' : world) : Prop :=
  ∃ budget, apply budget f args w = (r, w') ∧ r ≠ Diverged.

Definition runs (p : prog) (w : world) (r : outcome value) (w' : world) : Prop :=
  ∃ budget, run (apply budget) p w = (r, w') ∧ r ≠ Diverged.

(** [reachable w w']: some sequence of calls, of any functions with any
    arguments, leads from [w] to [w'].  This covers whatever the listeners
    of a dispatch in progress do, nested dispatches included. *)
Inductive reachable : world → world → Prop :=
| reachable_refl w : reachable w w
| reachable_call w w1 w2 budget f args r :
    reachable w w1 → apply budget f args w1 = (r, w2) → reachable w w2.


(** The two probes of [assertReducerShape] on one slice reducer. *)
Definition init_probe (call : value → list value → M value) (reducer : value)
  : M value :=
  a ← alloc_object (literal [("type", VStr INIT)]);
  call reducer [VUndefined; VObj a].

Definition random_probe (call : value → list value → M value) (reducer : value)
  : M value :=
  t ← probe PROBE_UNKNOWN_ACTION;
  a ← alloc_object (literal [("type", VStr t)]);
  call reducer [VUndefined; VObj a].

(** [shape_violation call reducers ks w e w']: probing the reducers under
    the keys [ks] in turn, from memory [w], the first one that fails to
    return a defined value returns [undefined], on the INIT probe or on the
    random one; [e] is the error made for it and [w'] the memory then. *)
Inductive shape_violation (call : value → list value → M value)
    (reducers : list (string * value))
  : list string → world → lib_error → world → Prop :=
| violation_init key ks w w' :
    init_probe call (assoc_get key reducers) w = (Normal VUndefined, w') →
    shape_violation call reducers (key :: ks) w (ErrSliceInitUndefined key) w'
| violation_probe key ks w v w1 w' :
    init_probe call (assoc_get key reducers) w = (Normal v, w1) →
    v ≠ VUndefined →
    random_probe call (assoc_get key reducers) w1 = (Normal VUndefined, w') →
    shape_violation call reducers (key :: ks) w (ErrSliceProbeUndefined key) w'
| violation_later key ks w v w1 v' w2 e w' :
    init_probe call (assoc_get key reducers) w = (Normal v, w1) →
    v ≠ VUndefined →
    random_probe call (assoc_get key reducers) w1 = (Normal v', w2) →
    v' ≠ VUndefined →
    shape_violation call reducers ks w2 e w' →
    shape_violation call reducers (key :: ks) w e w'.

(** [slice_calls call reducers state action ks w ios w']: from memory [w],
    the reducers under the keys [ks] are called in turn on the slice
    [state[key]] and [action]; each returns a defined value; [ios] lists
    the slices given and the values returned. *)
Inductive slice_calls (call : value → list value → M value)
    (reducers : list (string * value)) (state action : value)
  : list string → world → list (value * value) → world → Prop :=
| slice_calls_nil w : slice_calls call reducers state action [] w [] w
| slice_calls_cons key ks w previous next w1 ios w' :
    get (heap w) state key = Some previous →
    call (assoc_get key reducers) [previous; action] w = (Normal next, w1) →
    next ≠ VUndefined →
    slice_calls call reducers state action ks w1 ios w' →
    slice_calls call reducers state action (key :: ks) w ((previous, next) :: ios) w'.

(** A sequence of assignments [o[k1] = v1; ...; o[kn] = vn] to the own
    properties [o]. *)
Definition put_all (o kvs : list (string * value)) : list (string * value) :=
  foldl (λ o kv, assoc_put kv.1 kv.2 o) o kvs.

(** The functions [bindActionCreators] makes for the creators under the
    keys [ks]. *)
Definition bound_creators (actionCreators dispatch : value) (w : world)
    (ks : list string) : list (string * value) :=
  imap (λ i k,
          (k, VFun (FBound (next_id w + i)
                      (default VUndefined (get (heap w) actionCreators k))
                      dispatch))) ks.

(** The keys, among [ks], under which [v] holds a function. *)
Definition function_keys (h : JS.heap) (v : value) (ks : list string) : list string :=
  filter (λ k, typeof (default VUndefined (get h v k)) = TFunction) ks.


(** The parameter default [state = {}] of the combined reducer: the state
    it works on, and the memory then. *)
Definition default_state (s : value) (w : world) : value * world :=
  if strict_eq s VUndefined
  then (VObj (length (heap w)), set_heap (heap w ++ [literal []]) w)
  else (s, w).

(** [pipe [g1; ...; gk] v] is the expression [gk(...g1(v))]: the functions
    are called from the first to the last, each on the result of the one
    before. *)
Fixpoint pipe (gs : list value) (v : value) : prog :=
  match gs with
  | [] => Ret v
  | g :: gs' => Call g [v] (pipe gs') Throw
  end.

(** The expression [f1(f2(...fn(...args)))] for [funcs = [f1; ...; fn]]:
    the last function receives all the arguments, and every other one the
    result of the function to its right.  With no function at all it is
    the first argument. *)
Definition nested_call (funcs : list value) (args : list value) : prog :=
  match rev funcs with
  | [] => Ret (arg args 0)
  | fn :: outer => Call fn args (pipe outer) Throw
  end.

(** ** What a call leaves of the stores *)

(** Store [s] is undisturbed from [w] to [w']: its [isDispatching] flag and
    the store object it is bound to are the same, and if it was running its
    reducer in [w], so are its state and its two listener lists, the pending
    one holding the same listeners. *)
Definition undisturbed (w w' : world) (s : nat) : Prop :=
  ∀ st, stores w !! s = Some st →
    ∃ st', stores w' !! s = Some st' ∧
      isDispatching st' = isDispatching st ∧ store st' = store st ∧
      (isDispatching st = true →
         currentState st' = currentState st ∧
         currentListeners st' = currentListeners st ∧
         nextListeners st' = nextListeners st ∧
         arrays w' !! nextListeners st = arrays w !! nextListeners st).

(** Every store of [w] is undisturbed, and the stores made since are not
    dispatching. *)
Definition settled (w w' : world) : Prop :=
  (∀ s, undisturbed w w' s) ∧
  ∀ s st', stores w' !! s = Some st' → length (stores w) ≤ s →
    isDispatching st' = false.

(** [m], when it ends, leaves a well-formed memory and the stores settled. *)
Definition steady {A} (m : M A) : Prop :=
  ∀ w r w', wf w → m w = (r, w') → r ≠ Diverged → wf w' ∧ settled w w'.

Definition unlocked (s : nat) (w : world) : Prop :=
  ∃ st, stores w !! s = Some st ∧ isDispatching st = false.

(** The same for a computation that runs while store [s] is not
    dispatching. *)
Definition quiet (s : nat) {A} (m : M A) : Prop :=
  ∀ w r w', wf w → unlocked s w → m w = (r, w') → r ≠ Diverged →
    wf w' ∧ settled w w'.

(** [m] touches neither the store variables nor the listener arrays. *)
Definition inert {A} (m : M A) : Prop :=
  ∀ w r w', m w = (r, w') → stores w' = stores w ∧ arrays w' = arrays w.

(** [ended w w']: a sequence of calls, each of which has ended (returned or
    thrown) before the next is made, leads from [w] to [w']. *)
Inductive ended : world → world → Prop :=
| ended_refl w : ended w w
| ended_call w w1 w2 budget f args r :
    ended w w1 → apply budget f args w1 = (r, w2) → r ≠ Diverged → ended w w2.

Lemma keeps_refl w : keeps w w.
Proof. split; [done|]. intros r Hr. done. Qed.

Lemma keeps_trans w1 w2 w3 : keeps w1 w2 → keeps w2 w3 → keeps w1 w3.
Proof.
  intros [Hl1 H1] [Hl2 H2]. split; [lia|]. intros r Hr.
  destruct (H1 r Hr) as [Hf1 He1]. destruct (H2 r Hf1) as [Hf2 He2].
  split; [done|congruence].
Qed.

Lemma same_lists w w' :
  arrays w' = arrays w → stores w' = stores w → wf w → wf w' ∧ keeps w w'.
Proof.
  intros Ha Hs Hw. split.
  - unfold wf. rewrite Ha, Hs. done.
  - split; [by rewrite Hs|]. unfold frozen. rewrite Ha, Hs. done.
Qed.

Lemma lookup_alter_Some {A} (f : A → A) (l : list A) i j y :
  alter f i l !! j = Some y →
  ∃ x, l !! j = Some x ∧ ((j = i ∧ y = f x) ∨ (j ≠ i ∧ y = x)).
Proof.
  destruct (decide (i = j)) as [->|Hne].
  - rewrite list_lookup_alter_eq. destruct (l !! j) as [x|]; [|done].
    intros [= <-]. eauto.
  - rewrite list_lookup_alter_ne by done. intros ->. eauto.
Qed.

(** One store [s] changes its variables, arrays are added or private ones
    are written: the pending list stays and the current one is kept, adopts
    the pending one, or was not the pending one; or the pending list is a
    new array. *)
Lemma one_store_step w w' s f :
  wf w →
  stores w' = alter f s (stores w) →
  length (arrays w) ≤ length (arrays w') →
  (∀ r, frozen w r → arrays w' !! r = arrays w !! r) →
  (∀ st, stores w !! s = Some st →
     (nextListeners (f st) = nextListeners st ∧
      (currentListeners (f st) = currentListeners st ∨
       currentListeners (f st) = Some (nextListeners st) ∨
       currentListeners st ≠ Some (nextListeners st)))
     ∨ (length (arrays w) ≤ nextListeners (f st) < length (arrays w'))) →
  wf w' ∧ keeps w w'.
Proof.
  intros Hwf Hs Hlen Harr Hst. split; [|split].
  - intros s1 st1 H1. rewrite Hs in H1.
    apply lookup_alter_Some in H1 as (x1 & Hx1 & Hc1).
    destruct (Hwf _ _ Hx1) as [Hlt1 Huniq1]. split.
    + destruct Hc1 as [[-> ->]|[_ ->]]; [|lia].
      destruct (Hst _ Hx1) as [[-> _]|?]; lia.
    + intros s2 st2 H2 Heq. rewrite Hs in H2.
      apply lookup_alter_Some in H2 as (x2 & Hx2 & Hc2).
      destruct (Hwf _ _ Hx2) as [Hlt2 _].
      destruct Hc1 as [[-> ->]|[Hn1 ->]], Hc2 as [[-> ->]|[Hn2 ->]]; try done.
      * destruct (Hst _ Hx1) as [[Hn _]|?]; [|lia].
        rewrite Hn in Heq. eauto.
      * destruct (Hst _ Hx2) as [[Hn _]|?]; [|lia].
        rewrite Hn in Heq. eauto.
      * eauto.
  - rewrite Hs, length_alter. done.
  - intros r [Hr Hfr]. split; [split; [lia|]|by apply Harr].
    intros s1 st1 H1 Heq. rewrite Hs in H1.
    apply lookup_alter_Some in H1 as (x1 & Hx1 & Hc1).
    destruct Hc1 as [[-> ->]|[_ ->]]; [|eauto].
    destruct (Hst _ Hx1) as [[Hn Hc]|?]; [|lia].
    rewrite Hn in Heq. specialize (Hfr _ _ Hx1 Heq).
    destruct Hc as [->|[->|Hc]]; congruence.
Qed.

(** ** Computations that keep the frozen arrays *)

Lemma bind_unfold {A B} (m : M A) (k : A → M B) w :
  (m ≫= k) w =
  match m w with
  | (Normal a, w') => k a w'
  | (Thrown e, w') => (Thrown e, w')
  | (Diverged, w') => (Diverged, w')
  end.
Proof. done. Qed.

Lemma safe_ret {A} (a : A) : safe (mret a).
Proof. intros w r w' Hw [= <- <-]. auto using keeps_refl. Qed.

Lemma safe_throw {A} e : safe (throw (A:=A) e).
Proof. intros w r w' Hw [= <- <-]. auto using keeps_refl. Qed.

Lemma safe_throw_error {A} e : safe (throw_error (A:=A) e).
Proof. apply safe_throw. Qed.

Lemma safe_diverge {A} : safe (diverge (A:=A)).
Proof. intros w r w' Hw [= <- <-]. auto using keeps_refl. Qed.

Lemma safe_bind {A B} (m : M A) (k : A → M B) :
  safe m → (∀ a, safe (k a)) → safe (m ≫= k).
Proof.
  intros Hm Hk w r w' Hw. rewrite bind_unfold.
  destruct (m w) as [[a|e|] w1] eqn:E; destruct (Hm _ _ _ Hw E) as [Hw1 Hk1].
  - intros H. destruct (Hk _ _ _ _ Hw1 H). eauto using keeps_trans.
  - intros [= <- <-]. done.
  - intros [= <- <-]. done.
Qed.

Lemma safe_try_catch {A} (m : M A) handler :
  safe m → (∀ e, safe (handler e)) → safe (try_catch m handler).
Proof.
  intros Hm Hh w r w' Hw. unfold try_catch.
  destruct (m w) as [[a|e|] w1] eqn:E; destruct (Hm _ _ _ Hw E) as [Hw1 Hk1].
  - intros [= <- <-]. done.
  - intros H. destruct (Hh _ _ _ _ Hw1 H). eauto using keeps_trans.
  - intros [= <- <-]. done.
Qed.

Lemma safe_try_finally {A} (m : M A) cleanup :
  safe m → safe cleanup → safe (try_finally m cleanup).
Proof.
  intros Hm Hc w r w' Hw. unfold try_finally.
  destruct (m w) as [[a|e|] w1] eqn:E; destruct (Hm _ _ _ Hw E) as [Hw1 Hk1];
    [| |by intros [= <- <-]];
    destruct (cleanup w1) as [[[]|e'|] w2] eqn:E';
    destruct (Hc _ _ _ Hw1 E'); intros [= <- <-]; eauto using keeps_trans.
Qed.

Lemma safe_read {A} (f : world → A) : safe (read f).
Proof. intros w r w' Hw [= <- <-]. auto using keeps_refl. Qed.

Lemma safe_defined {A} (o : option A) : safe (defined o).
Proof. destruct o; [apply safe_ret|apply safe_diverge]. Qed.

Lemma safe_modify f :
  (∀ w, arrays (f w) = arrays w ∧ stores (f w) = stores w) → safe (modify f).
Proof. intros H w r w' Hw [= <- <-]. destruct (H w). by apply same_lists. Qed.

Lemma safe_alloc (A : Type) (m : M A) :
  (∀ w, ∃ a w', m w = (Normal a, w') ∧ arrays w' = arrays w ∧ stores w' = stores w) →
  safe m.
Proof.
  intros H w r w' Hw E. destruct (H w) as (a & w1 & E1 & ? & ?).
  rewrite E1 in E. injection E as <- <-. by apply same_lists.
Qed.

Create HintDb safe discriminated.

#[local] Hint Resolve safe_ret safe_throw safe_throw_error safe_diverge
  safe_read safe_defined : safe.

Lemma safe_get_store s : safe (get_store s).
Proof. unfold get_store. apply safe_bind; auto with safe. Qed.

Lemma safe_read_array r : safe (read_array r).
Proof. unfold read_array. apply safe_bind; auto with safe. Qed.

Lemma safe_read_cell c : safe (read_cell c).
Proof. unfold read_cell. apply safe_bind; auto with safe. Qed.

Lemma safe_read_cache c : safe (read_cache c).
Proof. unfold read_cache. apply safe_bind; auto with safe. Qed.

Lemma safe_write_cell c b : safe (write_cell c b).
Proof. by apply safe_modify. Qed.

Lemma safe_write_cache c ks : safe (write_cache c ks).
Proof. by apply safe_modify. Qed.

Lemma safe_warn msg : safe (warn msg).
Proof. by apply safe_modify. Qed.

Lemma safe_alloc_object o : safe (alloc_object o).
Proof. apply safe_alloc. intros w. eauto. Qed.

Lemma safe_alloc_cell b : safe (alloc_cell b).
Proof. apply safe_alloc. intros w. eauto. Qed.

Lemma safe_alloc_cache : safe alloc_cache.
Proof. apply safe_alloc. intros w. eauto. Qed.

Lemma safe_fresh_id : safe fresh_id.
Proof. apply safe_alloc. intros w. eauto. Qed.

Lemma safe_probe PROBE : safe (probe PROBE).
Proof. apply safe_alloc. intros w. eauto. Qed.

Lemma safe_isPlainObjectM v : safe (isPlainObjectM v).
Proof. unfold isPlainObjectM. apply safe_bind; auto with safe. Qed.

Lemma safe_getM v key : safe (getM v key).
Proof. unfold getM. destruct v; auto with safe; apply safe_bind; auto with safe. Qed.

Lemma safe_keysM v : safe (keysM v).
Proof. unfold keysM. destruct v; auto with safe; apply safe_bind; auto with safe. Qed.

#[local] Hint Resolve safe_get_store safe_read_array safe_read_cell
  safe_read_cache safe_write_cell safe_write_cache safe_warn safe_alloc_object
  safe_alloc_cell safe_alloc_cache safe_fresh_id safe_probe safe_isPlainObjectM
  safe_getM safe_keysM : safe.

(** Assignments to the store variables that are not listener lists. *)
Lemma safe_update_store s f :
  (∀ st, nextListeners (f st) = nextListeners st ∧
         currentListeners (f st) = currentListeners st) →
  safe (update_store s f).
Proof.
  intros Hf w r w' Hw [= <- <-].
  eapply (one_store_step _ _ s f); try done.
  intros st _. left. destruct (Hf st) as [-> ->]. auto.
Qed.

(** [currentListeners = nextListeners], as [dispatch] does. *)
Lemma safe_adopt {A} s (k : store_vars → M A) :
  (∀ st, safe (k st)) →
  safe (st ← get_store s;
        update_store s (set_currentListeners (Some (nextListeners st)));; k st).
Proof.
  intros Hk w r w' Hw. unfold get_store, read, defined.
  rewrite !bind_unfold. simpl.
  destruct (stores w !! s) as [st|] eqn:Hs; simpl; [|by intros [= <- <-]; auto using keeps_refl].
  rewrite bind_unfold. unfold update_store, modify. intros H.
  match type of H with k _ ?w1 = _ => assert (wf w1 ∧ keeps w w1) as [Hw1 Hk1] end.
  { eapply (one_store_step _ _ s); try done.
    intros st' Hst'. left. simpl. split; [done|]. right; left.
    congruence. }
  destruct (Hk _ _ _ _ Hw1 H). eauto using keeps_trans.
Qed.

(** ** Mutations of the listener lists *)

Lemma triple_safe {A} (m : M A) Q : triple (λ _, True) m Q → safe m.
Proof. intros H w r w' Hw E. by destruct (H w r w' Hw I E). Qed.

Lemma safe_triple {A} (m : M A) : safe m → triple (λ _, True) m (λ _ _, True).
Proof. intros H w r w' Hw _ E. split; [eauto|done]. Qed.

Lemma triple_bind {A B} P Q R (m : M A) (k : A → M B) :
  triple P m Q → (∀ a, triple (Q a) (k a) R) → triple P (m ≫= k) R.
Proof.
  intros Hm Hk w r w' Hw HP. rewrite bind_unfold.
  destruct (m w) as [[a|e|] w1] eqn:E;
    destruct (Hm _ _ _ Hw HP E) as [[Hw1 Hk1] HQ].
  - intros H. destruct (Hk a _ _ _ Hw1 (HQ _ eq_refl) H) as [[??] ?].
    eauto using keeps_trans.
  - intros [= <- <-]. done.
  - intros [= <- <-]. done.
Qed.

Lemma triple_weaken {A} (P P' : world → Prop) (m : M A) Q :
  (∀ w, P' w → P w) → triple P m Q → triple P' m Q.
Proof. intros HP H w r w' Hw HP' E. eauto. Qed.

Lemma triple_ensureCanMutateNextListeners s :
  triple (λ _, True) (ensureCanMutateNextListeners s) (λ _ w, private s w).
Proof.
  intros w r w' Hw _. unfold ensureCanMutateNextListeners, get_store, read, defined.
  rewrite !bind_unfold. simpl.
  destruct (stores w !! s) as [st|] eqn:Hs; simpl;
    [|intros [= <- <-]; split; [auto using keeps_refl|done]].
  case_bool_decide as Hc.
  - unfold read_array, read, defined. rewrite !bind_unfold. simpl.
    destruct (Hw _ _ Hs) as [Hlt _].
    destruct (lookup_lt_is_Some_2 _ _ Hlt) as [xs Hxs]. rewrite Hxs. simpl.
    rewrite bind_unfold. simpl. intros [= <- <-]. split.
    + eapply (one_store_step _ _ s); simpl; try done.
      * rewrite length_app. lia.
      * intros r' [Hr' _]. by apply lookup_app_l.
      * intros st' _. right. simpl. rewrite length_app. simpl. lia.
    + intros _ _. exists (set_nextListeners (length (arrays w)) st). simpl.
      rewrite list_lookup_alter_eq, Hs. split; [done|].
      rewrite <- Hc. intros [= ?]. lia.
  - intros [= <- <-]. split; [auto using keeps_refl|].
    intros _ _. exists st. auto.
Qed.

(** A write to the pending list of a store that owns it. *)
Lemma triple_write_pending s (g : list value → list value) :
  triple (private s)
    (st ← get_store s;
     xs ← read_array (nextListeners st);
     write_array (nextListeners st) (g xs))
    (λ _ w, private s w).
Proof.
  intros w r w' Hw (st & Hs & Hp). unfold get_store, read_array, read, defined.
  rewrite !bind_unfold. simpl. rewrite Hs. simpl.
  rewrite !bind_unfold. simpl.
  destruct (arrays w !! nextListeners st) as [xs|]; simpl;
    [|intros [= <- <-]; split; [auto using keeps_refl|done]].
  intros [= <- <-]. split.
  - eapply (one_store_step _ _ s id); simpl; try done.
    + symmetry. by apply list_alter_id.
    + by rewrite length_insert.
    + intros r' [_ Hfr]. apply list_lookup_insert_ne. intros <-.
      by specialize (Hfr _ _ Hs eq_refl).
    + auto.
  - intros _ _. exists st. auto.
Qed.

Lemma bind_assoc {A B C} (m : M A) (k : A → M B) (k' : B → M C) w :
  (m ≫= (λ a, k a ≫= k')) w = ((m ≫= k) ≫= k') w.
Proof. rewrite !bind_unfold. by destruct (m w) as [[a|e|] w1]. Qed.

Lemma triple_ext {A} P (m m' : M A) Q :
  (∀ w, m w = m' w) → triple P m' Q → triple P m Q.
Proof. intros E H w r w' Hw HP. rewrite E. eauto. Qed.

Lemma triple_write_pending_then {A} s (g : list value → list value) (k : M A) Q :
  triple (private s) k Q →
  triple (private s)
    (st ← get_store s;
     xs ← read_array (nextListeners st);
     write_array (nextListeners st) (g xs);; k) Q.
Proof.
  intros Hk.
  eapply (triple_ext _ _
    ((st ← get_store s;
      xs ← read_array (nextListeners st);
      write_array (nextListeners st) (g xs));; k)).
  - intros w. rewrite <- bind_assoc. rewrite !(bind_unfold (get_store s)).
    destruct (get_store s w) as [[st|e|] w1]; [|done..].
    by rewrite <- bind_assoc.
  - eapply triple_bind; [apply triple_write_pending|]. by intros [].
Qed.

(** An assignment to [currentListeners] while the pending list is private. *)
Lemma triple_set_currentListeners s c :
  triple (private s) (update_store s (set_currentListeners c)) (λ _ _, True).
Proof.
  intros w r w' Hw (st & Hs & Hp) [= <- <-]. split; [|done].
  eapply (one_store_step _ _ s); simpl; try done.
  intros st' Hs'. left. simpl. split; [done|]. right; right. congruence.
Qed.

Lemma safe_subscribe s listener : safe (subscribe s listener).
Proof.
  unfold subscribe. case_match; [auto with safe|].
  apply safe_bind; [auto with safe|]. intros st.
  case_match; [auto with safe|].
  apply safe_bind; [auto with safe|]. intros c.
  eapply triple_safe, triple_bind; [apply triple_ensureCanMutateNextListeners|].
  intros []. apply (triple_write_pending_then s (λ xs, xs ++ [listener])).
  apply (triple_weaken (λ _, True)); [done|]. apply safe_triple, safe_ret.
Qed.

Lemma safe_unsubscribe s listener c : safe (unsubscribe s listener c).
Proof.
  unfold unsubscribe.
  apply safe_bind; [auto with safe|]. intros b.
  case_match; [auto with safe|].
  apply safe_bind; [auto with safe|]. intros st.
  case_match; [auto with safe|].
  apply safe_bind; [auto with safe|]. intros [].
  eapply triple_safe, triple_bind; [apply triple_ensureCanMutateNextListeners|].
  intros [].
  apply (triple_write_pending_then s (λ xs, splice1 xs (indexOf xs listener))).
  eapply triple_bind; [apply triple_set_currentListeners|].
  intros []. apply safe_triple, safe_ret.
Qed.

Lemma safe_getState s : safe (getState s).
Proof.
  unfold getState. apply safe_bind; [auto with safe|]. intros st.
  case_match; auto with safe.
Qed.

(** ** Every call keeps the frozen arrays *)

Lemma safe_new_store {A} reducer preloadedState (k : nat → M A) :
  (∀ s, safe (k s)) →
  safe (listeners ← alloc_array [];
        s ← alloc_store
              (StoreVars reducer preloadedState (Some listeners) listeners false None);
        k s).
Proof.
  intros Hk w r w' Hw. rewrite !bind_unfold. simpl. rewrite bind_unfold. simpl.
  intros H.
  match type of H with k _ ?w1 = _ => assert (wf w1 ∧ keeps w w1) as [Hw1 Hk1] end.
  { split; [|split].
    - intros s1 st1. simpl. intros H1.
      apply lookup_app_Some in H1 as [H1|[Hlen H1]].
      + destruct (Hw _ _ H1) as [Hlt Huniq]. rewrite length_app. simpl.
        split; [lia|]. intros s2 st2 H2 Heq.
        apply lookup_app_Some in H2 as [H2|[Hlen2 H2]]; [eauto|].
        apply list_lookup_singleton_Some in H2 as [_ <-]. simpl in Heq. lia.
      + apply list_lookup_singleton_Some in H1 as [Hs1 <-]. simpl.
        rewrite length_app. simpl. split; [lia|]. intros s2 st2 H2 Heq.
        apply lookup_app_Some in H2 as [H2|[Hlen2 H2]].
        * destruct (Hw _ _ H2). lia.
        * apply list_lookup_singleton_Some in H2 as [? _]. lia.
    - simpl. rewrite length_app. lia.
    - intros r' [Hr' Hfr]. split; [split|]; simpl.
      + rewrite length_app. lia.
      + intros s1 st1 H1 Heq.
        apply lookup_app_Some in H1 as [H1|[Hlen H1]]; [eauto|].
        apply list_lookup_singleton_Some in H1 as [_ <-]. simpl in Heq. lia.
      + by apply lookup_app_l. }
  destruct (Hk _ _ _ _ Hw1 H). eauto using keeps_trans.
Qed.

Ltac safe_step :=
  first
    [ simple apply safe_adopt; intros ?
    | simple apply safe_new_store; intros ?
    | match goal with
      | |- safe (mbind _ _) => apply safe_bind; [|intros ?]
      | |- safe (try_catch _ _) => apply safe_try_catch; [|intros ?]
      | |- safe (try_finally _ _) => apply safe_try_finally
      | |- safe (update_store _ _) => apply safe_update_store; by intros []
      | |- safe (if ?b then _ else _) => destruct b
      | |- safe (match ?x with _ => _ end) => destruct x
      | |- safe _ => solve [auto with safe]
      end ].

Ltac solve_safe := repeat safe_step.

Lemma safe_rec_set key v o : safe (rec_set key v o).
Proof. unfold rec_set. solve_safe. Qed.

Lemma safe_alloc_record o : safe (alloc_record o).
Proof. unfold alloc_record. solve_safe. Qed.

Lemma safe_to_String v : safe (to_String v).
Proof. unfold to_String. solve_safe. Qed.

Lemma safe_cached c key : safe (cached c key).
Proof. unfold cached. solve_safe. Qed.

#[local] Hint Resolve safe_rec_set safe_alloc_record safe_to_String safe_cached
  : safe.

Section Calls.

Variable call : value → list value → M value.
Hypothesis call_safe : ∀ f args, safe (call f args).

#[local] Hint Resolve call_safe : safe.

Lemma safe_run p : safe (run call p).
Proof.
  induction p as [v|v|f args k IHk handler IHh|k IH|h k IH]; intros w r w' Hw; simpl.
  - intros [= <- <-]. auto using keeps_refl.
  - intros [= <- <-]. auto using keeps_refl.
  - destruct (call f args w) as [[v|e|] w1] eqn:E;
      destruct (call_safe _ _ _ _ _ Hw E) as [Hw1 Hk1].
    + intros H. destruct (IHk _ _ _ _ Hw1 H). eauto using keeps_trans.
    + intros H. destruct (IHh _ _ _ _ Hw1 H). eauto using keeps_trans.
    + intros [= <- <-]. done.
  - apply IH. done.
  - intros H. assert (wf (set_heap h w) ∧ keeps w (set_heap h w)) as [Hw1 Hk1]
      by (by apply same_lists).
    destruct (IH _ _ _ Hw1 H). eauto using keeps_trans.
Qed.

Lemma safe_notify budget listeners i : safe (notify call budget listeners i).
Proof.
  revert i. induction budget as [|budget IH]; intros i; simpl; solve_safe.
Qed.

Lemma safe_dispatch budget s action : safe (dispatch call budget s action).
Proof. unfold dispatch. pose proof safe_notify. solve_safe. Qed.

Lemma safe_replaceReducer budget s nextReducer :
  safe (replaceReducer REPLACE call budget s nextReducer).
Proof. unfold replaceReducer. pose proof safe_dispatch. solve_safe. Qed.

Lemma safe_createStore budget args : safe (createStore INIT OBSERVABLE call budget args).
Proof. unfold createStore. pose proof safe_dispatch. solve_safe. Qed.

Lemma safe_compose_reduce a funcs : safe (compose_reduce a funcs).
Proof. revert a. induction funcs; intros a'; simpl; solve_safe. Qed.

Lemma safe_compose funcs : safe (compose funcs).
Proof.
  unfold compose. pose proof safe_compose_reduce.
  destruct funcs as [|f [|g funcs]]; solve_safe.
Qed.

Lemma safe_composed a b args : safe (composed call a b args).
Proof. unfold composed. solve_safe. Qed.

Lemma safe_bound actionCreator dispatch args :
  safe (bound call actionCreator dispatch args).
Proof. unfold bound. solve_safe. Qed.

Lemma safe_bindActionCreator actionCreator dispatch :
  safe (bindActionCreator actionCreator dispatch).
Proof. unfold bindActionCreator. solve_safe. Qed.

Lemma safe_bind_loop actionCreators dispatch ks acc :
  safe (bind_loop actionCreators dispatch ks acc).
Proof.
  pose proof safe_bindActionCreator.
  revert acc. induction ks; intros acc; simpl; solve_safe.
Qed.

Lemma safe_bindActionCreators actionCreators dispatch :
  safe (bindActionCreators actionCreators dispatch).
Proof.
  unfold bindActionCreators.
  pose proof safe_bindActionCreator. pose proof safe_bind_loop. solve_safe.
Qed.

Lemma safe_action_has_type action t : safe (action_has_type action t).
Proof. unfold action_has_type. solve_safe. Qed.

Lemma safe_hasOwnProperty reducers key : safe (hasOwnProperty call reducers key).
Proof. unfold hasOwnProperty. solve_safe. Qed.

Lemma safe_unexpected_keys reducers c ks : safe (unexpected_keys call reducers c ks).
Proof. pose proof safe_hasOwnProperty. induction ks; simpl; solve_safe. Qed.

Lemma safe_getUnexpectedStateShapeWarningMessage inputState reducers action c :
  safe (getUnexpectedStateShapeWarningMessage INIT REPLACE call inputState reducers
          action c).
Proof.
  unfold getUnexpectedStateShapeWarningMessage.
  pose proof safe_action_has_type. pose proof safe_unexpected_keys. solve_safe.
Qed.

Lemma safe_assertReducerShape_loop reducers ks :
  safe (assertReducerShape_loop INIT PROBE_UNKNOWN_ACTION call reducers ks).
Proof. induction ks; simpl; solve_safe. Qed.

Lemma safe_combineReducers_from reducers ks finalReducers :
  safe (combineReducers_from production reducers ks finalReducers).
Proof. revert finalReducers. induction ks; intros fr; simpl; solve_safe. Qed.

Lemma safe_combineReducers_loop reducers ks finalReducers :
  safe (combineReducers_loop production reducers ks finalReducers).
Proof.
  unfold combineReducers_loop. pose proof safe_combineReducers_from. solve_safe.
Qed.

Lemma safe_combineReducers reducers :
  safe (combineReducers INIT PROBE_UNKNOWN_ACTION production call reducers).
Proof.
  unfold combineReducers, assertReducerShape.
  pose proof safe_combineReducers_loop. pose proof safe_assertReducerShape_loop.
  solve_safe.
Qed.

Lemma safe_combination_loop finalReducers ks state action hasChanged nextState :
  safe (combination_loop call finalReducers ks state action hasChanged nextState).
Proof.
  revert hasChanged nextState. induction ks; intros hc ns; simpl; solve_safe.
Qed.

Lemma safe_combination finalReducers shapeAssertionError unexpectedKeyCache args :
  safe (combination INIT REPLACE production call finalReducers shapeAssertionError
          unexpectedKeyCache args).
Proof.
  unfold combination, warn_unexpected_state_shape.
  pose proof safe_getUnexpectedStateShapeWarningMessage.
  pose proof safe_combination_loop. solve_safe.
Qed.

End Calls.

(** ** More budget, same result *)

Lemma refines_refl {A} (m : M A) : refines m m.
Proof. by intros w r w' E _. Qed.

Lemma refines_bind {A B} (m1 m2 : M A) (k1 k2 : A → M B) :
  refines m1 m2 → (∀ a, refines (k1 a) (k2 a)) →
  refines (m1 ≫= k1) (m2 ≫= k2).
Proof.
  intros Hm Hk w r w'. rewrite !bind_unfold.
  destruct (m1 w) as [[a|e|] w1] eqn:E.
  - rewrite (Hm _ _ _ E) by done. apply Hk.
  - rewrite (Hm _ _ _ E) by done. done.
  - by intros [= <- <-].
Qed.

Lemma refines_try_catch {A} (m1 m2 : M A) h1 h2 :
  refines m1 m2 → (∀ e, refines (h1 e) (h2 e)) →
  refines (try_catch m1 h1) (try_catch m2 h2).
Proof.
  intros Hm Hh w r w'. unfold try_catch.
  destruct (m1 w) as [[a|e|] w1] eqn:E.
  - rewrite (Hm _ _ _ E) by done. done.
  - rewrite (Hm _ _ _ E) by done. apply Hh.
  - by intros [= <- <-].
Qed.

Lemma refines_try_finally {A} (m1 m2 : M A) c1 c2 :
  refines m1 m2 → refines c1 c2 →
  refines (try_finally m1 c1) (try_finally m2 c2).
Proof.
  intros Hm Hc w r w'. unfold try_finally.
  destruct (m1 w) as [[a|e|] w1] eqn:E; [| |by intros [= <- <-]];
    rewrite (Hm _ _ _ E) by done;
    destruct (c1 w1) as [[[]|e'|] w2] eqn:E'; try (by intros [= <- <-]);
    by rewrite (Hc _ _ _ E').
Qed.

Ltac refines_step :=
  match goal with
  | |- refines ?m ?m => apply refines_refl
  | |- refines (mbind _ _) (mbind _ _) => apply refines_bind; [|intros ?]
  | |- refines (try_catch _ _) (try_catch _ _) => apply refines_try_catch; [|intros ?]
  | |- refines (try_finally _ _) (try_finally _ _) => apply refines_try_finally
  | |- refines (if ?b then _ else _) (if ?b then _ else _) => destruct b
  | |- refines (match ?x with _ => _ end) (match ?x with _ => _ end) => destruct x
  | |- refines _ _ => solve [auto]
  end.

Ltac solve_refines := repeat refines_step.

Section Refinement.

Variables call1 call2 : value → list value → M value.
Hypothesis call_refines : ∀ f args, refines (call1 f args) (call2 f args).

Lemma refines_run p : refines (run call1 p) (run call2 p).
Proof.
  induction p as [v|v|f args k IHk handler IHh|k IH|h k IH]; intros w r w'; simpl;
    try done.
  - destruct (call1 f args w) as [[v|e|] w1] eqn:E.
    + rewrite (call_refines _ _ _ _ _ E) by done. apply IHk.
    + rewrite (call_refines _ _ _ _ _ E) by done. apply IHh.
    + by intros [= <- <-].
  - apply IH.
  - apply IH.
Qed.

Lemma refines_notify b1 b2 listeners i :
  b1 ≤ b2 → refines (notify call1 b1 listeners i) (notify call2 b2 listeners i).
Proof.
  revert b2 i. induction b1 as [|b1 IH]; intros b2 i Hb.
  - by intros w r w' [= <- <-].
  - destruct b2 as [|b2]; [lia|]. simpl.
    assert (b1 ≤ b2) by lia. solve_refines.
Qed.

Lemma refines_dispatch b1 b2 s action :
  b1 ≤ b2 → refines (dispatch call1 b1 s action) (dispatch call2 b2 s action).
Proof.
  intros Hb. unfold dispatch. pose proof (refines_notify b1 b2). solve_refines.
Qed.

Lemma refines_replaceReducer b1 b2 s nextReducer :
  b1 ≤ b2 →
  refines (replaceReducer REPLACE call1 b1 s nextReducer)
    (replaceReducer REPLACE call2 b2 s nextReducer).
Proof.
  intros Hb. unfold replaceReducer. pose proof (refines_dispatch b1 b2).
  solve_refines.
Qed.

Lemma refines_createStore b1 b2 args :
  b1 ≤ b2 →
  refines (createStore INIT OBSERVABLE call1 b1 args) (createStore INIT OBSERVABLE call2 b2 args).
Proof.
  intros Hb. unfold createStore. pose proof (refines_dispatch b1 b2).
  solve_refines.
Qed.

Lemma refines_composed a b args :
  refines (composed call1 a b args) (composed call2 a b args).
Proof. unfold composed. solve_refines. Qed.

Lemma refines_bound actionCreator dispatch args :
  refines (bound call1 actionCreator dispatch args)
    (bound call2 actionCreator dispatch args).
Proof. unfold bound. solve_refines. Qed.

Lemma refines_assertReducerShape_loop reducers ks :
  refines (assertReducerShape_loop INIT PROBE_UNKNOWN_ACTION call1 reducers ks)
    (assertReducerShape_loop INIT PROBE_UNKNOWN_ACTION call2 reducers ks).
Proof. induction ks; simpl; solve_refines. Qed.

Lemma refines_combineReducers reducers :
  refines (combineReducers INIT PROBE_UNKNOWN_ACTION production call1 reducers)
    (combineReducers INIT PROBE_UNKNOWN_ACTION production call2 reducers).
Proof.
  unfold combineReducers, assertReducerShape.
  pose proof refines_assertReducerShape_loop. solve_refines.
Qed.

Lemma refines_combination_loop finalReducers ks state action hasChanged nextState :
  refines (combination_loop call1 finalReducers ks state action hasChanged nextState)
    (combination_loop call2 finalReducers ks state action hasChanged nextState).
Proof.
  revert hasChanged nextState. induction ks; intros hc ns; simpl; solve_refines.
Qed.

Lemma refines_hasOwnProperty reducers key :
  refines (hasOwnProperty call1 reducers key) (hasOwnProperty call2 reducers key).
Proof. unfold hasOwnProperty. solve_refines. Qed.

Lemma refines_unexpected_keys reducers c ks :
  refines (unexpected_keys call1 reducers c ks) (unexpected_keys call2 reducers c ks).
Proof. pose proof refines_hasOwnProperty. induction ks; simpl; solve_refines. Qed.

Lemma refines_getUnexpectedStateShapeWarningMessage inputState reducers action c :
  refines
    (getUnexpectedStateShapeWarningMessage INIT REPLACE call1 inputState reducers
       action c)
    (getUnexpectedStateShapeWarningMessage INIT REPLACE call2 inputState reducers
       action c).
Proof.
  unfold getUnexpectedStateShapeWarningMessage.
  pose proof refines_unexpected_keys. solve_refines.
Qed.

Lemma refines_combination finalReducers shapeAssertionError unexpectedKeyCache args :
  refines
    (combination INIT REPLACE production call1 finalReducers shapeAssertionError
       unexpectedKeyCache args)
    (combination INIT REPLACE production call2 finalReducers shapeAssertionError
       unexpectedKeyCache args).
Proof.
  unfold combination, warn_unexpected_state_shape.
  pose proof refines_combination_loop.
  pose proof refines_getUnexpectedStateShapeWarningMessage. solve_refines.
Qed.

End Refinement.

(** On a frozen array the loop of [dispatch] calls the listeners the array
    held when the loop began. *)
Lemma notify_call_each call budget listeners ls i w :
  (∀ f args, safe (call f args)) →
  wf w → frozen w listeners → arrays w !! listeners = Some ls →
  length ls - i < budget →
  notify call budget listeners i w = call_each call (drop i ls) w.
Proof.
  intros Hcall. revert i w.
  induction budget as [|budget IH]; intros i w Hw Hfr Hls Hlen.
  - lia.
  - simpl. unfold read_array, read, defined. rewrite !bind_unfold. simpl.
    rewrite Hls. simpl. case_bool_decide as Hi.
    + destruct (lookup_lt_is_Some_2 _ _ Hi) as [l Hl].
      rewrite (drop_S _ _ _ Hl). simpl. rewrite Hl. simpl.
      rewrite !bind_unfold.
      destruct (call l [] w) as [[v|e|] w1] eqn:E; [|done..].
      destruct (Hcall _ _ _ _ _ Hw E) as [Hw1 [_ Hk1]].
      destruct (Hk1 _ Hfr) as [Hfr1 Hls1].
      apply IH; [done..|congruence|lia].
    + rewrite drop_ge by lia. done.
Qed.

(** The list a store has just adopted is frozen. *)
Lemma frozen_adopted w s st :
  wf w → stores w !! s = Some st →
  currentListeners st = Some (nextListeners st) → frozen w (nextListeners st).
Proof.
  intros Hw Hs Hc. destruct (Hw _ _ Hs) as [Hlt Huniq]. split; [done|].
  intros s' st' Hs' Heq. assert (s' = s) as -> by eauto. congruence.
Qed.

Lemma wf_initial_world : wf initial_world.
Proof. intros s st Hs. by destruct s. Qed.

Lemma refines_apply_S budget f args :
  refines (apply budget f args) (apply (S budget) f args).
Proof.
  revert f args. induction budget as [|budget IH]; intros f args.
  - by intros w r w' [= <- <-].
  - change (apply (S (S budget))) with
      (λ f args, Redux.apply INIT REPLACE PROBE_UNKNOWN_ACTION OBSERVABLE production code
                   (S (S budget)) f args).
    cbn beta. simpl.
    destruct f as [| | | | | | | |[]]; try apply refines_refl.
    + by apply refines_run.
    + apply refines_createStore; [done|lia].
    + apply refines_dispatch; [done|lia].
    + apply refines_replaceReducer; [done|lia].
    + by apply refines_composed.
    + by apply refines_combineReducers.
    + by apply refines_combination.
    + by apply refines_bound.
Qed.

Lemma refines_apply b1 b2 f args :
  b1 ≤ b2 → refines (apply b1 f args) (apply b2 f args).
Proof.
  induction 1 as [|b2 _ IH]; [apply refines_refl|].
  intros w r w' E Hr. apply refines_apply_S; [|done]. by apply IH.
Qed.

Lemma safe_apply budget f args : safe (apply budget f args).
Proof.
  revert f args. induction budget as [|budget IH]; intros f args; simpl.
  - apply safe_diverge.
  - destruct f as [| | | | | | | |[]]; auto with safe.
    + by apply safe_run.
    + by apply safe_createStore.
    + apply safe_getState.
    + apply safe_subscribe.
    + by apply safe_dispatch.
    + by apply safe_replaceReducer.
    + apply safe_unsubscribe.
    + apply safe_compose.
    + by apply safe_composed.
    + by apply safe_combineReducers.
    + by apply safe_combination.
    + apply safe_bindActionCreators.
    + by apply safe_bound.
Qed.

(** *** [dispatch], step by step *)

Lemma typeof_undefined v : typeof v = TUndefined ↔ v = VUndefined.
Proof. by destruct v. Qed.

Lemma dispatch_not_plain call budget s action w :
  isPlainObject (heap w) action = Some false →
  dispatch call budget s action w = (Thrown (VError ErrActionNotPlain), w).
Proof.
  intros H. unfold dispatch, isPlainObjectM, read. rewrite !bind_unfold. simpl.
  by rewrite H.
Qed.

Lemma getM_plain w action v :
  isPlainObject (heap w) action = Some true →
  get (heap w) action "type" = Some v →
  getM action "type" w = (Normal v, w).
Proof.
  intros Hp Hg. destruct action; try done.
  unfold getM, read. rewrite bind_unfold. unfold defined. by rewrite Hg.
Qed.

Lemma dispatch_type_undefined call budget s action w :
  isPlainObject (heap w) action = Some true →
  get (heap w) action "type" = Some VUndefined →
  dispatch call budget s action w = (Thrown (VError ErrActionTypeUndefined), w).
Proof.
  intros Hp Hg. unfold dispatch, isPlainObjectM, read. rewrite !bind_unfold. simpl.
  rewrite Hp. simpl. rewrite bind_unfold, (getM_plain _ _ _ Hp Hg). done.
Qed.

Lemma alter_lookup_Some {A} (f : A → A) (l : list A) i x :
  l !! i = Some x → alter f i l !! i = Some (f x).
Proof. intros H. by rewrite list_lookup_alter_eq, H. Qed.

Lemma get_store_eq s w st :
  stores w !! s = Some st → get_store s w = (Normal st, w).
Proof.
  intros H. unfold get_store, read, defined. rewrite bind_unfold. by rewrite H.
Qed.

Lemma get_store_none s w : stores w !! s = None → get_store s w = (Diverged, w).
Proof.
  intros H. unfold get_store, read, defined. rewrite bind_unfold. by rewrite H.
Qed.

Lemma read_cell_eq c w b : cells w !! c = Some b → read_cell c w = (Normal b, w).
Proof.
  intros H. unfold read_cell, read, defined. rewrite bind_unfold. by rewrite H.
Qed.

Lemma read_array_eq r w xs :
  arrays w !! r = Some xs → read_array r w = (Normal xs, w).
Proof.
  intros H. unfold read_array, read, defined. rewrite bind_unfold. by rewrite H.
Qed.

Lemma update_store_eq s f w :
  update_store s f w = (Normal tt, set_stores (alter f s (stores w)) w).
Proof. done. Qed.

Lemma isPlainObjectM_eq v w b :
  isPlainObject (heap w) v = Some b → isPlainObjectM v w = (Normal b, w).
Proof.
  intros H. unfold isPlainObjectM, read, defined. rewrite bind_unfold. by rewrite H.
Qed.

Ltac mred := cbv beta iota delta [negb andb orb].
Tactic Notation "mred" "in" hyp(H) := cbv beta iota delta [negb andb orb] in H.

(** Past its three guards, [dispatch] calls the reducer; what follows
    depends on how the reducer ends. *)
Lemma dispatch_reducer call budget s action w st t :
  (∀ f args, safe (call f args)) → wf w →
  stores w !! s = Some st → isDispatching st = false →
  isPlainObject (heap w) action = Some true →
  get (heap w) action "type" = Some t → t ≠ VUndefined →
  dispatch call budget s action w =
  match call (currentReducer st) [currentState st; action] (begin_dispatch s w) with
  | (Normal next, w1) =>
      match stores w1 !! s with
      | Some st1 =>
          match notify call budget (nextListeners st1) 0 (commit_dispatch s next w1) with
          | (Normal _, w2) => (Normal action, w2)
          | (Thrown e, w2) => (Thrown e, w2)
          | (Diverged, w2) => (Diverged, w2)
          end
      | None => (Diverged, w1)
      end
  | (Thrown e, w1) => (Thrown e, abort_dispatch s w1)
  | (Diverged, w1) => (Diverged, w1)
  end.
Proof.
  intros Hcall Hw Hs Hd Hp Hg Ht. unfold dispatch.
  rewrite bind_unfold, (isPlainObjectM_eq _ _ _ Hp). mred.
  rewrite bind_unfold, (getM_plain _ _ _ Hp Hg). mred.
  case_bool_decide as Hty; [by apply typeof_undefined in Hty|].
  rewrite bind_unfold, (get_store_eq _ _ _ Hs). mred. rewrite Hd.
  rewrite bind_unfold. unfold try_finally.
  rewrite bind_unfold, update_store_eq. mred. fold (begin_dispatch s w).
  assert (Hsb : stores (begin_dispatch s w) !! s = Some (set_isDispatching true st)).
  { simpl. by apply alter_lookup_Some. }
  rewrite bind_unfold, (get_store_eq _ _ _ Hsb). mred.
  rewrite bind_unfold.
  assert (Hwb : wf (begin_dispatch s w)).
  { eapply (safe_update_store s (set_isDispatching true)); [done|done|].
    unfold update_store, modify. reflexivity. }
  change (currentReducer (set_isDispatching true st)) with (currentReducer st).
  change (currentState (set_isDispatching true st)) with (currentState st).
  destruct (call _ _ (begin_dispatch s w)) as [[next|e|] w1] eqn:E; [| |done].
  - destruct (Hcall _ _ _ _ _ Hwb E) as [Hw1 [Hlen1 _]].
    assert (is_Some (stores w1 !! s)) as [st1 Hs1].
    { apply lookup_lt_is_Some_2. apply lookup_lt_Some in Hsb. lia. }
    rewrite Hs1. rewrite !update_store_eq. mred.
    rewrite bind_unfold.
    match goal with |- context [get_store s ?w0] =>
      assert (Hs2 : stores w0 !! s =
                    Some (set_isDispatching false (set_currentState next st1)))
    end.
    { simpl. rewrite list_alter_alter_eq.
      by rewrite (alter_lookup_Some _ _ _ _ Hs1). }
    rewrite (get_store_eq _ _ _ Hs2). mred.
    rewrite bind_unfold, update_store_eq. mred. rewrite bind_unfold.
    match goal with |- context [notify call budget _ 0 ?w0] =>
      assert (w0 = commit_dispatch s next w1) as ->
    end.
    { unfold commit_dispatch, set_stores. simpl. rewrite !list_alter_alter_eq.
      f_equal. apply list_alter_ext; [|done]. intros st' Hst'.
      rewrite Hs1 in Hst'. by injection Hst' as <-. }
    simpl. destruct (notify _ _ _ _ _) as [[[]|?|] ?]; done.
  - rewrite update_store_eq. done.
Qed.

(** *** Claims about [dispatch] *)

(** Claim C4.  Dispatching a value that is not a plain object, or a plain object
    whose [type] is [undefined], throws and leaves the whole memory as it
    was: the current state is the one [getState] returned before.  The
    result does not depend on what calling a function does, so neither the
    reducer nor a listener is called. *)
Theorem dispatch_rejects_action budget s action w :
  isPlainObject (heap w) action = Some false ∨
  (isPlainObject (heap w) action = Some true ∧
   get (heap w) action "type" = Some VUndefined) →
  ∃ e,
    apply (S budget) (VFun (FDispatch s)) [action] w = (Thrown (VError e), w) ∧
    (∀ call n, dispatch call n s action w = (Thrown (VError e), w)) ∧
    ∀ r w', apply (S budget) (VFun (FDispatch s)) [action] w = (r, w') →
      getState s w' = getState s w.
Proof.
  intros [Hnp|[Hp Ht]].
  - exists ErrActionNotPlain. simpl. unfold arg. simpl.
    rewrite dispatch_not_plain by done. split; [done|]. split.
    + intros. by apply dispatch_not_plain.
    + by intros r w' [= <- <-].
  - exists ErrActionTypeUndefined. simpl. unfold arg. simpl.
    rewrite dispatch_type_undefined by done. split; [done|]. split.
    + intros. by apply dispatch_type_undefined.
    + by intros r w' [= <- <-].
Qed.

(** Claim C1.  A plain action with a defined type is dispatched to a store that
    is not dispatching, and the reducer returns [next].  Then the memory
    [commit_dispatch s next w1] in which the listeners start to run has
    [next] as current state and the pending list as current list, and
    [dispatch] goes on as calling, in order and with no arguments, the
    listeners [ls] this list holds at that moment; when they have all
    returned, the result is the action itself. *)
Theorem dispatch_plain_action budget s action w st t next w1 :
  wf w → stores w !! s = Some st → isDispatching st = false →
  isPlainObject (heap w) action = Some true →
  get (heap w) action "type" = Some t → t ≠ VUndefined →
  apply budget (currentReducer st) [currentState st; action] (begin_dispatch s w)
    = (Normal next, w1) →
  ∃ st1 ls,
    stores w1 !! s = Some st1 ∧ arrays w1 !! nextListeners st1 = Some ls ∧
    stores (commit_dispatch s next w1) !! s =
      Some (StoreVars (currentReducer st1) next (Some (nextListeners st1))
              (nextListeners st1) false (store st1)) ∧
    arrays (commit_dispatch s next w1) !! nextListeners st1 = Some ls ∧
    (length ls < budget →
     apply (S budget) (VFun (FDispatch s)) [action] w =
     match call_each (apply budget) ls (commit_dispatch s next w1) with
     | (Normal _, w2) => (Normal action, w2)
     | (Thrown e, w2) => (Thrown e, w2)
     | (Diverged, w2) => (Diverged, w2)
     end).
Proof.
  intros Hw Hs Hd Hp Hg Ht E.
  assert (Hwb : wf (begin_dispatch s w)).
  { eapply (safe_update_store s (set_isDispatching true)); [done|done|].
    unfold update_store, modify. reflexivity. }
  destruct (safe_apply _ _ _ _ _ _ Hwb E) as [Hw1 [Hlen1 _]].
  assert (is_Some (stores w1 !! s)) as [st1 Hs1].
  { apply lookup_lt_is_Some_2. apply lookup_lt_Some in Hs.
    simpl in Hlen1. rewrite length_alter in Hlen1. lia. }
  destruct (Hw1 _ _ Hs1) as [Hlt _].
  destruct (lookup_lt_is_Some_2 _ _ Hlt) as [ls Hls].
  assert (Hs2 : stores (commit_dispatch s next w1) !! s =
      Some (StoreVars (currentReducer st1) next (Some (nextListeners st1))
              (nextListeners st1) false (store st1))).
  { simpl. by rewrite (alter_lookup_Some _ _ _ _ Hs1). }
  exists st1, ls. do 4 (split; [done|]). intros Hlen.
  assert (Hw2 : wf (commit_dispatch s next w1) ∧ keeps w1 (commit_dispatch s next w1)).
  { eapply (one_store_step _ _ s); try done. intros st' _. left. simpl. auto. }
  destruct Hw2 as [Hw2 _].
  change (apply (S budget) (VFun (FDispatch s)) [action] w)
    with (dispatch (apply budget) budget s action w).
  rewrite (dispatch_reducer _ _ _ _ _ _ _ (safe_apply budget) Hw Hs Hd Hp Hg Ht).
  rewrite E, Hs1.
  pose proof (frozen_adopted _ _ _ Hw2 Hs2 eq_refl) as Hfr. simpl in Hfr.
  assert (Hlen' : length ls - 0 < budget) by lia.
  by rewrite (notify_call_each _ _ _ ls 0 _ (safe_apply budget) Hw2 Hfr Hls Hlen').
Qed.

(** *** [subscribe] and [unsubscribe], step by step *)

Lemma ensure_private s w st :
  stores w !! s = Some st →
  currentListeners st ≠ Some (nextListeners st) →
  ensureCanMutateNextListeners s w = (Normal tt, w).
Proof.
  intros Hs Hc. unfold ensureCanMutateNextListeners.
  rewrite bind_unfold, (get_store_eq _ _ _ Hs). mred.
  case_bool_decide; [congruence|done].
Qed.

Lemma ensure_shared s w st xs :
  stores w !! s = Some st →
  currentListeners st = Some (nextListeners st) →
  arrays w !! nextListeners st = Some xs →
  ensureCanMutateNextListeners s w =
  (Normal tt,
   set_stores (alter (set_nextListeners (length (arrays w))) s (stores w))
     (set_arrays (arrays w ++ [xs]) w)).
Proof.
  intros Hs Hc Hxs. unfold ensureCanMutateNextListeners.
  rewrite bind_unfold, (get_store_eq _ _ _ Hs). mred.
  case_bool_decide; [|congruence].
  rewrite bind_unfold, (read_array_eq _ _ _ Hxs). mred.
  rewrite bind_unfold. done.
Qed.

(** After [ensureCanMutateNextListeners] the store owns its pending list,
    which holds what it held; the current list is the same reference and
    no allocated array has changed. *)
Lemma ensure_result s w st xs :
  wf w → stores w !! s = Some st → arrays w !! nextListeners st = Some xs →
  ∃ w' st',
    ensureCanMutateNextListeners s w = (Normal tt, w') ∧
    stores w' !! s = Some st' ∧
    currentListeners st' = currentListeners st ∧
    currentListeners st' ≠ Some (nextListeners st') ∧
    isDispatching st' = isDispatching st ∧
    arrays w' !! nextListeners st' = Some xs ∧
    nextListeners st' < length (arrays w') ∧
    cells w' = cells w ∧
    (∀ r, r < length (arrays w) → arrays w' !! r = arrays w !! r).
Proof.
  intros Hw Hs Hxs.
  destruct (decide (currentListeners st = Some (nextListeners st))) as [Hc|Hc].
  - eexists _, _. split; [by eapply ensure_shared|]. simpl.
    rewrite (alter_lookup_Some _ _ _ _ Hs). split; [done|]. simpl.
    split; [done|]. split.
    { rewrite Hc. intros [= Heq]. apply lookup_lt_Some in Hxs. lia. }
    split; [done|]. split; [by rewrite lookup_app_r, Nat.sub_diag by lia|].
    split; [rewrite length_app; simpl; lia|]. split; [done|].
    intros r Hr. by apply lookup_app_l.
  - exists w, st. split; [by eapply ensure_private|].
    apply lookup_lt_Some in Hxs as Hlt. auto 10.
Qed.

Lemma subscribe_result s listener w st :
  wf w → stores w !! s = Some st → isDispatching st = false →
  typeof listener = TFunction →
  ∃ w' st' xs,
    subscribe s listener w =
      (Normal (VFun (FUnsubscribe s listener (length (cells w)))), w') ∧
    stores w' !! s = Some st' ∧
    currentListeners st' = currentListeners st ∧
    currentListeners st' ≠ Some (nextListeners st') ∧
    arrays w !! nextListeners st = Some xs ∧
    arrays w' !! nextListeners st' = Some (xs ++ [listener]) ∧
    cells w' = cells w ++ [true].
Proof.
  intros Hw Hs Hd Hty. unfold subscribe.
  rewrite bool_decide_eq_true_2 by done. mred.
  rewrite bind_unfold, (get_store_eq _ _ _ Hs). mred. rewrite Hd.
  rewrite bind_unfold. unfold alloc_cell at 1. mred.
  destruct (Hw _ _ Hs) as [Hlt _].
  destruct (lookup_lt_is_Some_2 _ _ Hlt) as [xs Hxs].
  destruct (ensure_result s (set_cells (cells w ++ [true]) w) st xs)
    as (w1 & st1 & E1 & Hs1 & Hc1 & Hp1 & _ & Hxs1 & Hlt1 & Hcells1 & _); try done.
  rewrite bind_unfold, E1. mred.
  rewrite bind_unfold, (get_store_eq _ _ _ Hs1). mred.
  rewrite bind_unfold, (read_array_eq _ _ _ Hxs1). mred.
  rewrite bind_unfold. unfold write_array, modify. mred.
  eexists _, st1, xs. split; [done|]. simpl.
  rewrite list_lookup_insert_eq by done. auto 10.
Qed.

Lemma unsubscribe_result s listener c w st :
  wf w → stores w !! s = Some st → isDispatching st = false →
  cells w !! c = Some true →
  ∃ w' st' xs,
    unsubscribe s listener c w = (Normal VUndefined, w') ∧
    stores w' !! s = Some st' ∧
    currentListeners st' = None ∧
    arrays w !! nextListeners st = Some xs ∧
    arrays w' !! nextListeners st' = Some (splice1 xs (indexOf xs listener)) ∧
    cells w' = <[c := false]> (cells w).
Proof.
  intros Hw Hs Hd Hc. unfold unsubscribe.
  rewrite bind_unfold, (read_cell_eq _ _ _ Hc). mred.
  rewrite bind_unfold, (get_store_eq _ _ _ Hs). mred. rewrite Hd.
  rewrite bind_unfold. unfold write_cell at 1, modify at 1. mred.
  destruct (Hw _ _ Hs) as [Hlt _].
  destruct (lookup_lt_is_Some_2 _ _ Hlt) as [xs Hxs].
  destruct (ensure_result s (set_cells (<[c := false]> (cells w)) w) st xs)
    as (w1 & st1 & E1 & Hs1 & Hc1 & Hp1 & _ & Hxs1 & Hlt1 & Hcells1 & _); try done.
  rewrite bind_unfold, E1. mred.
  rewrite bind_unfold, (get_store_eq _ _ _ Hs1). mred.
  rewrite bind_unfold, (read_array_eq _ _ _ Hxs1). mred.
  rewrite bind_unfold. unfold write_array, modify. mred.
  rewrite bind_unfold, update_store_eq. mred.
  eexists _, (set_currentListeners None st1), xs. split; [done|]. simpl.
  rewrite (alter_lookup_Some _ _ _ _ Hs1). simpl.
  rewrite list_lookup_insert_eq by done. auto 10.
Qed.

(** *** The re-entrancy guard of [dispatch] *)

Lemma never_throws_bind {A B} e (m : M A) (k : A → M B) :
  never_throws e m → (∀ a, never_throws e (k a)) → never_throws e (m ≫= k).
Proof.
  intros Hm Hk w r w'. rewrite bind_unfold.
  destruct (m w) as [[a|e'|] w1] eqn:E.
  - apply Hk.
  - intros [= <- <-] [= ->]. by destruct (Hm _ _ _ E).
  - by intros [= <- <-].
Qed.

Lemma never_throws_total {A} e (m : M A) :
  (∀ w, ∃ a w', m w = (Normal a, w')) → never_throws e m.
Proof. intros H w r w' E. destruct (H w) as (a & w1 & E1). congruence. Qed.

Lemma never_throws_defined {A} e (o : option A) : never_throws e (defined o).
Proof. destruct o; by intros w r w' [= <- <-]. Qed.

Lemma never_throws_get_store e s : never_throws e (get_store s).
Proof.
  apply never_throws_bind; [by apply never_throws_total; eauto|].
  intros. apply never_throws_defined.
Qed.

Lemma never_throws_read_array e r : never_throws e (read_array r).
Proof.
  apply never_throws_bind; [by apply never_throws_total; eauto|].
  intros. apply never_throws_defined.
Qed.

Lemma never_throws_update_store e s f : never_throws e (update_store s f).
Proof. apply never_throws_total. eauto. Qed.

Lemma never_throws_try_finally {A} e (m : M A) cleanup :
  never_throws e m → never_throws e cleanup → never_throws e (try_finally m cleanup).
Proof.
  intros Hm Hc w r w'. unfold try_finally.
  destruct (m w) as [[a|e'|] w1] eqn:E; [| |by intros [= <- <-]].
  - destruct (cleanup w1) as [[[]|e''|] w2] eqn:E'; intros [= <- <-]; try done.
    intros [= ->]. by destruct (Hc _ _ _ E').
  - destruct (cleanup w1) as [[[]|e''|] w2] eqn:E'; intros [= <- <-]; try done.
    + exact (Hm _ _ _ E).
    + intros [= ->]. by destruct (Hc _ _ _ E').
Qed.

Lemma never_throws_notify e call budget listeners i :
  (∀ f args, never_throws e (call f args)) →
  never_throws e (notify call budget listeners i).
Proof.
  intros Hcall. revert i. induction budget as [|budget IH]; intros i; simpl.
  - by intros w r w' [= <- <-].
  - apply never_throws_bind; [apply never_throws_read_array|]. intros xs.
    case_bool_decide; [|by intros w r w' [= <- <-]].
    apply never_throws_bind; [apply Hcall|]. intros _. apply IH.
Qed.

Lemma getM_world v key w r w' : getM v key w = (r, w') → w' = w.
Proof.
  destruct v; unfold getM, throw_error, throw, read, defined;
    rewrite ?bind_unfold; simpl; try (by intros [= <- <-]);
    case_match; by intros [= <- <-].
Qed.

Lemma getM_thrown v key w e w' :
  getM v key w = (Thrown e, w') → e = VError TypeErrorNullish.
Proof.
  destruct v; unfold getM, throw_error, throw, read, defined;
    rewrite ?bind_unfold; simpl; try (by intros [= <- <-]);
    case_match; by intros [=].
Qed.

(** When the store is not dispatching, the re-entrancy error can only come
    out of [dispatch] from a function it calls. *)
Lemma dispatch_guard_passed call budget s action w st :
  (∀ f args, never_throws (VError ErrReducersMayNotDispatch) (call f args)) →
  stores w !! s = Some st → isDispatching st = false →
  ∀ r w', dispatch call budget s action w = (r, w') →
    r ≠ Thrown (VError ErrReducersMayNotDispatch).
Proof.
  intros Hcall Hs Hd r w'. unfold dispatch.
  unfold isPlainObjectM, read, defined. rewrite !bind_unfold. mred.
  destruct (isPlainObject (heap w) action) as [[|]|];
    mred; [|by intros [= <- <-]..].
  unfold mret at 1, M_ret at 1. mred. rewrite bind_unfold.
  destruct (getM action "type" w) as [[ty|e|] w0] eqn:Eg;
    apply getM_world in Eg as Hw0; subst w0.
  2: { intros [= <- <-]. by rewrite (getM_thrown _ _ _ _ _ Eg). }
  2: by intros [= <- <-].
  case_bool_decide; [by intros [= <- <-]|].
  rewrite bind_unfold, (get_store_eq _ _ _ Hs). mred. rewrite Hd.
  apply never_throws_bind.
  - apply never_throws_try_finally; [|apply never_throws_update_store].
    apply never_throws_bind; [apply never_throws_update_store|]. intros _.
    apply never_throws_bind; [apply never_throws_get_store|]. intros st'.
    apply never_throws_bind; [apply Hcall|]. intros next.
    apply never_throws_update_store.
  - intros _. apply never_throws_bind; [apply never_throws_get_store|].
    intros st'. apply never_throws_bind; [apply never_throws_update_store|].
    intros _. apply never_throws_bind; [by apply never_throws_notify|].
    intros _. by intros w1 r1 w1' [= <- <-].
Qed.

(** Claim C5.  When the reducer throws, [dispatch] throws the same exception and
    [isDispatching] is false again.  From then on [getState] returns the
    current state, [subscribe] returns, and [dispatch] does not raise the
    re-entrancy error: whatever the action and the functions it calls, that
    error can only come from one of them. *)
Theorem dispatch_reducer_throws budget s action w st t e w1 :
  wf w → stores w !! s = Some st → isDispatching st = false →
  isPlainObject (heap w) action = Some true →
  get (heap w) action "type" = Some t → t ≠ VUndefined →
  apply budget (currentReducer st) [currentState st; action] (begin_dispatch s w)
    = (Thrown e, w1) →
  apply (S budget) (VFun (FDispatch s)) [action] w = (Thrown e, abort_dispatch s w1) ∧
  ∃ st',
    stores (abort_dispatch s w1) !! s = Some st' ∧
    isDispatching st' = false ∧
    getState s (abort_dispatch s w1) = (Normal (currentState st'), abort_dispatch s w1) ∧
    (∀ listener, typeof listener = TFunction →
       ∃ u w', subscribe s listener (abort_dispatch s w1) = (Normal u, w')) ∧
    (∀ call n a r w',
       (∀ f args, never_throws (VError ErrReducersMayNotDispatch) (call f args)) →
       dispatch call n s a (abort_dispatch s w1) = (r, w') →
       r ≠ Thrown (VError ErrReducersMayNotDispatch)).
Proof.
  intros Hw Hs Hd Hp Hg Ht E.
  assert (Hwb : wf (begin_dispatch s w)).
  { eapply (safe_update_store s (set_isDispatching true)); [done|done|].
    unfold update_store, modify. reflexivity. }
  destruct (safe_apply _ _ _ _ _ _ Hwb E) as [Hw1 [Hlen1 _]].
  assert (is_Some (stores w1 !! s)) as [st1 Hs1].
  { apply lookup_lt_is_Some_2. apply lookup_lt_Some in Hs.
    simpl in Hlen1. rewrite length_alter in Hlen1. lia. }
  assert (Hwa : wf (abort_dispatch s w1)).
  { eapply (safe_update_store s (set_isDispatching false)); [done|done|].
    unfold update_store, modify. reflexivity. }
  assert (Hsa : stores (abort_dispatch s w1) !! s = Some (set_isDispatching false st1)).
  { simpl. by apply alter_lookup_Some. }
  split.
  - change (apply (S budget) (VFun (FDispatch s)) [action] w)
      with (dispatch (apply budget) budget s action w).
    rewrite (dispatch_reducer _ _ _ _ _ _ _ (safe_apply budget) Hw Hs Hd Hp Hg Ht).
    by rewrite E.
  - exists (set_isDispatching false st1). split; [done|]. split; [done|].
    split; [|split].
    + unfold getState. by rewrite bind_unfold, (get_store_eq _ _ _ Hsa).
    + intros listener Hty.
      destruct (subscribe_result s listener _ _ Hwa Hsa eq_refl Hty)
        as (w' & _ & _ & Hsub & _). eauto.
    + intros call n a r w' Hcall. by eapply dispatch_guard_passed.
Qed.

(** *** The listener snapshot *)

Lemma reachable_keeps w w' : wf w → reachable w w' → wf w' ∧ keeps w w'.
Proof.
  intros Hw. induction 1 as [|w w1 w2 budget f args r _ IH E].
  - auto using keeps_refl.
  - destruct (IH Hw) as [Hw1 Hk1].
    destruct (safe_apply _ _ _ _ _ _ Hw1 E). eauto using keeps_trans.
Qed.

Lemma subscribe_normal s listener w u w' :
  subscribe s listener w = (Normal u, w') →
  typeof listener = TFunction ∧
  ∃ st, stores w !! s = Some st ∧ isDispatching st = false.
Proof.
  unfold subscribe. case_bool_decide as Hty; mred; [|done].
  rewrite bind_unfold.
  destruct (stores w !! s) as [st|] eqn:Hs;
    [|by rewrite (get_store_none _ _ Hs)].
  rewrite (get_store_eq _ _ _ Hs). mred.
  destruct (isDispatching st) eqn:Hd; [done|]. eauto.
Qed.

Lemma unsubscribe_normal s listener c w u w' :
  cells w !! c = Some true →
  unsubscribe s listener c w = (Normal u, w') →
  ∃ st, stores w !! s = Some st ∧ isDispatching st = false.
Proof.
  intros Hc. unfold unsubscribe.
  rewrite bind_unfold, (read_cell_eq _ _ _ Hc). mred. rewrite bind_unfold.
  destruct (stores w !! s) as [st|] eqn:Hs;
    [|by rewrite (get_store_none _ _ Hs)].
  rewrite (get_store_eq _ _ _ Hs). mred.
  destruct (isDispatching st) eqn:Hd; [done|]. eauto.
Qed.

(** Claim C3.  Store [s] has just adopted its pending list, the array [L] that
    holds the listeners [ls], and a dispatch starts iterating it.  In every
    memory [w] that calls can lead to from there, [L] still holds [ls], and
    the loop of the dispatch, resumed at any index [i], calls exactly the
    listeners of [ls] from [i] on.  A [subscribe] made then pushes the
    listener on a pending list that is another array than [L], a copy made
    for it if need be; an [unsubscribe] made then splices such a list and
    drops the current list; both leave [L] as it is. *)
Theorem listener_snapshot_fixed s st ls w0 w :
  wf w0 → stores w0 !! s = Some st →
  currentListeners st = Some (nextListeners st) →
  arrays w0 !! nextListeners st = Some ls →
  reachable w0 w →
  arrays w !! nextListeners st = Some ls ∧
  (∀ budget n i, length ls - i < n →
     notify (apply budget) n (nextListeners st) i w
     = call_each (apply budget) (drop i ls) w) ∧
  (∀ listener u w', subscribe s listener w = (Normal u, w') →
     ∃ st0 st' xs,
       stores w !! s = Some st0 ∧ arrays w !! nextListeners st0 = Some xs ∧
       stores w' !! s = Some st' ∧
       nextListeners st' ≠ nextListeners st ∧
       arrays w' !! nextListeners st' = Some (xs ++ [listener]) ∧
       arrays w' !! nextListeners st = Some ls) ∧
  (∀ listener c u w', cells w !! c = Some true →
     unsubscribe s listener c w = (Normal u, w') →
     ∃ st0 st' xs,
       stores w !! s = Some st0 ∧ arrays w !! nextListeners st0 = Some xs ∧
       stores w' !! s = Some st' ∧
       nextListeners st' ≠ nextListeners st ∧ currentListeners st' = None ∧
       arrays w' !! nextListeners st' = Some (splice1 xs (indexOf xs listener)) ∧
       arrays w' !! nextListeners st = Some ls).
Proof.
  intros Hw0 Hs Hc Hls Hreach.
  pose proof (frozen_adopted _ _ _ Hw0 Hs Hc) as Hfr0.
  destruct (reachable_keeps _ _ Hw0 Hreach) as [Hw [_ Hk]].
  destruct (Hk _ Hfr0) as [Hfr Heq]. rewrite Hls in Heq.
  split; [done|]. split; [|split].
  - intros budget n i Hn. apply notify_call_each; try done. apply safe_apply.
  - intros listener u w' E.
    destruct (subscribe_normal _ _ _ _ _ E) as (Hty & st0 & Hs0 & Hd0).
    destruct (subscribe_result s listener w st0 Hw Hs0 Hd0 Hty)
      as (w1 & st' & xs & E1 & Hs' & Hc' & Hp' & Hxs & Hxs' & _).
    rewrite E1 in E. injection E as <- <-.
    destruct (safe_subscribe _ _ _ _ _ Hw E1) as [Hw' [_ Hk']].
    destruct (Hk' _ Hfr) as [[_ Hfr'] Heq']. rewrite Heq in Heq'.
    exists st0, st', xs. repeat split; try done.
    intros Hn. apply Hp'. rewrite Hn. eauto.
  - intros listener c u w' Hcell E.
    destruct (unsubscribe_normal _ _ _ _ _ _ Hcell E) as (st0 & Hs0 & Hd0).
    destruct (unsubscribe_result s listener c w st0 Hw Hs0 Hd0 Hcell)
      as (w1 & st' & xs & E1 & Hs' & Hc' & Hxs & Hxs' & _).
    rewrite E1 in E. injection E as <- <-.
    destruct (safe_unsubscribe _ _ _ _ _ _ Hw E1) as [Hw' [_ Hk']].
    destruct (Hk' _ Hfr) as [[_ Hfr'] Heq']. rewrite Heq in Heq'.
    exists st0, st', xs. repeat split; try done.
    intros Hn. specialize (Hfr' _ _ Hs' Hn). congruence.
Qed.

(** *** [createStore] *)

Lemma run_enhance call enhancer reducer preloadedState w :
  run call (enhance enhancer reducer preloadedState) w =
  (enhanced ← call enhancer [VFun FCreateStore];
   call enhanced [reducer; preloadedState]) w.
Proof.
  simpl. rewrite bind_unfold.
  destruct (call enhancer _ w) as [[enhanced|e|] w1]; [|done..].
  simpl. by destruct (call enhanced _ w1) as [[v|e|] w2].
Qed.

(** Claim C8.  [createStore] throws when [preloadedState] and [enhancer], or
    [enhancer] and a fourth argument, are functions; with a function for
    [preloadedState] and no [enhancer] it returns what
    [preloadedState(createStore)(reducer, undefined)] evaluates to; and
    otherwise, with a function for [enhancer], what
    [enhancer(createStore)(reducer, preloadedState)] evaluates to. *)
Theorem createStore_arguments budget args w :
  let reducer := arg args 0 in
  let preloadedState := arg args 1 in
  let enhancer := arg args 2 in
  (typeof preloadedState = TFunction ∧ typeof enhancer = TFunction ∨
   typeof enhancer = TFunction ∧ typeof (arg args 3) = TFunction →
   apply (S budget) (VFun FCreateStore) args w
   = (Thrown (VError ErrSeveralEnhancers), w)) ∧
  (typeof preloadedState = TFunction → typeof enhancer = TUndefined →
   apply (S budget) (VFun FCreateStore) args w
   = run (apply budget) (enhance preloadedState reducer VUndefined) w) ∧
  (typeof enhancer = TFunction → typeof preloadedState ≠ TFunction →
   typeof (arg args 3) ≠ TFunction →
   apply (S budget) (VFun FCreateStore) args w
   = run (apply budget) (enhance enhancer reducer preloadedState) w).
Proof.
  intros reducer preloadedState enhancer. rewrite !run_enhance.
  change (apply (S budget) (VFun FCreateStore) args)
    with (createStore INIT OBSERVABLE (apply budget) budget args).
  unfold createStore. fold reducer preloadedState enhancer.
  split; [|split].
  - intros [[H1 H2]|[H1 H2]]; rewrite ?H1, ?H2; simpl.
    + done.
    + by rewrite orb_true_r.
  - intros H1 H2. rewrite H1, H2. simpl. by rewrite H1.
  - intros H1 H2 H3. rewrite H1.
    rewrite (bool_decide_eq_false_2 (typeof preloadedState = TFunction)) by done.
    rewrite (bool_decide_eq_false_2 (typeof (arg args 3) = TFunction)) by done.
    cbn [andb orb]. rewrite H1.
    rewrite (bool_decide_eq_false_2 (TFunction = TUndefined)) by done.
    rewrite bool_decide_eq_true_2 by done. done.
Qed.

(** *** Results, whatever the budget *)

Lemma run_call3 call f g h x w :
  run call (call3 f g h x) w =
  (a ← call h [x]; b ← call g [a]; call f [b]) w.
Proof.
  simpl. rewrite bind_unfold.
  destruct (call h _ w) as [[a|e|] w1]; [|done..].
  simpl. rewrite bind_unfold.
  destruct (call g _ w1) as [[b|e|] w2]; [|done..].
  simpl. by destruct (call f _ w2) as [[v|e|] w3].
Qed.

Lemma run_call_dispatch call dispatch actionCreator args w :
  run call (call_dispatch dispatch actionCreator args) w =
  bound call actionCreator dispatch args w.
Proof.
  simpl. unfold bound. rewrite bind_unfold.
  destruct (call actionCreator _ w) as [[a|e|] w1]; [|done..].
  simpl. by destruct (call dispatch _ w1) as [[v|e|] w2].
Qed.

(** *** [compose] *)

(** Claim C7.  [compose()] returns a function that returns its argument;
    [compose(f)] returns [f] itself and creates nothing; and
    [compose(f, g, h)] returns a function [c] such that, in any memory, the
    call [c(x)] ends exactly as the expression [f(g(h(x)))] does. *)
Theorem compose_laws budget f g h x w :
  (∃ c w', apply (S budget) (VFun FCompose) [] w = (Normal c, w') ∧
     ∀ w1, apply (S budget) c [x] w1 = (Normal x, w1)) ∧
  apply (S budget) (VFun FCompose) [f] w = (Normal f, w) ∧
  (∃ c w', apply (S budget) (VFun FCompose) [f; g; h] w = (Normal c, w') ∧
     ∀ w1 r w2, evaluates c [x] w1 r w2 ↔ runs (call3 f g h x) w1 r w2).
Proof.
  split; [|split].
  - eexists _, _. split; [reflexivity|]. done.
  - done.
  - eexists _, _. split; [reflexivity|]. intros w1 r w2. split.
    + intros [[|[|n]] [E Hr]]; simpl in E.
      * injection E as <- <-. done.
      * unfold composed in E. rewrite bind_unfold in E. simpl in E.
        injection E as <- <-. done.
      * exists (S n). split; [|done]. rewrite run_call3.
        revert E Hr. apply refines_bind; [apply refines_refl|].
        intros a. simpl. unfold composed.
        apply refines_bind; [apply refines_apply_S|].
        intros b. apply refines_apply_S.
    + intros [n [E Hr]]. exists (S (S n)). split; [|done].
      rewrite run_call3 in E. revert E Hr. simpl. unfold composed.
      apply refines_bind; [apply refines_apply_S|]. intros a.
      apply refines_refl.
Qed.

(** *** Objects the library builds *)

Lemma own_keys_literal kvs : own_keys (literal kvs) = kvs.*1.
Proof.
  unfold own_keys, literal. cbn [props].
  induction kvs as [|[k v] kvs IH]; [done|].
  rewrite fmap_cons, filter_cons_True by done. rewrite !fmap_cons.
  by f_equal.
Qed.

Lemma find_prop_literal key kvs :
  find_prop key (props (literal kvs)) = (λ v, Property v true) <$> assoc_lookup key kvs.
Proof.
  unfold literal. cbn [props].
  induction kvs as [|[k v] kvs IH]; [done|]. cbn.
  by destruct (String.eqb k key).
Qed.

Lemma alloc_record_eq kvs w :
  alloc_record (Rec (VObj ObjectPrototype) kvs) w =
  (Normal (VObj (length (heap w))), set_heap (heap w ++ [literal kvs]) w).
Proof. done. Qed.

Lemma assoc_set_keys key v (o : list (string * value)) :
  (assoc_set key v o).*1 = if decide (key ∈ o.*1) then o.*1 else o.*1 ++ [key].
Proof.
  induction o as [|[k v'] o IH]; [done|].
  change (((k, v') :: o).*1) with (k :: o.*1).
  cbn [assoc_set]. destruct (String.eqb_spec k key) as [->|Hne].
  - rewrite decide_True by (by left). done.
  - change (((k, v') :: assoc_set key v o).*1) with (k :: (assoc_set key v o).*1).
    rewrite IH. destruct (decide (key ∈ o.*1)) as [Hin|Hin].
    + rewrite decide_True by (by right). done.
    + rewrite decide_False; [done|]. by intros [?|?]%elem_of_cons.
Qed.

Lemma insert_index_keys n key v (o : list (string * value)) :
  (insert_index n key v o).*1 ≡ₚ key :: o.*1.
Proof.
  induction o as [|[k v'] o IH]; [done|]. cbn [insert_index].
  destruct (array_index k) as [m|]; [|done].
  destruct (m <? n)%N; [|done].
  rewrite !fmap_cons, IH. cbn. apply perm_swap.
Qed.

(** An assignment keeps the keys the object has and adds the one assigned. *)
Lemma assoc_put_keys key v (o : list (string * value)) :
  key ∉ o.*1 → (assoc_put key v o).*1 ≡ₚ key :: o.*1.
Proof.
  intros Hk. unfold assoc_put. rewrite bool_decide_eq_false_2 by done.
  destruct (array_index key) as [n|]; [apply insert_index_keys|].
  rewrite fmap_app. cbn. symmetry. apply Permutation_cons_append.
Qed.

Lemma assoc_put_keys_in key v (o : list (string * value)) :
  key ∈ o.*1 → (assoc_put key v o).*1 = o.*1.
Proof.
  intros Hk. unfold assoc_put. rewrite bool_decide_eq_true_2 by done.
  rewrite assoc_set_keys. by rewrite decide_True.
Qed.

Lemma assoc_put_elem_of key v (o : list (string * value)) k :
  k ∈ (assoc_put key v o).*1 ↔ k = key ∨ k ∈ o.*1.
Proof.
  destruct (decide (key ∈ o.*1)) as [Hin|Hin].
  - rewrite assoc_put_keys_in by done. split; [auto|]. by intros [->|?].
  - rewrite assoc_put_keys by done. apply elem_of_cons.
Qed.

Lemma assoc_put_NoDup key v (o : list (string * value)) :
  NoDup o.*1 → NoDup (assoc_put key v o).*1.
Proof.
  intros Hnd. destruct (decide (key ∈ o.*1)) as [Hin|Hin].
  - by rewrite assoc_put_keys_in.
  - rewrite assoc_put_keys by done. by constructor.
Qed.

Lemma assoc_put_fresh key v (o : list (string * value)) :
  key ∉ o.*1 → array_index key = None → assoc_put key v o = o ++ [(key, v)].
Proof.
  intros Hk Hi. unfold assoc_put. rewrite bool_decide_eq_false_2 by done.
  by rewrite Hi.
Qed.

Lemma assoc_lookup_set key v (o : list (string * value)) k :
  key ∈ o.*1 →
  assoc_lookup k (assoc_set key v o) =
  if decide (k = key) then Some v else assoc_lookup k o.
Proof.
  induction o as [|[k' v'] o IH]; intros Hin; [by apply elem_of_nil in Hin|].
  cbn [assoc_set]. destruct (String.eqb_spec k' key) as [->|Hne].
  - cbn [assoc_lookup]. destruct (String.eqb_spec key k) as [->|Hne'].
    + by rewrite decide_True.
    + by rewrite decide_False by done.
  - cbn [assoc_lookup]. destruct (String.eqb_spec k' k) as [->|Hne'].
    + by rewrite decide_False by done.
    + apply IH. rewrite fmap_cons in Hin. apply elem_of_cons in Hin as [?|?]; [|done].
      by destruct Hne.
Qed.

Lemma assoc_lookup_None key (o : list (string * value)) :
  key ∉ o.*1 → assoc_lookup key o = None.
Proof.
  induction o as [|[k v] o IH]; intros Hk; [done|]. cbn [assoc_lookup].
  rewrite fmap_cons in Hk. apply not_elem_of_cons in Hk as [Hne Hk].
  destruct (String.eqb_spec k key) as [->|_]; [done|]. by apply IH.
Qed.

Lemma assoc_lookup_app (o o' : list (string * value)) k :
  assoc_lookup k (o ++ o') =
  match assoc_lookup k o with Some v => Some v | None => assoc_lookup k o' end.
Proof.
  induction o as [|[k' v'] o IH]; [done|]. cbn.
  by destruct (String.eqb k' k).
Qed.

Lemma assoc_lookup_insert_index n key v (o : list (string * value)) k :
  key ∉ o.*1 →
  assoc_lookup k (insert_index n key v o) =
  if decide (k = key) then Some v else assoc_lookup k o.
Proof.
  induction o as [|[k' v'] o IH]; intros Hk.
  - cbn. destruct (String.eqb_spec key k) as [->|Hne].
    + by rewrite decide_True.
    + by rewrite decide_False by done.
  - rewrite fmap_cons in Hk. apply not_elem_of_cons in Hk as [Hne Hk].
    assert (Hhead : assoc_lookup k ((key, v) :: (k', v') :: o) =
                    if decide (k = key) then Some v
                    else assoc_lookup k ((k', v') :: o)).
    { cbn [assoc_lookup]. destruct (String.eqb_spec key k) as [->|Hne'].
      - by rewrite decide_True.
      - by rewrite decide_False by done. }
    cbn [insert_index]. destruct (array_index k') as [m|]; [|done].
    destruct (m <? n)%N; [|done].
    cbn [assoc_lookup]. destruct (String.eqb_spec k' k) as [->|Hne'].
    + cbn. by rewrite decide_False by done.
    + by apply IH.
Qed.

(** After [o[key] = v], [o[key]] is [v] and every other property is as
    it was. *)
Lemma assoc_lookup_put key v (o : list (string * value)) k :
  assoc_lookup k (assoc_put key v o) =
  if decide (k = key) then Some v else assoc_lookup k o.
Proof.
  unfold assoc_put. case_bool_decide as Hin; [by apply assoc_lookup_set|].
  destruct (array_index key) as [n|]; [by apply assoc_lookup_insert_index|].
  rewrite assoc_lookup_app. cbn. destruct (decide (k = key)) as [->|Hne].
  - rewrite assoc_lookup_None by done. by rewrite String.eqb_refl.
  - destruct (assoc_lookup k o); [done|].
    destruct (String.eqb_spec key k) as [->|_]; [by destruct Hne|done].
Qed.

Lemma put_all_keys (o kvs : list (string * value)) :
  NoDup (o.*1 ++ kvs.*1) → (put_all o kvs).*1 ≡ₚ o.*1 ++ kvs.*1.
Proof.
  revert o. induction kvs as [|[k v] kvs IH]; intros o Hnd.
  - by rewrite app_nil_r.
  - rewrite fmap_cons in Hnd. cbn [fst] in Hnd.
    assert (Hk : k ∉ o.*1).
    { apply NoDup_app in Hnd as (_ & Hd & _). intros Hin.
      apply (Hd _ Hin). by left. }
    cbn [put_all foldl]. fold (put_all (assoc_put k v o) kvs).
    assert (Hp : (assoc_put k v o).*1 ++ kvs.*1 ≡ₚ o.*1 ++ k :: kvs.*1).
    { rewrite assoc_put_keys by done. cbn. apply Permutation_middle. }
    rewrite IH by (by rewrite Hp). by rewrite fmap_cons.
Qed.

Lemma put_all_lookup_other (o kvs : list (string * value)) k :
  k ∉ kvs.*1 → assoc_lookup k (put_all o kvs) = assoc_lookup k o.
Proof.
  revert o. induction kvs as [|[k' v'] kvs IH]; intros o Hk; [done|].
  rewrite fmap_cons in Hk. apply not_elem_of_cons in Hk as [Hne Hk].
  cbn [put_all foldl]. fold (put_all (assoc_put k' v' o) kvs).
  rewrite IH by done. rewrite assoc_lookup_put. by rewrite decide_False.
Qed.

Lemma put_all_lookup (o kvs : list (string * value)) i k v :
  NoDup kvs.*1 → kvs !! i = Some (k, v) → assoc_lookup k (put_all o kvs) = Some v.
Proof.
  revert o i. induction kvs as [|[k' v'] kvs IH]; intros o i Hnd Hi; [done|].
  rewrite fmap_cons in Hnd. apply NoDup_cons in Hnd as [Hk' Hnd].
  cbn [put_all foldl]. fold (put_all (assoc_put k' v' o) kvs).
  destruct i as [|i]; [|by eapply IH].
  injection Hi as -> ->. rewrite put_all_lookup_other by done.
  rewrite assoc_lookup_put. by rewrite decide_True.
Qed.

Lemma put_all_append (o kvs : list (string * value)) :
  NoDup (o.*1 ++ kvs.*1) → (∀ k, k ∈ kvs.*1 → array_index k = None) →
  put_all o kvs = o ++ kvs.
Proof.
  revert o. induction kvs as [|[k v] kvs IH]; intros o Hnd Hall.
  - by rewrite app_nil_r.
  - rewrite fmap_cons in Hnd, Hall. cbn [fst] in Hnd, Hall.
    assert (Hk : k ∉ o.*1).
    { apply NoDup_app in Hnd as (_ & Hd & _). intros Hin.
      apply (Hd _ Hin). by left. }
    cbn [put_all foldl]. fold (put_all (assoc_put k v o) kvs).
    rewrite assoc_put_fresh; [|done|apply Hall; by left].
    rewrite IH.
    + by rewrite <- app_assoc.
    + rewrite fmap_app, <- app_assoc. done.
    + intros k' Hk'. apply Hall. by right.
Qed.

Lemma key_order_from_app last names xs k rest n :
  key_order_from last names (xs ++ k :: rest) = true → array_index k = Some n →
  Forall (λ x, ∃ m, array_index x = Some m ∧ (m < n)%N) xs ∧
  names = false ∧
  match last with Some m => (m < n)%N | None => True end.
Proof.
  intros H Hk. revert last names H.
  induction xs as [|x xs IH]; intros last names; cbn [app key_order_from].
  - rewrite Hk. intros [[Hn Hl]%andb_prop _]%andb_prop.
    split; [done|]. split; [by destruct names|].
    destruct last as [m|]; [by apply N.ltb_lt|done].
  - destruct (array_index x) as [m|] eqn:Hx.
    + intros [[Hn Hl]%andb_prop Hr]%andb_prop.
      destruct (IH _ _ Hr) as (Hxs & _ & Hm). split; [|split].
      * constructor; [eauto|done].
      * by destruct names.
      * destruct last as [m'|]; [|done]. apply N.ltb_lt in Hl. lia.
    + intros Hr. by destruct (IH _ _ Hr) as (_ & ? & _).
Qed.

Lemma insert_index_last n key v (o : list (string * value)) :
  Forall (λ x, ∃ m, array_index x = Some m ∧ (m < n)%N) o.*1 →
  insert_index n key v o = o ++ [(key, v)].
Proof.
  induction o as [|[k v'] o IH]; [done|]. rewrite fmap_cons.
  intros [(m & Hm & Hlt) Ho]%Forall_cons. cbn [insert_index fst] in *.
  rewrite Hm. rewrite (proj2 (N.ltb_lt m n)) by done. cbn. f_equal. by apply IH.
Qed.

(** Assignments made in the order [Object.keys] gives add each key at the
    end. *)
Lemma put_all_ordered (o kvs : list (string * value)) :
  NoDup (o.*1 ++ kvs.*1) → key_order (o.*1 ++ kvs.*1) = true →
  put_all o kvs = o ++ kvs.
Proof.
  revert o. induction kvs as [|[k v] kvs IH]; intros o Hnd Hord.
  - by rewrite app_nil_r.
  - rewrite fmap_cons in Hnd, Hord. cbn [fst] in Hnd, Hord.
    assert (Hk : k ∉ o.*1).
    { apply NoDup_app in Hnd as (_ & Hd & _). intros Hin.
      apply (Hd _ Hin). by left. }
    cbn [put_all foldl fst snd]. fold (put_all (assoc_put k v o) kvs).
    assert (assoc_put k v o = o ++ [(k, v)]) as ->.
    { unfold assoc_put. rewrite bool_decide_eq_false_2 by done.
      destruct (array_index k) as [n|] eqn:Hn; [|done].
      apply insert_index_last.
      by destruct (key_order_from_app _ _ _ _ _ _ Hord Hn). }
    rewrite IH.
    + by rewrite <- app_assoc.
    + by rewrite fmap_app, <- app_assoc.
    + by rewrite fmap_app, <- app_assoc.
Qed.

Lemma key_order_from_filter (P : string → Prop) `{∀ k, Decision (P k)}
    last names last' names' ks :
  key_order_from last names ks = true →
  (names' = true → names = true) →
  match last', last with
  | Some a, Some b => (a ≤ b)%N
  | Some _, None => False
  | None, _ => True
  end →
  key_order_from last' names' (filter P ks) = true.
Proof.
  revert last names last' names'.
  induction ks as [|k ks IH]; intros last names last' names' Hord Hn Hl; [done|].
  cbn [key_order_from] in Hord.
  destruct (array_index k) as [n|] eqn:Hk.
  - apply andb_prop in Hord as [[Hnames Hlast]%andb_prop Hord].
    assert (Hn' : names' = false).
    { destruct names'; [|done]. rewrite Hn in Hnames; done. }
    assert (Hl' : match last' with Some a => (a < n)%N | None => True end).
    { destruct last' as [a|]; [|done]. destruct last as [b|]; [|done].
      apply N.ltb_lt in Hlast. lia. }
    destruct (decide (P k)).
    + rewrite filter_cons_True by done. cbn [key_order_from]. rewrite Hk, Hn'.
      cbn [negb andb]. apply andb_true_intro. split.
      * destruct last' as [a|]; [by apply N.ltb_lt|done].
      * by apply (IH (Some n) false).
    + rewrite filter_cons_False by done.
      apply (IH (Some n) false); [done|by rewrite Hn'|].
      destruct last' as [a|]; [lia|done].
  - destruct (decide (P k)).
    + rewrite filter_cons_True by done. cbn [key_order_from]. rewrite Hk.
      by apply (IH last true).
    + rewrite filter_cons_False by done. by apply (IH last true).
Qed.

Lemma key_order_filter (P : string → Prop) `{∀ k, Decision (P k)} ks :
  key_order ks = true → key_order (filter P ks) = true.
Proof. intros Hord. by apply (key_order_from_filter P None false). Qed.

Lemma rec_set_put key v kvs w :
  key ≠ "__proto__" →
  rec_set key v (Rec (VObj ObjectPrototype) kvs) w =
  (Normal (Rec (VObj ObjectPrototype) (assoc_put key v kvs)), w).
Proof.
  intros Hk. unfold rec_set. cbn.
  destruct (String.eqb_spec key "__proto__") as [->|_]; [done|done].
Qed.

Lemma getM_eq v key w x : get (heap w) v key = Some x → getM v key w = (Normal x, w).
Proof.
  intros H. destruct v; try done;
    unfold getM, read, defined; rewrite bind_unfold; by rewrite H.
Qed.

Lemma keysM_eq v w ks : keys (heap w) v = Some ks → keysM v w = (Normal ks, w).
Proof.
  intros H. destruct v; try done;
    unfold keysM, read, defined; rewrite bind_unfold; by rewrite H.
Qed.

(** *** [bindActionCreators] *)

Lemma imap_fst {A B} (f : nat → A → B) (ks : list A) :
  (imap (λ i k, (k, f i k)) ks).*1 = ks.
Proof.
  revert f. induction ks as [|k ks IH]; intros f; [done|].
  simpl. f_equal. apply (IH (f ∘ S)).
Qed.



(** *** [combineReducers] *)

Lemma alloc_object_eq o w :
  alloc_object o w = (Normal (length (heap w)), set_heap (heap w ++ [o]) w).
Proof. done. Qed.

Lemma shape_violation_throws call reducers ks w e w' :
  shape_violation call reducers ks w e w' →
  assertReducerShape_loop INIT PROBE_UNKNOWN_ACTION call reducers ks w
  = (Thrown (VError e), w').
Proof.
  induction 1 as [key ks w w' Hi|key ks w v w1 w' Hi Hv Hp
                 |key ks w v w1 v' w2 e w' Hi Hv Hp Hv' _ IH];
    simpl; unfold init_probe, random_probe in *;
    rewrite bind_unfold, alloc_object_eq in Hi; mred in Hi;
    rewrite bind_unfold, alloc_object_eq; mred;
    rewrite bind_unfold, Hi; mred.
  - done.
  - rewrite bool_decide_eq_false_2 by (by rewrite typeof_undefined).
    rewrite bind_unfold in Hp. unfold probe at 1 in Hp. mred in Hp.
    rewrite bind_unfold, alloc_object_eq in Hp. mred in Hp.
    rewrite bind_unfold. unfold probe at 1. mred.
    rewrite bind_unfold, alloc_object_eq. mred. by rewrite bind_unfold, Hp.
  - rewrite bool_decide_eq_false_2 by (by rewrite typeof_undefined).
    rewrite bind_unfold in Hp. unfold probe at 1 in Hp. mred in Hp.
    rewrite bind_unfold, alloc_object_eq in Hp. mred in Hp.
    rewrite bind_unfold. unfold probe at 1. mred.
    rewrite bind_unfold, alloc_object_eq. mred. rewrite bind_unfold, Hp. mred.
    by rewrite bool_decide_eq_false_2 by (by rewrite typeof_undefined).
Qed.

(** Claim C6.  The reducers object yields the function-valued entries [fr].  If,
    probing them in turn, the first reducer that does not return a defined
    value returns [undefined], for the INIT action or for the random probe
    action, then [combineReducers] returns normally, and every call of the
    reducer it returns, whatever the arguments and the memory, throws the
    error [e] made for that reducer. *)
Theorem combineReducers_defers_shape_error budget reducers fr w w1 e w2 :
  (reducerKeys ← keysM reducers;
   combineReducers_loop production reducers reducerKeys []) w = (Normal fr, w1) →
  shape_violation (apply budget) fr fr.*1
    (if production then w1 else set_caches (caches w1 ++ [[]]) w1) e w2 →
  ∃ c,
    apply (S budget) (VFun FCombineReducers) [reducers] w
    = (Normal (VFun c), set_next_id (S (next_id w2)) w2) ∧
    c = FCombination (next_id w2) fr (VError e)
          (if production then None else Some (length (caches w1))) ∧
    ∀ n args w', ∃ w'', apply (S n) (VFun c) args w' = (Thrown (VError e), w'').
Proof.
  intros Hfr Hv. eexists. split; [|split; [reflexivity|]].
  - change (apply (S budget) (VFun FCombineReducers) [reducers] w)
      with (combineReducers INIT PROBE_UNKNOWN_ACTION production (apply budget)
              reducers w).
    unfold combineReducers. rewrite bind_assoc, bind_unfold, Hfr. mred.
    apply shape_violation_throws in Hv. unfold assertReducerShape.
    destruct production; cbn [negb].
    + rewrite bind_unfold. unfold mret at 1, M_ret at 1. mred.
      rewrite bind_unfold. unfold try_catch. rewrite bind_unfold, Hv. done.
    + rewrite !bind_unfold. unfold alloc_cache at 1. mred.
      unfold mret at 1, M_ret at 1. mred.
      rewrite bind_unfold. unfold try_catch. rewrite bind_unfold, Hv. done.
  - intros n args w'.
    change (apply (S n) (VFun (FCombination ?i ?f ?e ?c)) args w')
      with (combination INIT REPLACE production (apply n) f e c args w').
    unfold combination. rewrite bind_unfold.
    destruct (strict_eq (arg args 0) VUndefined).
    + rewrite bind_unfold, alloc_object_eq. mred. eauto.
    + unfold mret at 1, M_ret at 1. mred. eauto.
Qed.

(** The reducers a combined reducer holds have pairwise distinct keys, and
    none of them is [__proto__]. *)
Lemma combineReducers_from_keys reducers ks o w o' w' :
  NoDup (rprops o).*1 → "__proto__" ∉ (rprops o).*1 →
  combineReducers_from production reducers ks o w = (Normal o', w') →
  NoDup (rprops o').*1 ∧ "__proto__" ∉ (rprops o').*1.
Proof.
  revert o w. induction ks as [|key ks IH]; intros o w Hnd Hp; simpl.
  - by intros [= <- <-].
  - rewrite bind_unfold. destruct (getM reducers key w) as [[r|e|] w1]; [|done..].
    rewrite bind_unfold.
    destruct (_ : M ()) as [[[]|e|] w2] eqn:E; [|done..].
    destruct (bool_decide (typeof r = TFunction)); [|by apply IH].
    rewrite bind_unfold. unfold rec_set.
    destruct (negb (strict_eq _ _)); [by unfold diverge|].
    destruct (String.eqb_spec key "__proto__") as [->|Hne].
    + rewrite bind_unfold. unfold read at 1. cbv beta iota.
      destruct (proto_accessor _ _) as [[]|]; [|by unfold diverge..].
      destruct r; by apply IH.
    + apply IH; cbn [rprops].
      * by apply assoc_put_NoDup.
      * rewrite assoc_put_elem_of. by intros [?|?].
Qed.

Lemma combineReducers_loop_NoDup reducers ks acc w fr w' :
  NoDup acc.*1 → "__proto__" ∉ acc.*1 →
  combineReducers_loop production reducers ks acc w = (Normal fr, w') →
  NoDup fr.*1 ∧ "__proto__" ∉ fr.*1.
Proof.
  intros Hnd Hp. unfold combineReducers_loop. rewrite bind_unfold.
  destruct (combineReducers_from _ _ _ _ _) as [[o|e|] w1] eqn:E; [|done..].
  intros [= <- <-].
  by apply (combineReducers_from_keys _ _ (Rec (VObj ObjectPrototype) acc) _ _ _ Hnd Hp E).
Qed.





(** ** Further properties *)

(** *** Calls, whatever the budget *)

Lemma runs_ret v w r w' : runs (Ret v) w r w' ↔ r = Normal v ∧ w' = w.
Proof.
  split.
  - by intros [n [[= <- <-] _]].
  - intros [-> ->]. by exists 0.
Qed.

Lemma runs_call f args k w r w' :
  runs (Call f args k Throw) w r w' ↔
  (∃ v w1, evaluates f args w (Normal v) w1 ∧ runs (k v) w1 r w') ∨
  (∃ e, r = Thrown e ∧ evaluates f args w (Thrown e) w').
Proof.
  split.
  - intros [n [E Hr]]. simpl in E.
    destruct (apply n f args w) as [[v|e|] w1] eqn:Ef.
    + left. exists v, w1. split; exists n; done.
    + right. simpl in E. injection E as <- <-. exists e. split; [done|].
      by exists n.
    + by injection E as <- <-.
  - intros [(v & w1 & [n1 [E1 _]] & [n2 [E2 Hr]])|(e & -> & [n [E _]])].
    + exists (n1 `max` n2). split; [|done]. simpl.
      rewrite (refines_apply n1 (n1 `max` n2) f args (Nat.le_max_l _ _) _ _ _ E1)
        by done.
      by apply (refines_run (apply n2) _ (λ f args,
        refines_apply n2 (n1 `max` n2) f args (Nat.le_max_r _ _))).
    + exists n. split; [|done]. simpl. by rewrite E.
Qed.

Lemma runs_call_ret f args w r w' :
  runs (Call f args (pipe []) Throw) w r w' ↔ evaluates f args w r w'.
Proof.
  rewrite runs_call. split.
  - intros [(v & w1 & Hf & [-> ->]%runs_ret)|(e & -> & Hf)]; done.
  - intros [n [E Hr]]. destruct r as [v|e|]; [| |done].
    + left. exists v, w'. split; [by exists n|by apply runs_ret].
    + right. exists e. split; [done|by exists n].
Qed.

(** *** [compose] of any number of functions *)

Lemma evaluates_composed id a b args w r w' :
  evaluates (VFun (FComposed id a b)) args w r w' ↔
  runs (call_dispatch a b args) w r w'.
Proof.
  split.
  - intros [[|n] [E Hr]]; [by injection E as <- <-|].
    exists n. split; [|done]. by rewrite run_call_dispatch.
  - intros [n [E Hr]]. exists (S n). split; [|done].
    by rewrite run_call_dispatch in E.
Qed.

Lemma composed_pipe id a b ps :
  (∀ v w r w', evaluates a [v] w r w' ↔ runs (pipe ps v) w r w') →
  ∀ args w r w',
    evaluates (VFun (FComposed id a b)) args w r w' ↔
    runs (Call b args (pipe ps) Throw) w r w'.
Proof.
  intros Ha args w r w'. rewrite evaluates_composed. unfold call_dispatch.
  rewrite !runs_call. apply or_iff_compat_r.
  split; intros (v & w1 & Hb & Hk); exists v, w1; (split; [done|]).
  - apply Ha. by apply (runs_call_ret a [v]).
  - apply (runs_call_ret a [v]). by apply Ha.
Qed.

Lemma compose_reduce_world bs a w c w' :
  compose_reduce a bs w = (Normal c, w') →
  heap w' = heap w ∧ stores w' = stores w ∧ arrays w' = arrays w.
Proof.
  revert a w. induction bs as [|b bs IH]; intros a w.
  - by intros [= <- <-].
  - cbn [compose_reduce]. rewrite bind_unfold. unfold fresh_id at 1.
    cbv beta iota. by intros (? & ? & ?)%IH.
Qed.

Lemma compose_reduce_pipe bs : ∀ a ps w bn outer,
  (∀ v w r w', evaluates a [v] w r w' ↔ runs (pipe ps v) w r w') →
  rev bs = bn :: outer →
  ∃ c w', compose_reduce a bs w = (Normal c, w') ∧
    ∀ args w1 r w2,
      evaluates c args w1 r w2 ↔
      runs (Call bn args (pipe (outer ++ ps)) Throw) w1 r w2.
Proof.
  induction bs as [|b bs IH]; intros a ps w bn outer Ha Hrev; [done|].
  cbn [compose_reduce]. rewrite bind_unfold. unfold fresh_id at 1.
  cbv beta iota.
  destruct bs as [|b' bs'].
  - injection Hrev as <- <-. eexists _, _. split; [reflexivity|].
    by apply composed_pipe.
  - destruct (rev (b' :: bs')) as [|bn' outer'] eqn:Hrev'.
    { apply (f_equal length) in Hrev'. rewrite length_rev in Hrev'. done. }
    change (rev (b :: b' :: bs')) with (rev (b' :: bs') ++ [b]) in Hrev.
    rewrite Hrev' in Hrev. injection Hrev as <- <-.
    destruct (IH (VFun (FComposed (next_id w) a b)) (b :: ps)
                (set_next_id (S (next_id w)) w) bn' outer') as (c & w' & E & Hc);
      [|done|].
    { intros v w0 r w0'. by apply composed_pipe. }
    exists c, w'. split; [done|]. intros args w1 r w2.
    rewrite <- app_assoc. apply Hc.
Qed.

(** [compose(f1, ..., fn)] never fails and calls nothing.  The function it
    returns, called on any arguments in any memory, ends exactly as the
    expression [f1(f2(...fn(...args)))] does: the rightmost function gets
    all the arguments, the others one each, and an exception of any of
    them ends the call. *)
Theorem compose_pipeline budget funcs w :
  ∃ c w',
    apply (S budget) (VFun FCompose) funcs w = (Normal c, w') ∧
    heap w' = heap w ∧ stores w' = stores w ∧ arrays w' = arrays w ∧
    ∀ args w1 r w2,
      evaluates c args w1 r w2 ↔ runs (nested_call funcs args) w1 r w2.
Proof.
  change (apply (S budget) (VFun FCompose) funcs w) with (compose funcs w).
  destruct funcs as [|f [|b bs]].
  - eexists _, _. split; [reflexivity|]. do 3 (split; [done|]).
    intros args w1 r w2. unfold nested_call. cbn [rev]. rewrite runs_ret.
    split.
    + intros [[|n] [E Hr]]; by injection E as <- <-.
    + intros [-> ->]. by exists 1.
  - eexists _, _. split; [reflexivity|]. do 3 (split; [done|]).
    intros args w1 r w2. symmetry. apply runs_call_ret.
  - destruct (rev (b :: bs)) as [|bn outer] eqn:Hrev.
    { apply (f_equal length) in Hrev. rewrite length_rev in Hrev. done. }
    destruct (compose_reduce_pipe (b :: bs) f [f] w bn outer) as (c & w' & E & Hc);
      [|done|].
    { intros v w0 r w0'. symmetry. apply runs_call_ret. }
    destruct (compose_reduce_world _ _ _ _ _ E) as (? & ? & ?).
    exists c, w'. do 4 (split; [done|]).
    intros args w1 r w2. unfold nested_call.
    change (rev (f :: b :: bs)) with (rev (b :: bs) ++ [f]).
    rewrite Hrev. apply Hc.
Qed.

(** *** Calls settle the stores *)

Lemma undisturbed_refl w s : undisturbed w w s.
Proof. intros st Hs. exists st. auto 10. Qed.

Lemma undisturbed_trans w1 w2 w3 s :
  undisturbed w1 w2 s → undisturbed w2 w3 s → undisturbed w1 w3 s.
Proof.
  intros H1 H2 st Hs. destruct (H1 _ Hs) as (st2 & Hs2 & Hd2 & Ho2 & Hl2).
  destruct (H2 _ Hs2) as (st3 & Hs3 & Hd3 & Ho3 & Hl3).
  exists st3. split; [done|]. split; [congruence|]. split; [congruence|].
  intros Hd. destruct (Hl2 Hd) as (? & ? & Hn & ?).
  destruct Hl3 as (? & ? & ? & Ha); [congruence|].
  rewrite Hn in Ha. repeat split; congruence.
Qed.

Lemma settled_refl w : settled w w.
Proof.
  split; [intros s; apply undisturbed_refl|].
  intros s st Hs Hle. apply lookup_lt_Some in Hs. lia.
Qed.

Lemma settled_trans w1 w2 w3 : settled w1 w2 → settled w2 w3 → settled w1 w3.
Proof.
  intros [H1 N1] [H2 N2]. split.
  - intros s. eapply undisturbed_trans; eauto.
  - intros s st3 Hs3 Hle.
    destruct (stores w2 !! s) as [st2|] eqn:Hs2.
    + destruct (H2 s _ Hs2) as (st3' & Hs3' & Hd & _).
      rewrite Hs3 in Hs3'. injection Hs3' as <-. rewrite Hd. eauto.
    + apply N2 with s; [done|]. apply lookup_ge_None in Hs2. done.
Qed.

Lemma settled_same w w' :
  stores w' = stores w → arrays w' = arrays w → settled w w'.
Proof.
  intros Hs Ha. split.
  - intros s st Hst. exists st. rewrite Hs, Ha. auto 10.
  - intros s st Hst Hle. rewrite Hs in Hst. apply lookup_lt_Some in Hst. lia.
Qed.

Lemma unlocked_settled s w w' : unlocked s w → settled w w' → unlocked s w'.
Proof.
  intros (st & Hs & Hd) [H _]. destruct (H s _ Hs) as (st' & Hs' & Hd' & _).
  exists st'. split; [done|congruence].
Qed.

Lemma wf_same_shape w w' :
  stores w' = stores w → length (arrays w') = length (arrays w) → wf w → wf w'.
Proof. intros Hs Ha Hw s st. rewrite Hs, Ha. apply Hw. Qed.

Lemma wf_alter w s f :
  (∀ st, nextListeners (f st) = nextListeners st) →
  wf w → wf (set_stores (alter f s (stores w)) w).
Proof.
  intros Hf Hw s1 st1 H1. simpl in *.
  apply lookup_alter_Some in H1 as (x1 & Hx1 & Hc1).
  assert (nextListeners st1 = nextListeners x1) as ->
    by (destruct Hc1 as [[_ ->]|[_ ->]]; auto).
  destruct (Hw _ _ Hx1) as [Hlt Huniq]. split; [done|].
  intros s2 st2 H2 Heq.
  apply lookup_alter_Some in H2 as (x2 & Hx2 & Hc2).
  apply (Huniq s2 x2 Hx2). rewrite <- Heq.
  destruct Hc2 as [[_ ->]|[_ ->]]; auto.
Qed.

(** **** Computations that leave stores and arrays alone *)

Lemma inert_ret {A} (a : A) : inert (mret a).
Proof. by intros w r w' [= <- <-]. Qed.

Lemma inert_throw {A} e : inert (throw (A:=A) e).
Proof. by intros w r w' [= <- <-]. Qed.

Lemma inert_throw_error {A} e : inert (throw_error (A:=A) e).
Proof. apply inert_throw. Qed.

Lemma inert_diverge {A} : inert (diverge (A:=A)).
Proof. by intros w r w' [= <- <-]. Qed.

Lemma inert_read {A} (f : world → A) : inert (read f).
Proof. by intros w r w' [= <- <-]. Qed.

Lemma inert_defined {A} (o : option A) : inert (defined o).
Proof. destruct o; [apply inert_ret|apply inert_diverge]. Qed.

Lemma inert_bind {A B} (m : M A) (k : A → M B) :
  inert m → (∀ a, inert (k a)) → inert (m ≫= k).
Proof.
  intros Hm Hk w r w'. rewrite bind_unfold.
  destruct (m w) as [[a|e|] w1] eqn:E; destruct (Hm _ _ _ E) as [Hs Ha].
  - intros [Hs' Ha']%Hk. split; congruence.
  - by intros [= <- <-].
  - by intros [= <- <-].
Qed.

Lemma inert_step {A} (m : M A) :
  (∀ w, ∃ a w', m w = (Normal a, w') ∧ stores w' = stores w ∧ arrays w' = arrays w) →
  inert m.
Proof.
  intros H w r w' E. destruct (H w) as (a & w1 & E1 & ? & ?).
  rewrite E1 in E. by injection E as <- <-.
Qed.

Create HintDb inert.

#[local] Hint Resolve inert_ret inert_throw inert_throw_error inert_diverge
  inert_read inert_defined : inert.

Lemma inert_get_store s : inert (get_store s).
Proof. unfold get_store. apply inert_bind; auto with inert. Qed.

Lemma inert_read_array r : inert (read_array r).
Proof. unfold read_array. apply inert_bind; auto with inert. Qed.

Lemma inert_read_cell c : inert (read_cell c).
Proof. unfold read_cell. apply inert_bind; auto with inert. Qed.

Lemma inert_read_cache c : inert (read_cache c).
Proof. unfold read_cache. apply inert_bind; auto with inert. Qed.

Lemma inert_write_cell c b : inert (write_cell c b).
Proof. apply inert_step. intros w. by eexists _, _. Qed.

Lemma inert_write_cache c ks : inert (write_cache c ks).
Proof. apply inert_step. intros w. by eexists _, _. Qed.

Lemma inert_warn msg : inert (warn msg).
Proof. apply inert_step. intros w. by eexists _, _. Qed.

Lemma inert_alloc_object o : inert (alloc_object o).
Proof. apply inert_step. intros w. by eexists _, _. Qed.

Lemma inert_alloc_cell b : inert (alloc_cell b).
Proof. apply inert_step. intros w. by eexists _, _. Qed.

Lemma inert_alloc_cache : inert alloc_cache.
Proof. apply inert_step. intros w. by eexists _, _. Qed.

Lemma inert_fresh_id : inert fresh_id.
Proof. apply inert_step. intros w. by eexists _, _. Qed.

Lemma inert_probe PROBE : inert (probe PROBE).
Proof. apply inert_step. intros w. by eexists _, _. Qed.

Lemma inert_isPlainObjectM v : inert (isPlainObjectM v).
Proof. unfold isPlainObjectM. apply inert_bind; auto with inert. Qed.

Lemma inert_getM v key : inert (getM v key).
Proof. unfold getM. destruct v; auto with inert; apply inert_bind; auto with inert. Qed.

Lemma inert_keysM v : inert (keysM v).
Proof. unfold keysM. destruct v; auto with inert; apply inert_bind; auto with inert. Qed.

#[local] Hint Resolve inert_get_store inert_read_array inert_read_cell
  inert_read_cache inert_write_cell inert_write_cache inert_warn
  inert_alloc_object inert_alloc_cell inert_alloc_cache inert_fresh_id
  inert_probe inert_isPlainObjectM inert_getM inert_keysM : inert.

Ltac inert_step :=
  match goal with
  | |- inert (mbind _ _) => apply inert_bind; [|intros ?]
  | |- inert (if ?b then _ else _) => destruct b
  | |- inert (match ?x with _ => _ end) => destruct x
  | |- inert _ => solve [auto with inert]
  end.

Ltac solve_inert := repeat inert_step.

Lemma inert_getState s : inert (getState s).
Proof. unfold getState. solve_inert. Qed.

Lemma inert_compose_reduce a funcs : inert (compose_reduce a funcs).
Proof. revert a. induction funcs; intros a'; simpl; solve_inert. Qed.

Lemma inert_compose funcs : inert (compose funcs).
Proof.
  unfold compose. pose proof inert_compose_reduce.
  destruct funcs as [|f [|g funcs]]; solve_inert.
Qed.

Lemma inert_rec_set key v o : inert (rec_set key v o).
Proof. unfold rec_set. solve_inert. Qed.

Lemma inert_alloc_record o : inert (alloc_record o).
Proof. unfold alloc_record. solve_inert. Qed.

Lemma inert_to_String v : inert (to_String v).
Proof. unfold to_String. solve_inert. Qed.

Lemma inert_cached c key : inert (cached c key).
Proof. unfold cached. solve_inert. Qed.

#[local] Hint Resolve inert_rec_set inert_alloc_record inert_to_String
  inert_cached : inert.

Lemma inert_bind_loop actionCreators dispatch ks acc :
  inert (bind_loop actionCreators dispatch ks acc).
Proof.
  revert acc. induction ks; intros acc; simpl; unfold bindActionCreator;
    solve_inert.
Qed.

Lemma inert_bindActionCreators actionCreators dispatch :
  inert (bindActionCreators actionCreators dispatch).
Proof.
  unfold bindActionCreators, bindActionCreator.
  pose proof inert_bind_loop. solve_inert.
Qed.

Lemma inert_action_has_type action t : inert (action_has_type action t).
Proof. unfold action_has_type. solve_inert. Qed.

Lemma inert_combineReducers_from reducers ks finalReducers :
  inert (combineReducers_from production reducers ks finalReducers).
Proof. revert finalReducers. induction ks; intros fr; simpl; solve_inert. Qed.

Lemma inert_combineReducers_loop reducers ks finalReducers :
  inert (combineReducers_loop production reducers ks finalReducers).
Proof.
  unfold combineReducers_loop. pose proof inert_combineReducers_from. solve_inert.
Qed.

#[local] Hint Resolve inert_action_has_type : inert.

(** **** Computations that settle the stores *)

Lemma steady_inert {A} (m : M A) : inert m → steady m.
Proof.
  intros H w r w' Hw E _. destruct (H _ _ _ E) as [Hs Ha].
  split; [by eapply same_lists|by apply settled_same].
Qed.

Lemma steady_bind {A B} (m : M A) (k : A → M B) :
  steady m → (∀ a, steady (k a)) → steady (m ≫= k).
Proof.
  intros Hm Hk w r w' Hw. rewrite bind_unfold.
  destruct (m w) as [[a|e|] w1] eqn:E.
  - intros E' Hr. destruct (Hm _ _ _ Hw E) as [Hw1 H1]; [done|].
    destruct (Hk _ _ _ _ Hw1 E' Hr). eauto using settled_trans.
  - intros [= <- <-] _. by apply (Hm _ _ _ Hw E).
  - by intros [= <- <-].
Qed.

Lemma steady_try_catch {A} (m : M A) handler :
  steady m → (∀ e, steady (handler e)) → steady (try_catch m handler).
Proof.
  intros Hm Hh w r w' Hw. unfold try_catch.
  destruct (m w) as [[a|e|] w1] eqn:E.
  - intros [= <- <-] _. by apply (Hm _ _ _ Hw E).
  - intros E' Hr. destruct (Hm _ _ _ Hw E) as [Hw1 H1]; [done|].
    destruct (Hh _ _ _ _ Hw1 E' Hr). eauto using settled_trans.
  - by intros [= <- <-].
Qed.

Lemma quiet_steady {A} s (m : M A) : steady m → quiet s m.
Proof. intros H w r w' Hw _. by apply H. Qed.

Lemma quiet_bind {A B} s (m : M A) (k : A → M B) :
  quiet s m → (∀ a, quiet s (k a)) → quiet s (m ≫= k).
Proof.
  intros Hm Hk w r w' Hw Hu. rewrite bind_unfold.
  destruct (m w) as [[a|e|] w1] eqn:E.
  - intros E' Hr. destruct (Hm _ _ _ Hw Hu E) as [Hw1 H1]; [done|].
    destruct (Hk _ _ _ _ Hw1 (unlocked_settled _ _ _ Hu H1) E' Hr).
    eauto using settled_trans.
  - intros [= <- <-] _. by apply (Hm _ _ _ Hw Hu E).
  - by intros [= <- <-].
Qed.

(** Past the test of [isDispatching], the store is not dispatching. *)
Lemma steady_guard {A} s e (k : M A) :
  quiet s k →
  steady (st ← get_store s; if isDispatching st then throw_error e else k).
Proof.
  intros Hk w r w' Hw. rewrite bind_unfold.
  destruct (stores w !! s) as [st|] eqn:Hs.
  - rewrite (get_store_eq _ _ _ Hs). cbv beta iota.
    destruct (isDispatching st) eqn:Hd.
    + intros [= <- <-] _. auto using settled_refl.
    + apply Hk; [done|]. by exists st.
  - rewrite (get_store_none _ _ Hs). by intros [= <- <-].
Qed.

(** A step that changes the variables of one store, not dispatching, and
    no pending list of another store. *)
Lemma settled_one_store w w' s :
  wf w → unlocked s w →
  length (stores w') = length (stores w) →
  (∀ s', s' ≠ s → stores w' !! s' = stores w !! s') →
  (∀ st, stores w !! s = Some st →
     ∃ st', stores w' !! s = Some st' ∧
       isDispatching st' = isDispatching st ∧ store st' = store st) →
  (∀ s' st', s' ≠ s → stores w !! s' = Some st' →
     arrays w' !! nextListeners st' = arrays w !! nextListeners st') →
  settled w w'.
Proof.
  intros Hw (st & Hs & Hd) Hlen Hother Hself Harr. split.
  - intros s' st' Hs'. destruct (decide (s' = s)) as [->|Hne].
    + rewrite Hs in Hs'. injection Hs' as <-.
      destruct (Hself _ Hs) as (st' & Hs' & ? & ?).
      exists st'. do 3 (split; [done|]). congruence.
    + exists st'. rewrite Hother by done. do 3 (split; [done|]).
      intros _. do 3 (split; [done|]). by apply (Harr s').
  - intros s' st' Hs' Hle. apply lookup_lt_Some in Hs'. lia.
Qed.

Lemma quiet_ensureCanMutateNextListeners s :
  quiet s (ensureCanMutateNextListeners s).
Proof.
  intros w r w' Hw Hu E Hr.
  split; [by eapply (triple_safe _ _ (triple_ensureCanMutateNextListeners s))|].
  destruct Hu as (st & Hs & Hd).
  destruct (decide (currentListeners st = Some (nextListeners st))) as [Hc|Hc].
  - destruct (Hw _ _ Hs) as [Hlt _].
    destruct (lookup_lt_is_Some_2 _ _ Hlt) as [xs Hxs].
    rewrite (ensure_shared _ _ _ _ Hs Hc Hxs) in E. injection E as <- <-.
    apply (settled_one_store _ _ s); simpl; try done.
    + by exists st.
    + by rewrite length_alter.
    + intros s' Hne. by rewrite list_lookup_alter_ne.
    + intros st0 Hs0. rewrite (alter_lookup_Some _ _ _ _ Hs0). eauto.
    + intros s' st' _ Hs'. destruct (Hw _ _ Hs') as [Hlt' _].
      by apply lookup_app_l.
  - rewrite (ensure_private _ _ _ Hs Hc) in E. injection E as <- <-.
    apply settled_refl.
Qed.

(** A write to the pending list of store [s]. *)
Lemma quiet_write_pending {A} s (g : list value → list value) (k : M A) :
  quiet s k →
  quiet s (st ← get_store s;
           xs ← read_array (nextListeners st);
           write_array (nextListeners st) (g xs);; k).
Proof.
  intros Hk w r w' Hw Hu. destruct Hu as (st & Hs & Hd).
  rewrite bind_unfold, (get_store_eq _ _ _ Hs). cbv beta iota.
  rewrite bind_unfold.
  destruct (arrays w !! nextListeners st) as [xs|] eqn:Hxs.
  2: { unfold read_array, read, defined. rewrite bind_unfold. cbv beta iota.
       rewrite Hxs. by intros [= <- <-]. }
  rewrite (read_array_eq _ _ _ Hxs). cbv beta iota.
  rewrite bind_unfold. unfold write_array at 1, modify at 1. cbv beta iota.
  intros E Hr.
  match type of E with k ?w0 = _ =>
    assert (wf w0 ∧ settled w w0) as [Hw1 H1] end.
  { split.
    - apply (wf_same_shape w); [done| |done]. simpl. by rewrite length_insert.
    - apply (settled_one_store _ _ s); simpl; try done.
      + by exists st.
      + eauto.
      + intros s' st' Hne Hs'. apply list_lookup_insert_ne.
        intros Heq. destruct (Hw _ _ Hs) as [_ Huniq]. destruct Hne.
        symmetry in Heq. eauto. }
  destruct (Hk _ _ _ Hw1 (unlocked_settled _ _ _ (ex_intro _ st (conj Hs Hd)) H1) E Hr).
  eauto using settled_trans.
Qed.

(** An assignment to a variable of a store that is not dispatching. *)
Lemma quiet_update_store s f :
  (∀ st, nextListeners (f st) = nextListeners st ∧
         isDispatching (f st) = isDispatching st ∧ store (f st) = store st) →
  quiet s (update_store s f).
Proof.
  intros Hf w r w' Hw Hu [= <- <-] _. split.
  - apply wf_alter; [|done]. intros st. apply Hf.
  - apply (settled_one_store _ _ s); simpl; try done.
    + by rewrite length_alter.
    + intros s' Hne. by rewrite list_lookup_alter_ne.
    + intros st Hs. rewrite (alter_lookup_Some _ _ _ _ Hs).
      exists (f st). split; [done|]. apply Hf.
Qed.

(** An assignment to [currentReducer], whatever the store is doing. *)
Lemma steady_set_currentReducer s v : steady (update_store s (set_currentReducer v)).
Proof.
  intros w r w' Hw [= <- <-] _. split; [by apply wf_alter|]. split.
  - intros s' st' Hs'. simpl. destruct (decide (s' = s)) as [->|Hne].
    + rewrite (alter_lookup_Some _ _ _ _ Hs'). eexists. split; [done|].
      simpl. auto 10.
    + rewrite list_lookup_alter_ne by done. exists st'. auto 10.
  - intros s' st' Hs' Hle. simpl in Hs'. apply lookup_lt_Some in Hs'.
    rewrite length_alter in Hs'. lia.
Qed.

Lemma steady_subscribe s listener : steady (subscribe s listener).
Proof.
  unfold subscribe. case_match; [apply steady_inert; auto with inert|].
  apply steady_guard.
  apply quiet_bind; [apply quiet_steady, steady_inert; auto with inert|].
  intros c.
  apply quiet_bind; [apply quiet_ensureCanMutateNextListeners|]. intros [].
  apply (quiet_write_pending s (λ xs, xs ++ [listener])).
  apply quiet_steady, steady_inert; auto with inert.
Qed.

Lemma steady_unsubscribe s listener c : steady (unsubscribe s listener c).
Proof.
  unfold unsubscribe.
  apply steady_bind; [apply steady_inert; auto with inert|]. intros b.
  case_match; [apply steady_inert; auto with inert|].
  apply steady_guard.
  apply quiet_bind; [apply quiet_steady, steady_inert; auto with inert|].
  intros [].
  apply quiet_bind; [apply quiet_ensureCanMutateNextListeners|]. intros [].
  apply (quiet_write_pending s (λ xs, splice1 xs (indexOf xs listener))).
  apply quiet_bind; [by apply quiet_update_store|]. intros [].
  apply quiet_steady, steady_inert; auto with inert.
Qed.

Lemma getM_normal v key w t w' :
  getM v key w = (Normal t, w') → get (heap w) v key = Some t.
Proof.
  destruct v; unfold getM, throw_error, throw, read, defined;
    rewrite ?bind_unfold; cbv beta iota; try done;
    case_match; by intros [= <- <-].
Qed.

(** [dispatch] either throws at one of its guards, with the memory as it
    was, or gets to call the reducer. *)
Lemma dispatch_outcome call budget s action w r w' :
  dispatch call budget s action w = (r, w') → r ≠ Diverged →
  (∃ e, r = Thrown e ∧ w' = w) ∨
  (∃ st t, stores w !! s = Some st ∧ isDispatching st = false ∧
     isPlainObject (heap w) action = Some true ∧
     get (heap w) action "type" = Some t ∧ t ≠ VUndefined).
Proof.
  unfold dispatch. unfold isPlainObjectM, read, defined. rewrite !bind_unfold. mred.
  destruct (isPlainObject (heap w) action) as [[|]|] eqn:Hp; mred.
  2: { intros [= <- <-] _. left. eauto. }
  2: { by intros [= <- <-]. }
  unfold mret at 1, M_ret at 1. mred. rewrite bind_unfold.
  destruct (getM action "type" w) as [[ty|e|] w0] eqn:Eg;
    apply getM_world in Eg as Hw0; subst w0.
  2: { intros [= <- <-] _. left. eauto. }
  2: { by intros [= <- <-]. }
  case_bool_decide as Hty; [intros [= <- <-] _; left; eauto|].
  rewrite bind_unfold.
  destruct (stores w !! s) as [st|] eqn:Hs.
  2: { rewrite (get_store_none _ _ Hs). by intros [= <- <-]. }
  rewrite (get_store_eq _ _ _ Hs). mred.
  destruct (isDispatching st) eqn:Hd; [intros [= <- <-] _; left; eauto|].
  intros _ _. right. exists st, ty. do 3 (split; [done|]).
  split; [by eapply getM_normal|]. intros ->. by destruct Hty.
Qed.

(** From before a dispatch of store [s] to the moment its reducer is done:
    what the reducer's call leaves settled stays so when the flag of [s] is
    cleared again. *)
Lemma settled_dispatch w s st w1 f :
  stores w !! s = Some st → isDispatching st = false →
  settled (begin_dispatch s w) w1 →
  (∀ st1, isDispatching (f st1) = false ∧ store (f st1) = store st1) →
  settled w (set_stores (alter f s (stores w1)) w1).
Proof.
  intros Hs Hd [H1 N1] Hf. split.
  - intros s' st' Hs'. destruct (decide (s' = s)) as [->|Hne].
    + rewrite Hs in Hs'. injection Hs' as <-.
      destruct (H1 s (set_isDispatching true st)) as (st1 & Hs1 & _ & Ho1 & _).
      { simpl. by apply alter_lookup_Some. }
      exists (f st1). simpl. rewrite (alter_lookup_Some _ _ _ _ Hs1).
      destruct (Hf st1) as [-> ->]. split; [done|]. split; [done|].
      split; [done|]. congruence.
    + destruct (H1 s' st') as (st1 & Hs1 & ? & ? & Hl).
      { simpl. by rewrite list_lookup_alter_ne. }
      exists st1. simpl. rewrite list_lookup_alter_ne by done. auto.
  - intros s' x Hx Hle. simpl in Hx.
    assert (s' ≠ s) by (apply lookup_lt_Some in Hs; lia).
    rewrite list_lookup_alter_ne in Hx by done.
    apply (N1 s'); [done|]. simpl. by rewrite length_alter.
Qed.

(** From before [createStore] to after it: the store it makes is new. *)
Lemma settled_new_store w wa wb w' st0 f :
  wf w →
  stores wa = stores w ++ [st0] → isDispatching st0 = false →
  (∀ r, r < length (arrays w) → arrays wa !! r = arrays w !! r) →
  settled wa wb →
  stores w' = alter f (length (stores w)) (stores wb) →
  (∀ st, isDispatching (f st) = isDispatching st) →
  arrays w' = arrays wb →
  settled w w'.
Proof.
  intros Hw Hsa Hd0 Haa [H1 N1] Hs' Hf Ha'. split.
  - intros s st Hs. apply lookup_lt_Some in Hs as Hlt.
    destruct (H1 s st) as (st1 & Hs1 & ? & ? & Hl).
    { rewrite Hsa. by apply lookup_app_l_Some. }
    exists st1. rewrite Hs', Ha', list_lookup_alter_ne by lia.
    do 3 (split; [done|]). intros Hd. destruct (Hl Hd) as (? & ? & ? & Harr).
    do 3 (split; [done|]). rewrite Harr. apply Haa. by apply (Hw _ _ Hs).
  - intros s x Hx Hle. rewrite Hs' in Hx.
    destruct (decide (s = length (stores w))) as [->|Hne].
    + apply lookup_alter_Some in Hx as (y & Hy & [[_ ->]|[? _]]); [|done].
      rewrite Hf. destruct (H1 (length (stores w)) st0) as (y' & Hy' & Hd' & _).
      { rewrite Hsa. by apply list_lookup_middle. }
      congruence.
    + rewrite list_lookup_alter_ne in Hx by done.
      apply (N1 s); [done|]. rewrite Hsa, length_app. simpl. lia.
Qed.

Create HintDb steady.

#[local] Hint Resolve steady_subscribe steady_unsubscribe
  steady_set_currentReducer : steady.

Section Settling.

Variable call : value → list value → M value.
Hypothesis call_safe : ∀ f args, safe (call f args).
Hypothesis call_steady : ∀ f args, steady (call f args).

#[local] Hint Resolve call_safe : safe.
#[local] Hint Resolve call_steady : steady.

Ltac steady_step :=
  match goal with
  | |- steady (mbind _ _) => apply steady_bind; [|intros ?]
  | |- steady (try_catch _ _) => apply steady_try_catch; [|intros ?]
  | |- steady (if ?b then _ else _) => destruct b
  | |- steady (match ?x with _ => _ end) => destruct x
  | |- steady _ => solve [auto with steady]
  | |- steady _ => solve [apply steady_inert; solve_inert]
  end.

Ltac solve_steady := repeat steady_step.

Lemma steady_run p : steady (run call p).
Proof.
  induction p as [v|v|f args k IHk handler IHh|k IH|h k IH]; intros w r w' Hw; simpl.
  - intros [= <- <-] _. auto using settled_refl.
  - intros [= <- <-] _. auto using settled_refl.
  - destruct (call f args w) as [[v|e|] w1] eqn:E.
    + intros E' Hr. destruct (call_steady _ _ _ _ _ Hw E) as [Hw1 H1]; [done|].
      destruct (IHk _ _ _ _ Hw1 E' Hr). eauto using settled_trans.
    + intros E' Hr. destruct (call_steady _ _ _ _ _ Hw E) as [Hw1 H1]; [done|].
      destruct (IHh _ _ _ _ Hw1 E' Hr). eauto using settled_trans.
    + by intros [= <- <-].
  - by apply IH.
  - intros E Hr.
    assert (wf (set_heap h w) ∧ keeps w (set_heap h w)) as [Hw1 _]
      by (by apply same_lists).
    destruct (IH _ _ _ Hw1 E Hr) as [? H1]. split; [done|].
    eapply settled_trans; [|exact H1]. by apply settled_same.
Qed.

Lemma steady_notify budget listeners i : steady (notify call budget listeners i).
Proof.
  revert i. induction budget as [|budget IH]; intros i; simpl; solve_steady.
Qed.

Lemma steady_dispatch budget s action : steady (dispatch call budget s action).
Proof.
  intros w r w' Hw E Hr. split; [by eapply safe_dispatch|].
  destruct (dispatch_outcome _ _ _ _ _ _ _ E Hr)
    as [(e & -> & ->)|(st & t & Hs & Hd & Hp & Hg & Ht)]; [apply settled_refl|].
  rewrite (dispatch_reducer _ _ _ _ _ _ _ call_safe Hw Hs Hd Hp Hg Ht) in E.
  assert (Hwb : wf (begin_dispatch s w)) by (by apply wf_alter).
  destruct (call _ _ (begin_dispatch s w)) as [[next|e|] w1] eqn:Ec.
  - destruct (call_steady _ _ _ _ _ Hwb Ec) as [Hw1 H1]; [done|].
    destruct (stores w1 !! s) as [st1|] eqn:Hs1; [|by injection E as <- <-].
    assert (Hwc : wf (commit_dispatch s next w1)) by (by apply wf_alter).
    assert (Hc : settled w (commit_dispatch s next w1))
      by (by eapply settled_dispatch).
    destruct (notify _ _ _ _ _) as [[[]|e|] w2] eqn:En; injection E as <- <-;
      try done;
      destruct (steady_notify _ _ _ _ _ _ Hwc En) as [_ H2]; try done;
      eauto using settled_trans.
  - injection E as <- <-.
    destruct (call_steady _ _ _ _ _ Hwb Ec) as [Hw1 H1]; [done|].
    by eapply settled_dispatch.
  - by injection E as <- <-.
Qed.

#[local] Hint Resolve steady_dispatch : steady.

Lemma steady_replaceReducer budget s nextReducer :
  steady (replaceReducer REPLACE call budget s nextReducer).
Proof. unfold replaceReducer. solve_steady. Qed.

Lemma steady_new_store budget reducer preloadedState :
  steady (listeners ← alloc_array [];
          s ← alloc_store
                (StoreVars reducer preloadedState (Some listeners) listeners false None);
          a ← alloc_object (literal [("type", VStr INIT)]);
          dispatch call budget s (VObj a);;
          o ← alloc_object (store_object OBSERVABLE s);
          update_store s (set_store (Some o));;
          mret (VObj o)).
Proof.
  intros w r w' Hw E Hr. split.
  { revert E. apply (safe_new_store reducer preloadedState); [|done].
    intros s. pose proof (safe_dispatch call call_safe). solve_safe. }
  rewrite !bind_unfold in E. unfold alloc_array at 1 in E. cbv beta iota in E.
  rewrite bind_unfold in E. unfold alloc_store at 1 in E. cbv beta iota in E.
  rewrite bind_unfold in E. unfold alloc_object at 1 in E. cbv beta iota in E.
  rewrite bind_unfold in E.
  match type of E with context [dispatch call budget _ _ ?w0] => set (wa := w0) in * end.
  assert (Hwa : wf wa).
  { apply (safe_new_store reducer preloadedState
             (λ s, alloc_object (literal [("type", VStr INIT)]))
             (λ s, safe_alloc_object _) w (Normal (length (heap w))) wa Hw eq_refl). }
  assert (Hsa : stores wa = stores w ++
            [StoreVars reducer preloadedState (Some (length (arrays w)))
               (length (arrays w)) false None]) by done.
  assert (Haa : ∀ r, r < length (arrays w) → arrays wa !! r = arrays w !! r).
  { intros r0 Hr0. simpl. by apply lookup_app_l. }
  destruct (dispatch call budget _ _ wa) as [[v|e|] wb] eqn:Ed.
  - destruct (steady_dispatch _ _ _ _ _ _ Hwa Ed) as [Hwb H1]; [done|].
    rewrite bind_unfold in E. unfold alloc_object at 1 in E. cbv beta iota in E.
    rewrite bind_unfold, update_store_eq in E. cbv beta iota in E.
    injection E as <- <-.
    by eapply (settled_new_store w wa wb _ _ (set_store _)).
  - injection E as <- <-.
    destruct (steady_dispatch _ _ _ _ _ _ Hwa Ed) as [Hwb H1]; [done|].
    eapply (settled_new_store w wa wb _ _ id); try done.
    by rewrite list_alter_id.
  - by injection E as <- <-.
Qed.

Lemma steady_createStore budget args : steady (createStore INIT OBSERVABLE call budget args).
Proof.
  unfold createStore.
  repeat first [simple apply steady_new_store | steady_step].
Qed.

Lemma steady_composed a b args : steady (composed call a b args).
Proof. unfold composed. solve_steady. Qed.

Lemma steady_bound actionCreator dispatch args :
  steady (bound call actionCreator dispatch args).
Proof. unfold bound. solve_steady. Qed.

Lemma steady_assertReducerShape_loop reducers ks :
  steady (assertReducerShape_loop INIT PROBE_UNKNOWN_ACTION call reducers ks).
Proof. induction ks; simpl; solve_steady. Qed.

Lemma steady_combineReducers reducers :
  steady (combineReducers INIT PROBE_UNKNOWN_ACTION production call reducers).
Proof.
  unfold combineReducers, assertReducerShape.
  pose proof inert_combineReducers_loop. pose proof steady_assertReducerShape_loop.
  apply steady_bind; [apply steady_inert; solve_inert|]. intros ks.
  apply steady_bind; [by apply steady_inert|]. intros fr.
  solve_steady.
Qed.

Lemma steady_hasOwnProperty reducers key : steady (hasOwnProperty call reducers key).
Proof. unfold hasOwnProperty. solve_steady. Qed.

Lemma steady_unexpected_keys reducers c ks :
  steady (unexpected_keys call reducers c ks).
Proof. pose proof steady_hasOwnProperty. induction ks; simpl; solve_steady. Qed.

Lemma steady_warn_unexpected_state_shape fr c state action :
  steady (warn_unexpected_state_shape INIT REPLACE production call fr c state action).
Proof.
  unfold warn_unexpected_state_shape, getUnexpectedStateShapeWarningMessage.
  pose proof steady_unexpected_keys. solve_steady.
Qed.

Lemma steady_combination_loop finalReducers ks state action hasChanged nextState :
  steady (combination_loop call finalReducers ks state action hasChanged nextState).
Proof.
  revert hasChanged nextState. induction ks; intros hc ns; simpl; solve_steady.
Qed.

Lemma steady_combination finalReducers shapeAssertionError unexpectedKeyCache args :
  steady (combination INIT REPLACE production call finalReducers shapeAssertionError
            unexpectedKeyCache args).
Proof.
  unfold combination.
  pose proof steady_warn_unexpected_state_shape. pose proof steady_combination_loop.
  apply steady_bind; [solve_steady|]. intros state.
  destruct (truthy shapeAssertionError); [solve_steady|].
  apply steady_bind; [done|]. intros [].
  solve_steady.
Qed.

End Settling.

Lemma steady_apply budget f args : steady (apply budget f args).
Proof.
  revert f args. induction budget as [|budget IH]; intros f args; simpl.
  - by intros w r w' _ [= <- <-].
  - pose proof (safe_apply budget) as Hsafe.
    destruct f as [| | | | | | | |[]]; try solve [apply steady_inert; auto with inert].
    + by apply steady_run.
    + by apply steady_createStore.
    + apply steady_inert, inert_getState.
    + apply steady_subscribe.
    + by apply steady_dispatch.
    + by apply steady_replaceReducer.
    + apply steady_unsubscribe.
    + apply steady_inert, inert_compose.
    + by apply steady_composed.
    + by apply steady_combineReducers.
    + by apply steady_combination.
    + apply steady_inert, inert_bindActionCreators.
    + by apply steady_bound.
Qed.

(** Every call that ends, by returning or by throwing, leaves the stores
    settled: each store has the [isDispatching] flag it had and is bound to
    the same store object; a store that was running its reducer when the
    call began still has the same state and the same two listener lists,
    the pending one holding the same listeners; and the stores created
    meanwhile are not dispatching. *)
Theorem calls_settle budget f args w r w' :
  wf w → apply budget f args w = (r, w') → r ≠ Diverged → settled w w'.
Proof. intros Hw E Hr. by destruct (steady_apply _ _ _ _ _ _ Hw E Hr). Qed.

(** *** The store methods *)

(** An object literal made on top of a heap whose [Object.prototype] is in
    place is a plain object, and its own properties read back. *)
Lemma literal_plain h kvs :
  getPrototypeOf h ObjectPrototype = Some None →
  isPlainObject (h ++ [literal kvs]) (VObj (length h)) = Some true.
Proof.
  intros Hroot. unfold getPrototypeOf in Hroot.
  destruct (h !! ObjectPrototype) as [o0|] eqn:H0; [|done].
  injection Hroot as Hp0.
  assert (Ht : terminal (h ++ [literal kvs]) (length h) ObjectPrototype).
  { exists 1. eapply hops_S.
    - by apply list_lookup_middle.
    - done.
    - eapply hops_O; [|done]. by apply lookup_app_l_Some. }
  unfold isPlainObject. cbn [typeof strict_eq negb orb].
  rewrite bool_decide_eq_true_2 by done. cbn [negb orb].
  rewrite (proto_loop_enough _ _ _ Ht). unfold getPrototypeOf, JS.heap.
  by rewrite (list_lookup_middle h [] (literal kvs) (length h) eq_refl).
Qed.

Lemma literal_get h key v :
  get (h ++ [literal [(key, v)]]) (VObj (length h)) key = Some v.
Proof.
  unfold get, proto_accessor. cbn [get_loop defines_loop]. unfold JS.heap.
  rewrite (list_lookup_middle h [] (literal [(key, v)]) (length h) eq_refl).
  destruct (String.eqb_spec key "__proto__") as [->|_]; cbn;
    by rewrite ?String.eqb_refl.
Qed.

Lemma dispatch_locked call budget s st w action t :
  stores w !! s = Some st → isDispatching st = true →
  isPlainObject (heap w) action = Some true →
  get (heap w) action "type" = Some t → t ≠ VUndefined →
  dispatch call budget s action w = (Thrown (VError ErrReducersMayNotDispatch), w).
Proof.
  intros Hs Hd Hp Hg Ht. unfold dispatch.
  rewrite bind_unfold, (isPlainObjectM_eq _ _ _ Hp). mred.
  rewrite bind_unfold, (getM_plain _ _ _ Hp Hg). mred.
  case_bool_decide as Hty; [by apply typeof_undefined in Hty|].
  rewrite bind_unfold, (get_store_eq _ _ _ Hs). mred. by rewrite Hd.
Qed.

(** While store [s] runs its reducer, [getState], [subscribe], a live
    [unsubscribe] and [dispatch] all throw, each its own error, and leave
    the memory as it is; an [unsubscribe] that has already been used
    returns as usual. *)
Theorem store_locked_while_reducing s st w :
  stores w !! s = Some st → isDispatching st = true →
  getState s w = (Thrown (VError ErrGetStateWhileDispatching), w) ∧
  (∀ listener, typeof listener = TFunction →
     subscribe s listener w = (Thrown (VError ErrSubscribeWhileDispatching), w)) ∧
  (∀ listener c, cells w !! c = Some true →
     unsubscribe s listener c w
     = (Thrown (VError ErrUnsubscribeWhileDispatching), w)) ∧
  (∀ listener c, cells w !! c = Some false →
     unsubscribe s listener c w = (Normal VUndefined, w)) ∧
  (∀ call budget action t,
     isPlainObject (heap w) action = Some true →
     get (heap w) action "type" = Some t → t ≠ VUndefined →
     dispatch call budget s action w
     = (Thrown (VError ErrReducersMayNotDispatch), w)).
Proof.
  intros Hs Hd. split; [|split; [|split; [|split]]].
  - unfold getState. rewrite bind_unfold, (get_store_eq _ _ _ Hs). mred.
    by rewrite Hd.
  - intros listener Hty. unfold subscribe.
    rewrite bool_decide_eq_true_2 by done. mred.
    rewrite bind_unfold, (get_store_eq _ _ _ Hs). mred. by rewrite Hd.
  - intros listener c Hc. unfold unsubscribe.
    rewrite bind_unfold, (read_cell_eq _ _ _ Hc). mred.
    rewrite bind_unfold, (get_store_eq _ _ _ Hs). mred. by rewrite Hd.
  - intros listener c Hc. unfold unsubscribe.
    by rewrite bind_unfold, (read_cell_eq _ _ _ Hc).
  - intros call budget action t Hp Hg Ht. by eapply dispatch_locked.
Qed.

(** [replaceReducer] called while store [s] runs its reducer throws the
    re-entrancy error of [dispatch], but only after it has assigned
    [currentReducer]: the reducer is replaced all the same. *)
Theorem replaceReducer_while_reducing call budget s st nextReducer w :
  stores w !! s = Some st → isDispatching st = true →
  typeof nextReducer = TFunction →
  getPrototypeOf (heap w) ObjectPrototype = Some None →
  ∃ w',
    replaceReducer REPLACE call budget s nextReducer w
    = (Thrown (VError ErrReducersMayNotDispatch), w') ∧
    stores w' !! s = Some (set_currentReducer nextReducer st) ∧
    (∀ s', s' ≠ s → stores w' !! s' = stores w !! s') ∧
    arrays w' = arrays w.
Proof.
  intros Hs Hd Hty Hroot. unfold replaceReducer.
  rewrite bool_decide_eq_true_2 by done. mred.
  rewrite bind_unfold, update_store_eq. mred.
  rewrite bind_unfold, alloc_object_eq. mred.
  rewrite bind_unfold.
  match goal with |- context [dispatch call budget s _ ?w0] => set (w0' := w0) end.
  assert (Hs0 : stores w0' !! s = Some (set_currentReducer nextReducer st)).
  { simpl. by apply alter_lookup_Some. }
  rewrite (dispatch_locked call budget s (set_currentReducer nextReducer st)
             w0' _ (VStr REPLACE));
    [|done|done|by apply literal_plain|apply literal_get|done].
  exists w0'. split; [done|]. split; [done|]. split; [|done].
  intros s' Hne. simpl. by rewrite list_lookup_alter_ne.
Qed.

(** **** [subscribe] and [unsubscribe] *)

Lemma indexOf_range xs v :
  indexOf xs v = (-1)%Z ∨ (0 ≤ indexOf xs v < Z.of_nat (length xs))%Z.
Proof.
  induction xs as [|x xs IH]; [by left|]. cbn [indexOf length].
  destruct (strict_eq x v); [right; lia|].
  destruct IH as [->|IH]; [by left|]. right.
  destruct (Z.ltb_spec (indexOf xs v) 0); lia.
Qed.

Lemma indexOf_app xs l :
  typeof l = TFunction →
  indexOf (xs ++ [l]) l =
  if (indexOf xs l <? 0)%Z then Z.of_nat (length xs) else indexOf xs l.
Proof.
  intros Hty. induction xs as [|x xs IH].
  - cbn. rewrite strict_eq_refl; [done|]. by intros ->.
  - cbn [app indexOf length]. destruct (strict_eq x l); [done|].
    rewrite IH. destruct (indexOf_range xs l) as [->|Hr].
    + cbn. destruct (Z.ltb_spec (Z.of_nat (length xs)) 0); lia.
    + destruct (Z.ltb_spec (indexOf xs l) 0); [lia|].
      destruct (Z.ltb_spec (indexOf xs l) 0); [lia|].
      destruct (Z.ltb_spec (1 + indexOf xs l) 0); [lia|done].
Qed.

Lemma delete_app_lt {A} (xs ys : list A) i :
  i < length xs → delete i (xs ++ ys) = delete i xs ++ ys.
Proof.
  revert i. induction xs as [|x xs IH]; intros [|i] Hi; simpl in *; try lia.
  - done.
  - f_equal. apply IH. lia.
Qed.

(** Removing, as [unsubscribe] does, a listener from a list it has just
    been pushed on: the first registration of that function goes. *)
Lemma splice_pushed xs l :
  typeof l = TFunction →
  splice1 (xs ++ [l]) (indexOf (xs ++ [l]) l) =
  if (indexOf xs l <? 0)%Z then xs else splice1 xs (indexOf xs l) ++ [l].
Proof.
  intros Hty. rewrite indexOf_app by done. unfold splice1. rewrite length_app. cbn [length].
  destruct (indexOf_range xs l) as [E|Hr].
  - rewrite E. cbn [Z.ltb Z.compare].
    rewrite (proj2 (Z.ltb_ge (Z.of_nat (length xs)) 0)) by lia.
    rewrite Z.min_l by lia. rewrite Nat2Z.id.
    by rewrite delete_middle, app_nil_r.
  - rewrite !(proj2 (Z.ltb_ge (indexOf xs l) 0)) by lia.
    rewrite !Z.min_l by lia. apply delete_app_lt. lia.
Qed.

(** A listener is subscribed to a store that is not dispatching, and the
    function [subscribe] returned is called at once.  Both calls return,
    and the pending list is what it was if the listener was not in it;
    if it was, its earlier registration is the one removed, and the new
    one stays at the end. *)
Theorem subscribe_then_unsubscribe s st listener xs w :
  wf w → stores w !! s = Some st → isDispatching st = false →
  typeof listener = TFunction → arrays w !! nextListeners st = Some xs →
  ∃ c w1 w2 st2,
    subscribe s listener w = (Normal (VFun (FUnsubscribe s listener c)), w1) ∧
    unsubscribe s listener c w1 = (Normal VUndefined, w2) ∧
    stores w2 !! s = Some st2 ∧
    arrays w2 !! nextListeners st2 =
      Some (if (indexOf xs listener <? 0)%Z then xs
            else splice1 xs (indexOf xs listener) ++ [listener]).
Proof.
  intros Hw Hs Hd Hty Hxs.
  destruct (subscribe_result s listener w st Hw Hs Hd Hty)
    as (w1 & st1 & xs' & E1 & Hs1 & _ & _ & Hxs' & Hxs1 & Hc1).
  rewrite Hxs in Hxs'. injection Hxs' as <-.
  destruct (steady_subscribe _ _ _ _ _ Hw E1) as [Hw1 [H1 _]]; [done|].
  destruct (H1 s _ Hs) as (st1' & Hs1' & Hd1 & _).
  rewrite Hs1 in Hs1'. injection Hs1' as <-. rewrite Hd in Hd1.
  assert (Hc : cells w1 !! length (cells w) = Some true).
  { rewrite Hc1. by apply list_lookup_middle. }
  destruct (unsubscribe_result s listener _ w1 st1 Hw1 Hs1 Hd1 Hc)
    as (w2 & st2 & xs2 & E2 & Hs2 & _ & Hxs2 & Hxs2' & _).
  rewrite Hxs1 in Hxs2. injection Hxs2 as <-.
  exists (length (cells w)), w1, w2, st2. do 3 (split; [done|]).
  by rewrite Hxs2', splice_pushed.
Qed.

Lemma read_cell_none c w : cells w !! c = None → read_cell c w = (Diverged, w).
Proof.
  intros H. unfold read_cell, read, defined. rewrite bind_unfold. by rewrite H.
Qed.

(** A call of [unsubscribe] that returns has cleared [isSubscribed]; any
    further call returns at once and changes nothing. *)
Theorem unsubscribe_twice s listener c w u w' :
  wf w → unsubscribe s listener c w = (Normal u, w') →
  u = VUndefined ∧ cells w' !! c = Some false ∧
  unsubscribe s listener c w' = (Normal VUndefined, w').
Proof.
  intros Hw E.
  assert (Hagain : cells w' !! c = Some false →
            unsubscribe s listener c w' = (Normal VUndefined, w')).
  { intros Hc. unfold unsubscribe. by rewrite bind_unfold, (read_cell_eq _ _ _ Hc). }
  destruct (cells w !! c) as [[|]|] eqn:Hc.
  - destruct (unsubscribe_normal _ _ _ _ _ _ Hc E) as (st & Hs & Hd).
    destruct (unsubscribe_result s listener c w st Hw Hs Hd Hc)
      as (w2 & st2 & xs & E2 & _ & _ & _ & _ & Hc2).
    rewrite E2 in E. injection E as <- <-.
    assert (cells w2 !! c = Some false).
    { rewrite Hc2. apply list_lookup_insert_eq. by eapply lookup_lt_Some. }
    auto.
  - unfold unsubscribe in E. rewrite bind_unfold, (read_cell_eq _ _ _ Hc) in E.
    injection E as <- <-. auto.
  - unfold unsubscribe in E. rewrite bind_unfold, (read_cell_none _ _ Hc) in E.
    done.
Qed.

(** **** [dispatch] *)

(** What the reducer of store [s] finds and leaves: the call made by
    [dispatch], when it ends, has not touched the state, the flag or the
    listener lists of [s]. *)
Lemma reducer_call_settled budget f args s st ls w r w1 :
  wf w → stores w !! s = Some st →
  arrays w !! nextListeners st = Some ls →
  apply budget f args (begin_dispatch s w) = (r, w1) → r ≠ Diverged →
  wf w1 ∧
  ∃ st1, stores w1 !! s = Some st1 ∧ isDispatching st1 = true ∧
    store st1 = store st ∧ currentState st1 = currentState st ∧
    currentListeners st1 = currentListeners st ∧
    nextListeners st1 = nextListeners st ∧
    arrays w1 !! nextListeners st = Some ls.
Proof.
  intros Hw Hs Hls E Hr.
  assert (Hwb : wf (begin_dispatch s w)) by (by apply wf_alter).
  destruct (steady_apply _ _ _ _ _ _ Hwb E Hr) as [Hw1 [H1 _]]. split; [done|].
  destruct (H1 s (set_isDispatching true st)) as (st1 & Hs1 & Hd1 & Ho1 & Hl1).
  { simpl. by apply alter_lookup_Some. }
  destruct (Hl1 eq_refl) as (? & ? & ? & Harr). simpl in *.
  exists st1. do 6 (split; [done|]). by rewrite Harr.
Qed.

(** The reducer has no say in who is notified.  When a plain action with
    a defined type is dispatched and the reducer returns [next], the
    listeners called are those the pending list held when [dispatch] was
    called, in order; the store then has [next] as its state, that list as
    its current and pending list, and the store object it had. *)
Theorem dispatch_notifies_subscribed budget s action w st t ls next w1 :
  wf w → stores w !! s = Some st → isDispatching st = false →
  isPlainObject (heap w) action = Some true →
  get (heap w) action "type" = Some t → t ≠ VUndefined →
  arrays w !! nextListeners st = Some ls → length ls < budget →
  apply budget (currentReducer st) [currentState st; action] (begin_dispatch s w)
    = (Normal next, w1) →
  (∃ reducer,
     stores (commit_dispatch s next w1) !! s =
       Some (StoreVars reducer next (Some (nextListeners st)) (nextListeners st)
               false (store st))) ∧
  arrays (commit_dispatch s next w1) !! nextListeners st = Some ls ∧
  apply (S budget) (VFun (FDispatch s)) [action] w =
  match call_each (apply budget) ls (commit_dispatch s next w1) with
  | (Normal _, w2) => (Normal action, w2)
  | (Thrown e, w2) => (Thrown e, w2)
  | (Diverged, w2) => (Diverged, w2)
  end.
Proof.
  intros Hw Hs Hd Hp Hg Ht Hls Hlen E.
  destruct (reducer_call_settled _ _ _ _ _ _ _ _ _ Hw Hs Hls E)
    as (Hw1 & st1 & Hs1 & _ & Ho1 & _ & _ & Hn1 & Hls1); [done|].
  assert (Hs2 : stores (commit_dispatch s next w1) !! s =
      Some (StoreVars (currentReducer st1) next (Some (nextListeners st))
              (nextListeners st) false (store st))).
  { simpl. rewrite (alter_lookup_Some _ _ _ _ Hs1). by rewrite Hn1, Ho1. }
  assert (Hwc : wf (commit_dispatch s next w1)) by (by apply wf_alter).
  split; [eauto|]. split; [done|].
  change (apply (S budget) (VFun (FDispatch s)) [action] w)
    with (dispatch (apply budget) budget s action w).
  rewrite (dispatch_reducer _ _ _ _ _ _ _ (safe_apply budget) Hw Hs Hd Hp Hg Ht).
  rewrite E, Hs1, Hn1.
  pose proof (frozen_adopted _ _ _ Hwc Hs2 eq_refl) as Hfr. simpl in Hfr.
  assert (Hlen' : length ls - 0 < budget) by lia.
  by rewrite (notify_call_each _ _ _ ls 0 _ (safe_apply budget) Hwc Hfr Hls1 Hlen').
Qed.

Lemma call_each_throws call pre f post w wa e wb :
  call_each call pre w = (Normal tt, wa) →
  call f [] wa = (Thrown e, wb) →
  call_each call (pre ++ f :: post) w = (Thrown e, wb).
Proof.
  revert w. induction pre as [|l pre IH]; intros w; cbn [call_each app].
  - intros [= <-] E. by rewrite bind_unfold, E.
  - rewrite !bind_unfold. destruct (call l [] w) as [[v|e'|] w0]; [|done..].
    apply IH.
Qed.

(** A listener that throws ends the dispatch: the exception comes out of
    [dispatch] as it is, in the memory the listener left, and the
    listeners after it are not called; the state the reducer returned had
    been committed before the first listener ran. *)
Theorem dispatch_listener_throws budget s action w st t pre f post next w1 wa e wb :
  wf w → stores w !! s = Some st → isDispatching st = false →
  isPlainObject (heap w) action = Some true →
  get (heap w) action "type" = Some t → t ≠ VUndefined →
  arrays w !! nextListeners st = Some (pre ++ f :: post) →
  length (pre ++ f :: post) < budget →
  apply budget (currentReducer st) [currentState st; action] (begin_dispatch s w)
    = (Normal next, w1) →
  call_each (apply budget) pre (commit_dispatch s next w1) = (Normal tt, wa) →
  apply budget f [] wa = (Thrown e, wb) →
  apply (S budget) (VFun (FDispatch s)) [action] w = (Thrown e, wb) ∧
  getState s (commit_dispatch s next w1) = (Normal next, commit_dispatch s next w1).
Proof.
  intros Hw Hs Hd Hp Hg Ht Hls Hlen E Epre Ef.
  destruct (reducer_call_settled _ _ _ _ _ _ _ _ _ Hw Hs Hls E)
    as (Hw1 & st1 & Hs1 & _ & Ho1 & _ & _ & Hn1 & Hls1); [done|].
  assert (Hs2 : stores (commit_dispatch s next w1) !! s =
      Some (StoreVars (currentReducer st1) next (Some (nextListeners st1))
              (nextListeners st1) false (store st1))).
  { simpl. by rewrite (alter_lookup_Some _ _ _ _ Hs1). }
  assert (Hwc : wf (commit_dispatch s next w1)) by (by apply wf_alter).
  split.
  - change (apply (S budget) (VFun (FDispatch s)) [action] w)
      with (dispatch (apply budget) budget s action w).
    rewrite (dispatch_reducer _ _ _ _ _ _ _ (safe_apply budget) Hw Hs Hd Hp Hg Ht).
    rewrite E, Hs1.
    pose proof (frozen_adopted _ _ _ Hwc Hs2 eq_refl) as Hfr. simpl in Hfr.
    rewrite <- Hn1 in Hls1.
    assert (Hlen' : length (pre ++ f :: post) - 0 < budget) by lia.
    rewrite (notify_call_each _ _ _ _ 0 _ (safe_apply budget) Hwc Hfr Hls1 Hlen').
    rewrite drop_0. by rewrite (call_each_throws _ _ _ _ _ _ _ _ Epre Ef).
  - unfold getState. by rewrite bind_unfold, (get_store_eq _ _ _ Hs2).
Qed.

(** **** [createStore] *)

(** [createStore] checks the enhancer before the reducer: an enhancer that
    is neither [undefined] nor a function is refused whatever the reducer
    is, and a reducer that is not a function is refused only when no
    enhancer is given.  Nothing has been created then. *)
Theorem createStore_rejects budget args w :
  let reducer := arg args 0 in
  let preloadedState := arg args 1 in
  let enhancer := arg args 2 in
  (typeof enhancer ≠ TUndefined → typeof enhancer ≠ TFunction →
   apply (S budget) (VFun FCreateStore) args w
   = (Thrown (VError ErrEnhancerNotFunction), w)) ∧
  (typeof enhancer = TUndefined → typeof preloadedState ≠ TFunction →
   typeof reducer ≠ TFunction →
   apply (S budget) (VFun FCreateStore) args w
   = (Thrown (VError ErrReducerNotFunction), w)).
Proof.
  intros reducer preloadedState enhancer.
  change (apply (S budget) (VFun FCreateStore) args)
    with (createStore INIT OBSERVABLE (apply budget) budget args).
  unfold createStore. fold reducer preloadedState enhancer. split.
  - intros H1 H2.
    rewrite (bool_decide_eq_false_2 (typeof enhancer = TFunction)) by done.
    rewrite (bool_decide_eq_false_2 (typeof enhancer = TUndefined)) by done.
    rewrite !andb_false_r. cbn [orb negb].
    rewrite (bool_decide_eq_false_2 (typeof enhancer = TUndefined)) by done.
    rewrite (bool_decide_eq_false_2 (typeof enhancer = TFunction)) by done.
    done.
  - intros H1 H2 H3.
    rewrite (bool_decide_eq_false_2 (typeof preloadedState = TFunction)) by done.
    rewrite (bool_decide_eq_false_2 (typeof enhancer = TFunction)) by congruence.
    cbn [andb orb negb].
    rewrite (bool_decide_eq_true_2 (typeof enhancer = TUndefined)) by done.
    rewrite (bool_decide_eq_false_2 (typeof reducer = TFunction)) by done.
    done.
Qed.

(** The memory in which [createStore] dispatches the INIT action: a new
    listener array, the variables of the new store, and the action. *)
Lemma createStore_dispatches_init call budget args w :
  typeof (arg args 0) = TFunction → typeof (arg args 1) ≠ TFunction →
  typeof (arg args 2) = TUndefined →
  createStore INIT OBSERVABLE call budget args w =
  (dispatch call budget (length (stores w)) (VObj (length (heap w)));;
   o ← alloc_object (store_object OBSERVABLE (length (stores w)));
   update_store (length (stores w)) (set_store (Some o));;
   mret (VObj o))
    (set_heap (heap w ++ [literal [("type", VStr INIT)]])
       (set_stores
          (stores w ++ [StoreVars (arg args 0) (arg args 1)
                          (Some (length (arrays w))) (length (arrays w)) false None])
          (set_arrays (arrays w ++ [[]]) w))).
Proof.
  intros H0 H1 H2. unfold createStore.
  rewrite (bool_decide_eq_false_2 (typeof (arg args 1) = TFunction)) by done.
  rewrite (bool_decide_eq_false_2 (typeof (arg args 2) = TFunction)) by congruence.
  cbn [andb orb negb].
  rewrite (bool_decide_eq_true_2 (typeof (arg args 2) = TUndefined)) by done.
  rewrite (bool_decide_eq_true_2 (typeof (arg args 0) = TFunction)) by done.
  cbn [negb]. rewrite bind_unfold. unfold alloc_array at 1. cbv beta iota.
  rewrite bind_unfold. unfold alloc_store at 1. cbv beta iota.
  rewrite bind_unfold. unfold alloc_object at 1. cbv beta iota.
  done.
Qed.

(** [createStore(reducer, preloadedState)] with no enhancer calls the
    reducer once, on [preloadedState] and the INIT action, while the new
    store is dispatching.  When the reducer returns [init], the result is a
    new store object with the four methods of the new store and, under the
    key [$$observable] when that is a string, its [observable] function;
    the store has [init] as its state, no listener, and is not
    dispatching. *)
Theorem createStore_initial_state budget args w init w1 :
  let reducer := arg args 0 in
  let preloadedState := arg args 1 in
  let s := length (stores w) in
  let listeners := length (arrays w) in
  let w0 :=
    set_heap (heap w ++ [literal [("type", VStr INIT)]])
      (set_stores
         (stores w ++ [StoreVars reducer preloadedState (Some listeners) listeners
                         false None])
         (set_arrays (arrays w ++ [[]]) w)) in
  wf w → getPrototypeOf (heap w) ObjectPrototype = Some None →
  typeof reducer = TFunction → typeof preloadedState ≠ TFunction →
  typeof (arg args 2) = TUndefined →
  apply budget reducer [preloadedState; VObj (length (heap w))] (begin_dispatch s w0)
    = (Normal init, w1) →
  ∃ w' currentReducer,
    apply (S budget) (VFun FCreateStore) args w
    = (Normal (VObj (length (heap w1))), w') ∧
    heap w' = heap w1 ++ [store_object OBSERVABLE s] ∧
    stores w' !! s =
      Some (StoreVars currentReducer init (Some listeners) listeners false
              (Some (length (heap w1)))) ∧
    arrays w' !! listeners = Some [] ∧
    getState s w' = (Normal init, w').
Proof.
  intros reducer preloadedState s listeners w0 Hw Hroot Hr Hp He E.
  change (apply (S budget) (VFun FCreateStore) args w)
    with (createStore INIT OBSERVABLE (apply budget) budget args w).
  rewrite createStore_dispatches_init by done.
  fold reducer preloadedState s listeners w0.
  assert (Hw0 : wf w0).
  { apply (safe_new_store reducer preloadedState
             (λ s, alloc_object (literal [("type", VStr INIT)]))
             (λ s, safe_alloc_object _) w (Normal (length (heap w))) w0 Hw eq_refl). }
  assert (Hs0 : stores w0 !! s =
            Some (StoreVars reducer preloadedState (Some listeners) listeners false None)).
  { simpl. by apply list_lookup_middle. }
  assert (Hl0 : arrays w0 !! listeners = Some []).
  { simpl. by apply list_lookup_middle. }
  destruct (reducer_call_settled _ _ _ _ _ _ _ _ _ Hw0 Hs0 Hl0 E)
    as (Hw1 & st1 & Hs1 & _ & Ho1 & _ & _ & Hn1 & Hls1); [done|].
  simpl in Ho1, Hn1, Hls1.
  rewrite bind_unfold.
  rewrite (dispatch_reducer _ _ _ _ _ _ (VStr INIT) (safe_apply budget) Hw0 Hs0);
    [|done|by apply literal_plain|apply literal_get|done].
  cbn [currentReducer currentState]. rewrite E, Hs1, Hn1.
  destruct budget as [|budget]; [done|].
  cbn [notify]. rewrite bind_unfold.
  assert (Hlc : arrays (commit_dispatch s init w1) !! listeners = Some []) by done.
  rewrite (read_array_eq _ _ _ Hlc). cbv beta iota.
  rewrite bool_decide_eq_false_2 by (simpl; lia).
  unfold mret at 1, M_ret at 1. cbv beta iota.
  rewrite bind_unfold, alloc_object_eq. cbv beta iota.
  rewrite bind_unfold, update_store_eq. cbv beta iota.
  eexists _, (currentReducer st1). split; [reflexivity|].
  split; [done|]. simpl.
  rewrite list_alter_alter_eq, (alter_lookup_Some _ _ _ _ Hs1). simpl.
  rewrite Hn1. split; [done|]. split; [done|].
  unfold getState. rewrite bind_unfold. unfold get_store, read, defined.
  rewrite bind_unfold. simpl.
  rewrite (alter_lookup_Some _ _ _ _ Hs1). done.
Qed.

(** When the reducer throws on the INIT action, [createStore] throws the
    same exception: no store object is made, and the variables allocated
    for the store are left behind, not dispatching. *)
Theorem createStore_reducer_throws budget args w e w1 :
  let reducer := arg args 0 in
  let preloadedState := arg args 1 in
  let s := length (stores w) in
  let listeners := length (arrays w) in
  let w0 :=
    set_heap (heap w ++ [literal [("type", VStr INIT)]])
      (set_stores
         (stores w ++ [StoreVars reducer preloadedState (Some listeners) listeners
                         false None])
         (set_arrays (arrays w ++ [[]]) w)) in
  wf w → getPrototypeOf (heap w) ObjectPrototype = Some None →
  typeof reducer = TFunction → typeof preloadedState ≠ TFunction →
  typeof (arg args 2) = TUndefined →
  apply budget reducer [preloadedState; VObj (length (heap w))] (begin_dispatch s w0)
    = (Thrown e, w1) →
  apply (S budget) (VFun FCreateStore) args w = (Thrown e, abort_dispatch s w1) ∧
  ∃ st, stores (abort_dispatch s w1) !! s = Some st ∧
    isDispatching st = false ∧ store st = None.
Proof.
  intros reducer preloadedState s listeners w0 Hw Hroot Hr Hp He E.
  change (apply (S budget) (VFun FCreateStore) args w)
    with (createStore INIT OBSERVABLE (apply budget) budget args w).
  rewrite createStore_dispatches_init by done.
  fold reducer preloadedState s listeners w0.
  assert (Hw0 : wf w0).
  { apply (safe_new_store reducer preloadedState
             (λ s, alloc_object (literal [("type", VStr INIT)]))
             (λ s, safe_alloc_object _) w (Normal (length (heap w))) w0 Hw eq_refl). }
  assert (Hs0 : stores w0 !! s =
            Some (StoreVars reducer preloadedState (Some listeners) listeners false None)).
  { simpl. by apply list_lookup_middle. }
  assert (Hl0 : arrays w0 !! listeners = Some []).
  { simpl. by apply list_lookup_middle. }
  destruct (reducer_call_settled _ _ _ _ _ _ _ _ _ Hw0 Hs0 Hl0 E)
    as (Hw1 & st1 & Hs1 & _ & Ho1 & _); [done|].
  split.
  - rewrite bind_unfold.
    rewrite (dispatch_reducer _ _ _ _ _ _ (VStr INIT) (safe_apply budget) Hw0 Hs0);
      [|done|by apply literal_plain|apply literal_get|done].
    cbn [currentReducer currentState]. by rewrite E.
  - exists (set_isDispatching false st1). simpl.
    rewrite (alter_lookup_Some _ _ _ _ Hs1). auto.
Qed.

(** **** [replaceReducer] *)

(** [replaceReducer(nextReducer)] on a store that is not dispatching makes
    [nextReducer] the reducer and dispatches the REPLACE action: the new
    reducer is called on the current state, what it returns becomes the
    state, the subscribed listeners are called in order, and the result is
    the store object itself. *)
Theorem replaceReducer_dispatches_replace budget s st o nextReducer ls w next w1 :
  let w0 :=
    set_heap (heap w ++ [literal [("type", VStr REPLACE)]])
      (set_stores (alter (set_currentReducer nextReducer) s (stores w)) w) in
  wf w → getPrototypeOf (heap w) ObjectPrototype = Some None →
  stores w !! s = Some st → isDispatching st = false → store st = Some o →
  typeof nextReducer = TFunction →
  arrays w !! nextListeners st = Some ls → length ls < budget →
  apply budget nextReducer [currentState st; VObj (length (heap w))]
    (begin_dispatch s w0) = (Normal next, w1) →
  (∃ reducer,
     stores (commit_dispatch s next w1) !! s =
       Some (StoreVars reducer next (Some (nextListeners st)) (nextListeners st)
               false (Some o))) ∧
  apply (S budget) (VFun (FReplaceReducer s)) [nextReducer] w =
  match call_each (apply budget) ls (commit_dispatch s next w1) with
  | (Normal _, w2) => (Normal (VObj o), w2)
  | (Thrown e, w2) => (Thrown e, w2)
  | (Diverged, w2) => (Diverged, w2)
  end.
Proof.
  intros w0 Hw Hroot Hs Hd Ho Hty Hls Hlen E.
  assert (Hs0 : stores w0 !! s = Some (set_currentReducer nextReducer st)).
  { simpl. by apply alter_lookup_Some. }
  assert (Hw0 : wf w0).
  { apply (wf_same_shape (set_stores (alter (set_currentReducer nextReducer) s
                                        (stores w)) w)); [done..|].
    by apply wf_alter. }
  destruct (reducer_call_settled _ _ _ _ _ ls _ _ _ Hw0 Hs0 Hls E)
    as (Hw1 & st1 & Hs1 & _ & Ho1 & _ & _ & Hn1 & Hls1); [done|].
  simpl in Ho1, Hn1, Hls1.
  assert (Hs2 : stores (commit_dispatch s next w1) !! s =
      Some (StoreVars (currentReducer st1) next (Some (nextListeners st))
              (nextListeners st) false (Some o))).
  { simpl. rewrite (alter_lookup_Some _ _ _ _ Hs1). by rewrite Hn1, Ho1, Ho. }
  assert (Hwc : wf (commit_dispatch s next w1)) by (by apply wf_alter).
  split; [eauto|].
  change (apply (S budget) (VFun (FReplaceReducer s)) [nextReducer] w)
    with (replaceReducer REPLACE (apply budget) budget s nextReducer w).
  unfold replaceReducer. rewrite bool_decide_eq_true_2 by done. cbn [negb].
  rewrite bind_unfold, update_store_eq. cbv beta iota.
  rewrite bind_unfold, alloc_object_eq. cbv beta iota.
  change (heap (set_stores (alter (set_currentReducer nextReducer) s (stores w)) w))
    with (heap w).
  rewrite bind_unfold. fold w0.
  rewrite (dispatch_reducer _ _ _ _ _ _ (VStr REPLACE) (safe_apply budget) Hw0 Hs0);
    [|done|by apply literal_plain|apply literal_get|done].
  cbn [currentReducer currentState set_currentReducer]. rewrite E, Hs1, Hn1.
  pose proof (frozen_adopted _ _ _ Hwc Hs2 eq_refl) as Hfr. simpl in Hfr.
  assert (Hlen' : length ls - 0 < budget) by lia.
  pose proof (notify_call_each _ _ _ ls 0 _ (safe_apply budget) Hwc Hfr Hls1 Hlen')
    as En.
  rewrite drop_0 in En. rewrite En.
  destruct (call_each _ ls _) as [[[]|e|] w2] eqn:Ec; [|done..].
  destruct (steady_notify _ (steady_apply budget) _ _ _ _ _ _ Hwc En)
    as [_ [H2 _]]; [done|].
  destruct (H2 s _ Hs2) as (st2 & Hs2' & _ & Ho2 & _).
  rewrite bind_unfold, (get_store_eq _ _ _ Hs2'). cbv beta iota.
  by rewrite Ho2.
Qed.

(** *** [bindActionCreators] on any object *)

Lemma bind_loop_filter l dispatch ks acc w :
  (∀ k, k ∈ ks → is_Some (get (heap w) (VObj l) k)) →
  "__proto__" ∉ function_keys (heap w) (VObj l) ks →
  bind_loop (VObj l) dispatch ks (Rec (VObj ObjectPrototype) acc) w =
  (Normal (Rec (VObj ObjectPrototype)
             (put_all acc
                (bound_creators (VObj l) dispatch w
                   (function_keys (heap w) (VObj l) ks)))),
   set_next_id (next_id w + length (function_keys (heap w) (VObj l) ks)) w).
Proof.
  unfold function_keys. revert acc w.
  induction ks as [|k ks IH]; intros acc w Hks Hproto.
  - cbn. rewrite Nat.add_0_r. by destruct w.
  - destruct (Hks k) as [v Hv]; [by left|].
    cbn [bind_loop]. rewrite bind_unfold, (getM_eq _ _ _ _ Hv).
    cbv beta iota. case_bool_decide as Hty.
    + rewrite filter_cons_True in Hproto |- * by (by rewrite Hv).
      apply not_elem_of_cons in Hproto as [Hk Hproto].
      rewrite bind_unfold. unfold bindActionCreator. rewrite bind_unfold.
      unfold fresh_id at 1. cbv beta iota. unfold mret at 1, M_ret at 1.
      cbv beta iota. rewrite bind_unfold, rec_set_put by done. cbv beta iota.
      rewrite IH; [|intros k' Hk'; apply Hks; by right|done].
      unfold bound_creators. cbn [imap put_all foldl heap next_id set_next_id].
      rewrite Hv. cbn [default fst snd length]. f_equal.
      * do 2 f_equal. rewrite Nat.add_0_r. f_equal.
        apply imap_ext. intros i k' _. cbn. do 4 f_equal. lia.
      * unfold set_next_id. cbn. f_equal. lia.
    + rewrite filter_cons_False in Hproto |- * by (by rewrite Hv).
      apply IH; [|done]. intros k' Hk'. apply Hks. by right.
Qed.

(** [bindActionCreators] refuses what is neither a function nor an object,
    and [null].  Given an object with no function under the key
    [__proto__], it binds the properties that hold functions and leaves the
    others out: the result is a new plain object whose keys are the keys of
    the function-valued properties (in [for]-[in] order, when that is the
    order [Object.keys] gives), each holding a bound function of the
    creator under it. *)
Theorem bindActionCreators_skips_non_functions budget actionCreators dispatch w :
  (typeof actionCreators ≠ TFunction →
   typeof actionCreators ≠ TObject ∨ actionCreators = VNull →
   apply (S budget) (VFun FBindActionCreators) [actionCreators; dispatch] w
   = (Thrown (VError ErrBindExpectedObjectOrFunction), w)) ∧
  (∀ l ks,
     actionCreators = VObj l →
     for_in_keys (heap w) actionCreators = Some ks → NoDup ks →
     (∀ k, k ∈ ks → is_Some (get (heap w) actionCreators k)) →
     let creator k := default VUndefined (get (heap w) actionCreators k) in
     let bound := function_keys (heap w) actionCreators ks in
     "__proto__" ∉ bound →
     ∃ w' o,
       apply (S budget) (VFun FBindActionCreators) [actionCreators; dispatch] w
       = (Normal (VObj (length (heap w))), w') ∧
       heap w' = heap w ++ [o] ∧
       proto o = Some ObjectPrototype ∧
       own_keys o ≡ₚ bound ∧
       (key_order ks = true → own_keys o = bound) ∧
       ∀ i k, bound !! i = Some k →
         find_prop k (props o) =
         Some (Property (VFun (FBound (next_id w + i) (creator k) dispatch)) true)).
Proof.
  change (apply (S budget) (VFun FBindActionCreators) [actionCreators; dispatch] w)
    with (bindActionCreators actionCreators dispatch w).
  split.
  - intros Hf Ho. unfold bindActionCreators.
    rewrite bool_decide_eq_false_2 by done.
    destruct Ho as [Ho| ->]; [by rewrite bool_decide_eq_false_2|done].
  - intros l ks -> Hks Hnd Hall creator bound Hproto.
    unfold bindActionCreators. cbn [typeof strict_eq].
    rewrite bool_decide_eq_false_2 by done.
    rewrite bool_decide_eq_true_2 by done. cbn [negb orb].
    unfold read. rewrite bind_unfold. cbv beta iota. rewrite Hks.
    rewrite bind_unfold. unfold defined at 1. unfold mret at 1, M_ret at 1.
    cbv beta iota. unfold empty_record.
    rewrite bind_unfold, (bind_loop_filter l) by done.
    cbv beta iota. rewrite alloc_record_eq. fold bound.
    set (bs := bound_creators (VObj l) dispatch w bound).
    assert (Hbs : bs.*1 = bound) by apply imap_fst.
    assert (Hnd' : NoDup bound) by (by apply NoDup_filter).
    eexists _, _. split; [reflexivity|].
    split; [done|]. split; [done|]. split; [|split].
    + rewrite own_keys_literal, put_all_keys; rewrite ?Hbs; done.
    + intros Hord. rewrite own_keys_literal, put_all_ordered; rewrite ?Hbs; [done..|].
      by apply key_order_filter.
    + intros i k Hi. rewrite find_prop_literal.
      erewrite put_all_lookup; [done|by rewrite Hbs|].
      unfold bs, bound_creators. rewrite list_lookup_imap, Hi. done.
Qed.

(** *** [combineReducers] *)

Lemma combineReducers_from_filter l ks acc w h :
  heap w = h →
  (∀ k, k ∈ ks → is_Some (get h (VObj l) k)) →
  "__proto__" ∉ function_keys h (VObj l) ks →
  combineReducers_from production (VObj l) ks (Rec (VObj ObjectPrototype) acc) w =
  (Normal (Rec (VObj ObjectPrototype)
             (put_all acc
                ((λ k, (k, default VUndefined (get h (VObj l) k))) <$>
                 function_keys h (VObj l) ks))),
   set_console
     (console w ++
      if production then []
      else WarnNoReducerForKey <$>
           filter (λ k, typeof (default VUndefined (get h (VObj l) k))
                        = TUndefined) ks) w).
Proof.
  unfold function_keys. intros Hh. revert acc w Hh.
  induction ks as [|k ks IH]; intros acc w Hh Hks Hproto.
  - cbn. destruct production; cbn; rewrite app_nil_r; by destruct w.
  - destruct (Hks k) as [v Hv]; [by left|].
    cbn [combineReducers_from]. rewrite bind_unfold.
    assert (getM (VObj l) k w = (Normal v, w)) as ->.
    { apply getM_eq. by rewrite Hh. }
    cbv beta iota. rewrite bind_unfold.
    set (Y := if negb production && bool_decide (typeof v = TUndefined)
              then [WarnNoReducerForKey k] else []).
    assert ((if negb production && bool_decide (typeof v = TUndefined)
             then warn (WarnNoReducerForKey k) else mret ()) w
            = (Normal tt, set_console (console w ++ Y) w)) as ->.
    { unfold Y. destruct (negb production && _); [done|].
      rewrite app_nil_r. by destruct w. }
    cbv beta iota.
    assert (Hcons :
      (console w ++ Y) ++
        (if production then []
         else WarnNoReducerForKey <$>
              filter (λ k, typeof (default VUndefined (get h (VObj l) k))
                           = TUndefined) ks) =
      console w ++
        (if production then []
         else WarnNoReducerForKey <$>
              filter (λ k, typeof (default VUndefined (get h (VObj l) k))
                           = TUndefined) (k :: ks))).
    { unfold Y. rewrite <- app_assoc. f_equal.
      destruct production; cbn [negb andb]; [done|].
      case_bool_decide as Hu.
      - rewrite filter_cons_True by (by rewrite Hv). done.
      - rewrite filter_cons_False by (by rewrite Hv). done. }
    case_bool_decide as Hty.
    + rewrite filter_cons_True in Hproto |- * by (by rewrite Hv).
      apply not_elem_of_cons in Hproto as [Hk Hproto].
      rewrite bind_unfold, rec_set_put by done. cbv beta iota.
      rewrite (IH _ (set_console (console w ++ Y) w) Hh);
        [|intros k' Hk'; apply Hks; by right|done].
      rewrite fmap_cons. cbn [put_all foldl fst snd]. rewrite Hv. cbn [default].
      f_equal. unfold set_console. cbn. by rewrite Hcons.
    + rewrite filter_cons_False in Hproto |- * by (by rewrite Hv).
      rewrite (IH _ (set_console (console w ++ Y) w) Hh);
        [|intros k' Hk'; apply Hks; by right|done].
      f_equal. unfold set_console. cbn. by rewrite Hcons.
Qed.

(** Of a reducers object with no function under the key [__proto__],
    [combineReducers] keeps the properties that hold functions, each under
    its key, in key order, and drops every other one silently, except that
    outside production it warns about each key whose value is
    [undefined]. *)
Theorem combineReducers_keeps_functions l ks w :
  keys (heap w) (VObj l) = Some ks → NoDup ks →
  (∀ k, k ∈ ks → is_Some (get (heap w) (VObj l) k)) →
  let reducer k := default VUndefined (get (heap w) (VObj l) k) in
  let kept := function_keys (heap w) (VObj l) ks in
  "__proto__" ∉ kept →
  ∃ fr,
    (reducerKeys ← keysM (VObj l);
     combineReducers_loop production (VObj l) reducerKeys []) w =
    (Normal fr,
     set_console
       (console w ++
        if production then []
        else WarnNoReducerForKey <$>
             filter (λ k, typeof (reducer k) = TUndefined) ks) w) ∧
    fr.*1 ≡ₚ kept ∧
    (∀ k, k ∈ kept → assoc_lookup k fr = Some (reducer k)) ∧
    (key_order ks = true → fr = (λ k, (k, reducer k)) <$> kept).
Proof.
  intros Hks Hnd Hall reducer kept Hproto.
  rewrite bind_unfold, (keysM_eq _ _ _ Hks). cbv beta iota.
  unfold combineReducers_loop.
  rewrite bind_unfold, (combineReducers_from_filter l ks [] w (heap w)) by done.
  cbv beta iota. fold reducer. fold kept.
  set (kvs := (λ k, (k, reducer k)) <$> kept).
  assert (Hkvs : kvs.*1 = kept).
  { unfold kvs. rewrite <- list_fmap_compose. apply list_fmap_id. }
  assert (Hnd' : NoDup kept) by (by apply NoDup_filter).
  eexists. split; [reflexivity|]. cbn [rprops].
  change ((λ k, (k, default VUndefined (get (heap w) (VObj l) k))) <$> kept)
    with kvs.
  split; [|split].
  - rewrite put_all_keys; rewrite ?Hkvs; done.
  - intros k [i Hi]%list_elem_of_lookup.
    apply (put_all_lookup _ _ i); [by rewrite Hkvs|].
    unfold kvs. by rewrite list_lookup_fmap, Hi.
  - intros Hord. rewrite put_all_ordered; rewrite ?Hkvs; [done..|].
    by apply key_order_filter.
Qed.

(** Whatever ends the probes of [assertReducerShape] with an exception, a
    shape error of its own or something a reducer threw, is caught:
    [combineReducers] returns normally.  The reducer it returns throws the
    caught value on every call if that value is truthy; if it is falsy
    (a reducer threw [undefined], [null], [0], ...), or if the probes
    passed, the error test lets every call through. *)
Theorem combineReducers_catches budget reducers fr w w1 r w2 :
  (reducerKeys ← keysM reducers;
   combineReducers_loop production reducers reducerKeys []) w = (Normal fr, w1) →
  assertReducerShape INIT PROBE_UNKNOWN_ACTION (apply budget) fr
    (if production then w1 else set_caches (caches w1 ++ [[]]) w1) = (r, w2) →
  r ≠ Diverged →
  let caught := match r with Thrown e => e | _ => VUndefined end in
  let cache := if production then None else Some (length (caches w1)) in
  apply (S budget) (VFun FCombineReducers) [reducers] w
  = (Normal (VFun (FCombination (next_id w2) fr caught cache)),
     set_next_id (S (next_id w2)) w2) ∧
  (truthy caught = true →
   ∀ n id args w', ∃ w'',
     apply (S n) (VFun (FCombination id fr caught cache)) args w'
     = (Thrown caught, w'')) ∧
  (truthy caught = false →
   ∀ n id args w',
     apply (S n) (VFun (FCombination id fr caught cache)) args w'
     = apply (S n) (VFun (FCombination id fr VUndefined cache)) args w').
Proof.
  intros Hfr Ha Hr caught cache. split; [|split].
  - change (apply (S budget) (VFun FCombineReducers) [reducers] w)
      with (combineReducers INIT PROBE_UNKNOWN_ACTION production (apply budget)
              reducers w).
    unfold combineReducers. rewrite bind_assoc, bind_unfold, Hfr. cbv beta iota.
    unfold caught, cache. clear caught cache.
    destruct production; cbn [negb].
    + rewrite bind_unfold. unfold mret at 1, M_ret at 1. cbv beta iota.
      rewrite bind_unfold. unfold try_catch. rewrite bind_unfold, Ha.
      by destruct r as [[]|e|].
    + rewrite !bind_unfold. unfold alloc_cache at 1. cbv beta iota.
      unfold mret at 1, M_ret at 1. cbv beta iota.
      rewrite bind_unfold. unfold try_catch. rewrite bind_unfold, Ha.
      by destruct r as [[]|e|].
  - intros Ht n id args w'.
    change (apply (S n) (VFun (FCombination ?i ?f ?e ?c)) args w')
      with (combination INIT REPLACE production (apply n) f e c args w').
    unfold combination. rewrite bind_unfold.
    destruct (strict_eq (arg args 0) VUndefined).
    + rewrite bind_unfold, alloc_object_eq. cbv beta iota. rewrite Ht. eauto.
    + unfold mret at 1, M_ret at 1. cbv beta iota. rewrite Ht. eauto.
  - intros Ht n id args w'.
    change (apply (S n) (VFun (FCombination ?i ?f ?e ?c)) args w')
      with (combination INIT REPLACE production (apply n) f e c args w').
    unfold combination. rewrite !bind_unfold.
    destruct (_ w') as [[state|e|] w0]; [|done..]. by rewrite Ht.
Qed.

Lemma combination_loop_undefined call reducers state action pre key post w ios wa
    previous wb hasChanged nextState :
  slice_calls call reducers state action pre w ios wa →
  "__proto__" ∉ pre →
  Forall (λ io, is_Some (same_object io.2 io.1)) ios →
  get (heap wa) state key = Some previous →
  call (assoc_get key reducers) [previous; action] wa = (Normal VUndefined, wb) →
  (truthy action = true →
   ∃ t, get (heap wb) action "type" = Some t ∧ ∀ l, t ≠ VObj l) →
  combination_loop call reducers (pre ++ key :: post) state action
    hasChanged (Rec (VObj ObjectPrototype) nextState) w
  = (Thrown (VError (ErrSliceReturnedUndefined key)), wb).
Proof.
  intros H Hp Hsame Hg Hc Ht. revert hasChanged nextState.
  induction H as [w|k ks w prev next w1 ios w' Hg' Hc' Hn _ IH];
    intros hasChanged nextState; cbn [app combination_loop].
  - rewrite bind_unfold, (getM_eq _ _ _ _ Hg). cbv beta iota.
    rewrite bind_unfold, Hc. cbv beta iota. cbn [typeof].
    rewrite bool_decide_eq_true_2 by done. rewrite bind_unfold.
    destruct (truthy action) eqn:Ha.
    + destruct (Ht eq_refl) as (t & Hty & Hobj).
      rewrite (getM_eq _ _ _ _ Hty). cbv beta iota. rewrite bind_unfold.
      destruct (truthy t); [|done]. destruct t; try done. by destruct (Hobj l).
    + unfold mret at 1, M_ret at 1. cbv beta iota. by rewrite Ha.
  - apply not_elem_of_cons in Hp as [Hk Hp].
    apply Forall_cons in Hsame as [[c Hsame] Hrest]. cbn [fst snd] in Hsame.
    rewrite bind_unfold, (getM_eq _ _ _ _ Hg'). cbv beta iota.
    rewrite bind_unfold, Hc'. cbv beta iota.
    rewrite bool_decide_eq_false_2 by (by rewrite typeof_undefined).
    rewrite bind_unfold, rec_set_put by done. cbv beta iota.
    rewrite bind_unfold. destruct hasChanged.
    + unfold mret at 1, M_ret at 1. cbv beta iota. by apply IH.
    + rewrite bind_unfold, Hsame. unfold defined, mret at 1, M_ret at 1.
      cbv beta iota. unfold mret at 1, M_ret at 1. cbv beta iota. by apply IH.
Qed.

(** The combined reducer calls its slice reducers in key order and stops
    at the first one that returns [undefined]: it throws the error that
    names that key, in the memory that reducer left, and the reducers
    after it are not called.  (The message of the error renders the type of
    the action, which runs no code when that type is not an object.) *)
Theorem combination_slice_undefined budget id fr shapeAssertionError
    unexpectedKeyCache s action w state w0 w1 pre key post ios wa previous wb :
  truthy shapeAssertionError = false →
  fr.*1 = pre ++ key :: post → "__proto__" ∉ pre →
  default_state s w = (state, w0) →
  warn_unexpected_state_shape INIT REPLACE production (apply budget) fr
    unexpectedKeyCache state action w0 = (Normal tt, w1) →
  slice_calls (apply budget) fr state action pre w1 ios wa →
  Forall (λ io, is_Some (same_object io.2 io.1)) ios →
  get (heap wa) state key = Some previous →
  apply budget (assoc_get key fr) [previous; action] wa = (Normal VUndefined, wb) →
  (truthy action = true →
   ∃ t, get (heap wb) action "type" = Some t ∧ ∀ l, t ≠ VObj l) →
  apply (S budget)
    (VFun (FCombination id fr shapeAssertionError unexpectedKeyCache))
    [s; action] w
  = (Thrown (VError (ErrSliceReturnedUndefined key)), wb).
Proof.
  intros Hsh Hkeys Hp Hstate Hwarn Hcalls Hsame Hg Hc Ht.
  change (apply (S budget) (VFun (FCombination ?i ?f ?e ?c)) ?args w)
    with (combination INIT REPLACE production (apply budget) f e c args w).
  unfold combination.
  change (arg [s; action] 0) with s.
  change (arg [s; action] 1) with action.
  rewrite bind_unfold.
  assert ((if strict_eq s VUndefined
           then l ← alloc_object (literal []); mret (VObj l)
           else mret s) w = (Normal state, w0)) as ->.
  { unfold default_state in Hstate.
    destruct (strict_eq s VUndefined); by injection Hstate as <- <-. }
  cbv beta iota. rewrite Hsh.
  rewrite bind_unfold, Hwarn. cbv beta iota. rewrite Hkeys. unfold empty_record.
  by rewrite bind_unfold,
    (combination_loop_undefined _ _ _ _ _ _ _ _ _ _ _ _ _ _ Hcalls Hp Hsame Hg Hc Ht).
Qed.

(** *** The warning about unexpected state keys *)






Lemma get_proto_accessor h l v :
  get h (VObj l) "__proto__" = Some v → proto_accessor h l = Some false.
Proof.
  unfold get. rewrite String.eqb_refl. by destruct (proto_accessor h l) as [[]|].
Qed.






(** *** The stores between calls *)

(** In every memory that calls lead to from the initial one, each store's
    pending listener list is an allocated array, and no two stores have
    the same array as their pending list. *)
Theorem stores_own_their_lists w :
  reachable initial_world w →
  ∀ s st, stores w !! s = Some st →
    nextListeners st < length (arrays w) ∧
    ∀ s' st', stores w !! s' = Some st' →
      nextListeners st' = nextListeners st → s' = s.
Proof.
  intros Hr. by destruct (reachable_keeps _ _ wf_initial_world Hr).
Qed.

Lemma ended_settled w w' : wf w → ended w w' → wf w' ∧ settled w w'.
Proof.
  intros Hw. induction 1 as [|w w1 w2 budget f args r _ IH E Hr].
  - auto using settled_refl.
  - destruct (IH Hw) as [Hw1 H1].
    destruct (steady_apply _ _ _ _ _ _ Hw1 E Hr). eauto using settled_trans.
Qed.

(** No store is left locked: after any sequence of calls made from the
    initial memory, each of which has ended, whether it returned or threw,
    no store is dispatching, so that [getState], [subscribe] and
    [dispatch] are not refused for that reason. *)
Theorem no_store_left_dispatching w :
  ended initial_world w →
  ∀ s st, stores w !! s = Some st →
    isDispatching st = false ∧ getState s w = (Normal (currentState st), w).
Proof.
  intros He s st Hs.
  destruct (ended_settled _ _ wf_initial_world He) as [_ [_ Hnew]].
  assert (Hd : isDispatching st = false).
  { apply (Hnew s); [done|]. simpl. lia. }
  split; [done|].
  unfold getState. rewrite bind_unfold, (get_store_eq _ _ _ Hs). cbv beta iota.
  by rewrite Hd.
Qed.

End Program.

End ReduxFacts.

(* ===================================================================== *)
(** * The theorems on the sample program *)
(* ===================================================================== *)

Module Witnesses.
Import JS Redux JSFacts ReduxFacts Examples.

#[local] Abbreviation wf_apply :=
  (safe_apply INIT REPLACE PROBE_UNKNOWN_ACTION OBSERVABLE false program).

Ltac evaluate := vm_compute; reflexivity.

Lemma wf_memory : wf memory.
Proof.
  eapply (wf_apply 9 (VFun (FUser 7)) [] initial_world (Normal _));
    [apply wf_initial_world|evaluate].
Qed.

Lemma wf_memory_adopted : wf memory_adopted.
Proof.
  eapply (wf_apply 9 (VFun (FUser 8)) [] initial_world (Normal _));
    [apply wf_initial_world|evaluate].
Qed.

(** An instance: the object [{type: "+"}]. *)
Lemma isPlainObject_spec_witness :
  (∀ l, VObj 3 = VObj l → ∃ t, terminal (heap memory) l t) ∧
  ∃ b, isPlainObject (heap memory) (VObj 3) = Some b ∧
    (b = true ↔
       ∃ l t, VObj 3 = VObj l ∧ terminal (heap memory) l t ∧
              getPrototypeOf (heap memory) l = Some (Some t)) ∧
    (VObj 3 = VNull → b = false) ∧
    (typeof (VObj 3) ≠ TObject → b = false) ∧
    (∀ l, VObj 3 = VObj l → getPrototypeOf (heap memory) l = Some None → b = false) ∧
    (∀ l p q, VObj 3 = VObj l → getPrototypeOf (heap memory) l = Some (Some p) →
       getPrototypeOf (heap memory) p = Some (Some q) → b = false).
Proof.
  assert (H : ∀ l, VObj 3 = VObj l → ∃ t, terminal (heap memory) l t).
  { intros l [= <-]. exists 0, 1.
    eapply hops_S; [reflexivity|reflexivity|]. eapply hops_O; reflexivity. }
  exact (conj H (isPlainObject_spec (heap memory) (VObj 3) H)).
Defined.

(** An instance: the dispatch of the number 5. *)
Lemma dispatch_rejects_action_witness :
  (isPlainObject (heap memory) (VNum 5) = Some false ∨
   (isPlainObject (heap memory) (VNum 5) = Some true ∧
    get (heap memory) (VNum 5) "type" = Some VUndefined)) ∧
  ∃ e,
    apply 2 (VFun (FDispatch 0)) [VNum 5] memory = (Thrown (VError e), memory) ∧
    (∀ call n, dispatch call n 0 (VNum 5) memory = (Thrown (VError e), memory)) ∧
    ∀ r w', apply 2 (VFun (FDispatch 0)) [VNum 5] memory = (r, w') →
      getState 0 w' = getState 0 memory.
Proof.
  assert (H : isPlainObject (heap memory) (VNum 5) = Some false ∨
              (isPlainObject (heap memory) (VNum 5) = Some true ∧
               get (heap memory) (VNum 5) "type" = Some VUndefined))
    by (left; evaluate).
  exact (conj H
    (dispatch_rejects_action INIT REPLACE PROBE_UNKNOWN_ACTION OBSERVABLE false program
       1 0 (VNum 5) memory H)).
Defined.

(** An instance: the dispatch of [{type: "+"}]. *)
Lemma dispatch_plain_action_witness :
  wf memory ∧ stores memory !! 0 = Some memory_store ∧
  isDispatching memory_store = false ∧
  isPlainObject (heap memory) (VObj 3) = Some true ∧
  get (heap memory) (VObj 3) "type" = Some (VStr "+") ∧
  VStr "+" ≠ VUndefined ∧
  apply 5 (currentReducer memory_store) [currentState memory_store; VObj 3]
    (begin_dispatch 0 memory) = (Normal (VNum 1), memory_dispatching) ∧
  ∃ st1 ls,
    stores memory_dispatching !! 0 = Some st1 ∧
    arrays memory_dispatching !! nextListeners st1 = Some ls ∧
    stores (commit_dispatch 0 (VNum 1) memory_dispatching) !! 0 =
      Some (StoreVars (currentReducer st1) (VNum 1) (Some (nextListeners st1))
              (nextListeners st1) false (store st1)) ∧
    arrays (commit_dispatch 0 (VNum 1) memory_dispatching) !! nextListeners st1
      = Some ls ∧
    (length ls < 5 →
     apply 6 (VFun (FDispatch 0)) [VObj 3] memory =
     match call_each (apply 5) ls (commit_dispatch 0 (VNum 1) memory_dispatching) with
     | (Normal _, w2) => (Normal (VObj 3), w2)
     | (Thrown e, w2) => (Thrown e, w2)
     | (Diverged, w2) => (Diverged, w2)
     end).
Proof.
  assert (H1 : stores memory !! 0 = Some memory_store) by evaluate.
  assert (H2 : isDispatching memory_store = false) by evaluate.
  assert (H3 : isPlainObject (heap memory) (VObj 3) = Some true) by evaluate.
  assert (H4 : get (heap memory) (VObj 3) "type" = Some (VStr "+")) by evaluate.
  assert (H5 : VStr "+" ≠ VUndefined) by discriminate.
  assert (H6 : apply 5 (currentReducer memory_store)
                 [currentState memory_store; VObj 3] (begin_dispatch 0 memory)
               = (Normal (VNum 1), memory_dispatching)) by evaluate.
  exact (conj wf_memory (conj H1 (conj H2 (conj H3 (conj H4 (conj H5 (conj H6
    (dispatch_plain_action INIT REPLACE PROBE_UNKNOWN_ACTION OBSERVABLE false program
       5 0 (VObj 3) memory memory_store (VStr "+") (VNum 1) memory_dispatching
       wf_memory H1 H2 H3 H4 H5 H6)))))))).
Defined.

(** An instance: the dispatch of [{type: "boom"}]. *)
Lemma dispatch_reducer_throws_witness :
  wf memory ∧ stores memory !! 0 = Some memory_store ∧
  isDispatching memory_store = false ∧
  isPlainObject (heap memory) (VObj 4) = Some true ∧
  get (heap memory) (VObj 4) "type" = Some (VStr "boom") ∧
  VStr "boom" ≠ VUndefined ∧
  apply 5 (currentReducer memory_store) [currentState memory_store; VObj 4]
    (begin_dispatch 0 memory) = (Thrown (VStr "boom"), memory_dispatching) ∧
  apply 6 (VFun (FDispatch 0)) [VObj 4] memory
    = (Thrown (VStr "boom"), abort_dispatch 0 memory_dispatching) ∧
  ∃ st',
    stores (abort_dispatch 0 memory_dispatching) !! 0 = Some st' ∧
    isDispatching st' = false ∧
    getState 0 (abort_dispatch 0 memory_dispatching)
      = (Normal (currentState st'), abort_dispatch 0 memory_dispatching) ∧
    (∀ listener, typeof listener = TFunction →
       ∃ u w', subscribe 0 listener (abort_dispatch 0 memory_dispatching)
               = (Normal u, w')) ∧
    (∀ call n a r w',
       (∀ f args, never_throws (VError ErrReducersMayNotDispatch) (call f args)) →
       dispatch call n 0 a (abort_dispatch 0 memory_dispatching) = (r, w') →
       r ≠ Thrown (VError ErrReducersMayNotDispatch)).
Proof.
  assert (H1 : stores memory !! 0 = Some memory_store) by evaluate.
  assert (H2 : isDispatching memory_store = false) by evaluate.
  assert (H3 : isPlainObject (heap memory) (VObj 4) = Some true) by evaluate.
  assert (H4 : get (heap memory) (VObj 4) "type" = Some (VStr "boom")) by evaluate.
  assert (H5 : VStr "boom" ≠ VUndefined) by discriminate.
  assert (H6 : apply 5 (currentReducer memory_store)
                 [currentState memory_store; VObj 4] (begin_dispatch 0 memory)
               = (Thrown (VStr "boom"), memory_dispatching)) by evaluate.
  exact (conj wf_memory (conj H1 (conj H2 (conj H3 (conj H4 (conj H5 (conj H6
    (dispatch_reducer_throws INIT REPLACE PROBE_UNKNOWN_ACTION OBSERVABLE false program
       5 0 (VObj 4) memory memory_store (VStr "boom") (VStr "boom")
       memory_dispatching wf_memory H1 H2 H3 H4 H5 H6)))))))).
Defined.

(** An instance: the store of [memory_adopted], whose listener list is frozen
    while a [subscribe] is made. *)
Lemma listener_snapshot_fixed_witness :
  wf memory_adopted ∧ stores memory_adopted !! 0 = Some memory_adopted_store ∧
  currentListeners memory_adopted_store = Some (nextListeners memory_adopted_store) ∧
  arrays memory_adopted !! nextListeners memory_adopted_store = Some [VFun (FUser 2)] ∧
  reachable INIT REPLACE PROBE_UNKNOWN_ACTION OBSERVABLE false program
    memory_adopted memory_subscribed ∧
  arrays memory_subscribed !! nextListeners memory_adopted_store
    = Some [VFun (FUser 2)] ∧
  (∀ budget n i, length [VFun (FUser 2)] - i < n →
     notify (Redux.apply INIT REPLACE PROBE_UNKNOWN_ACTION OBSERVABLE false program budget) n
       (nextListeners memory_adopted_store) i memory_subscribed
     = call_each (Redux.apply INIT REPLACE PROBE_UNKNOWN_ACTION OBSERVABLE false program budget)
         (drop i [VFun (FUser 2)]) memory_subscribed) ∧
  (∀ listener u w', subscribe 0 listener memory_subscribed = (Normal u, w') →
     ∃ st0 st' xs,
       stores memory_subscribed !! 0 = Some st0 ∧
       arrays memory_subscribed !! nextListeners st0 = Some xs ∧
       stores w' !! 0 = Some st' ∧
       nextListeners st' ≠ nextListeners memory_adopted_store ∧
       arrays w' !! nextListeners st' = Some (xs ++ [listener]) ∧
       arrays w' !! nextListeners memory_adopted_store = Some [VFun (FUser 2)]) ∧
  (∀ listener c u w', cells memory_subscribed !! c = Some true →
     unsubscribe 0 listener c memory_subscribed = (Normal u, w') →
     ∃ st0 st' xs,
       stores memory_subscribed !! 0 = Some st0 ∧
       arrays memory_subscribed !! nextListeners st0 = Some xs ∧
       stores w' !! 0 = Some st' ∧
       nextListeners st' ≠ nextListeners memory_adopted_store ∧
       currentListeners st' = None ∧
       arrays w' !! nextListeners st' = Some (splice1 xs (indexOf xs listener)) ∧
       arrays w' !! nextListeners memory_adopted_store = Some [VFun (FUser 2)]).
Proof.
  assert (H1 : stores memory_adopted !! 0 = Some memory_adopted_store) by evaluate.
  assert (H2 : currentListeners memory_adopted_store
               = Some (nextListeners memory_adopted_store)) by evaluate.
  assert (H3 : arrays memory_adopted !! nextListeners memory_adopted_store
               = Some [VFun (FUser 2)]) by evaluate.
  assert (H4 : reachable INIT REPLACE PROBE_UNKNOWN_ACTION OBSERVABLE false program
                 memory_adopted memory_subscribed).
  { eapply (reachable_call _ _ _ _ _ _ _ _ _ 3 (VFun (FSubscribe 0)) [VFun (FUser 1)]
              (Normal _)); [apply reachable_refl|evaluate]. }
  exact (conj wf_memory_adopted (conj H1 (conj H2 (conj H3 (conj H4
    (listener_snapshot_fixed INIT REPLACE PROBE_UNKNOWN_ACTION OBSERVABLE false program
       0 memory_adopted_store [VFun (FUser 2)] memory_adopted memory_subscribed
       wf_memory_adopted H1 H2 H3 H4)))))).
Defined.

(** An instance: [createStore(f0, undefined, f4)]. *)
Lemma createStore_arguments_witness :
  typeof (VFun (FUser 4)) = TFunction ∧ typeof VUndefined ≠ TFunction ∧
  typeof (arg [VFun (FUser 0); VUndefined; VFun (FUser 4)] 3) ≠ TFunction ∧
  apply 6 (VFun FCreateStore) [VFun (FUser 0); VUndefined; VFun (FUser 4)]
    initial_world
  = run (apply 5) (enhance (VFun (FUser 4)) (VFun (FUser 0)) VUndefined)
      initial_world.
Proof.
  assert (H1 : typeof (VFun (FUser 4)) = TFunction) by reflexivity.
  assert (H2 : typeof VUndefined ≠ TFunction) by discriminate.
  assert (H3 : typeof (arg [VFun (FUser 0); VUndefined; VFun (FUser 4)] 3)
               ≠ TFunction) by discriminate.
  exact (conj H1 (conj H2 (conj H3
    (proj2 (proj2
       (createStore_arguments INIT REPLACE PROBE_UNKNOWN_ACTION OBSERVABLE false program
          5 [VFun (FUser 0); VUndefined; VFun (FUser 4)] initial_world))
       H1 H2 H3)))).
Defined.





(** An instance: [combineReducers({count: f3})], whose reducer returns the
    [undefined] state it is given. *)
Lemma combineReducers_defers_shape_error_witness :
  (reducerKeys ← keysM (VObj 5);
   combineReducers_loop false (VObj 5) reducerKeys []) memory
    = (Normal [("count", VFun (FUser 3))], memory) ∧
  shape_violation INIT PROBE_UNKNOWN_ACTION (apply 5) [("count", VFun (FUser 3))]
    [("count", VFun (FUser 3))].*1
    (set_caches (caches memory ++ [[]]) memory)
    (ErrSliceInitUndefined "count") memory_probed ∧
  ∃ c,
    apply 6 (VFun FCombineReducers) [VObj 5] memory
    = (Normal (VFun c), set_next_id (S (next_id memory_probed)) memory_probed) ∧
    c = FCombination (next_id memory_probed) [("count", VFun (FUser 3))]
          (VError (ErrSliceInitUndefined "count")) (Some (length (caches memory))) ∧
    ∀ n args w', ∃ w'',
      Redux.apply INIT REPLACE PROBE_UNKNOWN_ACTION OBSERVABLE false program (S n) (VFun c) args w'
      = (Thrown (VError (ErrSliceInitUndefined "count")), w'').
Proof.
  assert (H1 : (reducerKeys ← keysM (VObj 5);
                combineReducers_loop false (VObj 5) reducerKeys []) memory
               = (Normal [("count", VFun (FUser 3))], memory)) by evaluate.
  assert (H2 : shape_violation INIT PROBE_UNKNOWN_ACTION (apply 5)
                 [("count", VFun (FUser 3))] [("count", VFun (FUser 3))].*1
                 (set_caches (caches memory ++ [[]]) memory)
                 (ErrSliceInitUndefined "count") memory_probed).
  { apply violation_init. evaluate. }
  exact (conj H1 (conj H2
    (combineReducers_defers_shape_error INIT REPLACE PROBE_UNKNOWN_ACTION OBSERVABLE false
       program 5 (VObj 5) [("count", VFun (FUser 3))] memory memory
       (ErrSliceInitUndefined "count") memory_probed H1 H2))).
Defined.

(** ** Instances of the further properties *)

Lemma wf_memory_listening : wf memory_listening.
Proof.
  eapply (wf_apply 3 (VFun (FSubscribe 0)) [VFun (FUser 2)]
            (snd (apply 3 (VFun (FSubscribe 0)) [VFun (FDispatch 0)] memory))
            (Normal _));
    [|evaluate].
  eapply (wf_apply 3 (VFun (FSubscribe 0)) [VFun (FDispatch 0)] memory (Normal _));
    [apply wf_memory|evaluate].
Qed.

(** An instance: [{type: "+"}] after one more object has been allocated. *)
Lemma isPlainObject_links_witness :
  (∀ l o, heap memory !! l = Some o →
     ∃ o', heap memory_mixed !! l = Some o' ∧ proto o' = proto o) ∧
  isPlainObject (heap memory) (VObj 3) = Some true ∧
  isPlainObject (heap memory_mixed) (VObj 3) = Some true.
Proof.
  assert (H1 : ∀ l o, heap memory !! l = Some o →
                 ∃ o', heap memory_mixed !! l = Some o' ∧ proto o' = proto o).
  { intros l o Hl. exists o. split; [|done].
    change (heap memory_mixed) with (heap memory ++
      [literal [("a", VFun (FUser 3)); ("b", VNum 1);
                ("c", VUndefined); ("d", VFun (FUser 0))]]).
    by apply lookup_app_l_Some. }
  assert (H2 : isPlainObject (heap memory) (VObj 3) = Some true) by evaluate.
  exact (conj H1 (conj H2
    (isPlainObject_links (heap memory) (heap memory_mixed) (VObj 3) true H1 H2))).
Defined.

(** An instance: the dispatch of [{type: "+"}], whose second listener
    subscribes a third. *)
Lemma calls_settle_witness :
  wf memory ∧
  apply 6 (VFun (FDispatch 0)) [VObj 3] memory
  = (Normal (VObj 3), memory_dispatched) ∧
  Normal (VObj 3) ≠ Diverged ∧
  settled memory memory_dispatched.
Proof.
  assert (H1 : apply 6 (VFun (FDispatch 0)) [VObj 3] memory
    = (Normal (VObj 3), memory_dispatched))
    by evaluate.
  assert (H2 : Normal (VObj 3) ≠ @Diverged value) by discriminate.
  exact (conj wf_memory (conj H1 (conj H2
    (calls_settle INIT REPLACE PROBE_UNKNOWN_ACTION OBSERVABLE false program
       6 (VFun (FDispatch 0)) [VObj 3] memory (Normal (VObj 3)) memory_dispatched
       wf_memory H1 H2)))).
Defined.

(** An instance: the counter store while its reducer runs. *)
Lemma store_locked_while_reducing_witness :
  stores memory_dispatching !! 0 = Some (set_isDispatching true memory_store) ∧
  isDispatching (set_isDispatching true memory_store) = true ∧
  getState 0 memory_dispatching
  = (Thrown (VError ErrGetStateWhileDispatching), memory_dispatching) ∧
  (∀ listener, typeof listener = TFunction →
     subscribe 0 listener memory_dispatching
     = (Thrown (VError ErrSubscribeWhileDispatching), memory_dispatching)) ∧
  (∀ listener c, cells memory_dispatching !! c = Some true →
     unsubscribe 0 listener c memory_dispatching
     = (Thrown (VError ErrUnsubscribeWhileDispatching), memory_dispatching)) ∧
  (∀ listener c, cells memory_dispatching !! c = Some false →
     unsubscribe 0 listener c memory_dispatching
     = (Normal VUndefined, memory_dispatching)) ∧
  (∀ call budget action t,
     isPlainObject (heap memory_dispatching) action = Some true →
     get (heap memory_dispatching) action "type" = Some t → t ≠ VUndefined →
     dispatch call budget 0 action memory_dispatching
     = (Thrown (VError ErrReducersMayNotDispatch), memory_dispatching)).
Proof.
  assert (H1 : stores memory_dispatching !! 0
               = Some (set_isDispatching true memory_store)) by evaluate.
  assert (H2 : isDispatching (set_isDispatching true memory_store) = true) by done.
  exact (conj H1 (conj H2
    (store_locked_while_reducing 0 _ memory_dispatching H1 H2))).
Defined.

(** An instance: the identity reducer given to the counter store while
    its reducer runs. *)
Lemma replaceReducer_while_reducing_witness :
  stores memory_dispatching !! 0 = Some (set_isDispatching true memory_store) ∧
  isDispatching (set_isDispatching true memory_store) = true ∧
  typeof (VFun (FUser 3)) = TFunction ∧
  getPrototypeOf (heap memory_dispatching) ObjectPrototype = Some None ∧
  ∃ w',
    replaceReducer REPLACE (apply 3) 3 0 (VFun (FUser 3)) memory_dispatching
    = (Thrown (VError ErrReducersMayNotDispatch), w') ∧
    stores w' !! 0
    = Some (set_currentReducer (VFun (FUser 3)) (set_isDispatching true memory_store)) ∧
    (∀ s', s' ≠ 0 → stores w' !! s' = stores memory_dispatching !! s') ∧
    arrays w' = arrays memory_dispatching.
Proof.
  assert (H1 : stores memory_dispatching !! 0
               = Some (set_isDispatching true memory_store)) by evaluate.
  assert (H2 : isDispatching (set_isDispatching true memory_store) = true) by done.
  assert (H3 : typeof (VFun (FUser 3)) = TFunction) by done.
  assert (H4 : getPrototypeOf (heap memory_dispatching) ObjectPrototype = Some None)
    by evaluate.
  exact (conj H1 (conj H2 (conj H3 (conj H4
    (replaceReducer_while_reducing REPLACE (apply 3) 3 0 _ (VFun (FUser 3))
       memory_dispatching H1 H2 H3 H4))))).
Defined.

(** An instance: listener 2, already subscribed, is subscribed again and
    that subscription is cancelled: the list [f2; f1] becomes [f1; f2]. *)
Lemma subscribe_then_unsubscribe_witness :
  wf memory ∧ stores memory !! 0 = Some memory_store ∧
  isDispatching memory_store = false ∧ typeof (VFun (FUser 2)) = TFunction ∧
  arrays memory !! nextListeners memory_store
  = Some [VFun (FUser 2); VFun (FUser 1)] ∧
  ∃ c w1 w2 st2,
    subscribe 0 (VFun (FUser 2)) memory
    = (Normal (VFun (FUnsubscribe 0 (VFun (FUser 2)) c)), w1) ∧
    unsubscribe 0 (VFun (FUser 2)) c w1 = (Normal VUndefined, w2) ∧
    stores w2 !! 0 = Some st2 ∧
    arrays w2 !! nextListeners st2 =
      Some (if (indexOf [VFun (FUser 2); VFun (FUser 1)] (VFun (FUser 2)) <? 0)%Z
            then [VFun (FUser 2); VFun (FUser 1)]
            else splice1 [VFun (FUser 2); VFun (FUser 1)]
                   (indexOf [VFun (FUser 2); VFun (FUser 1)] (VFun (FUser 2)))
                 ++ [VFun (FUser 2)]).
Proof.
  assert (H1 : stores memory !! 0 = Some memory_store) by evaluate.
  assert (H2 : isDispatching memory_store = false) by done.
  assert (H3 : typeof (VFun (FUser 2)) = TFunction) by done.
  assert (H4 : arrays memory !! nextListeners memory_store
               = Some [VFun (FUser 2); VFun (FUser 1)]) by evaluate.
  exact (conj wf_memory (conj H1 (conj H2 (conj H3 (conj H4
    (subscribe_then_unsubscribe 0 memory_store (VFun (FUser 2)) _ memory
       wf_memory H1 H2 H3 H4)))))).
Defined.

(** An instance: the first subscription of [memory] is cancelled. *)
Lemma unsubscribe_twice_witness :
  wf memory ∧
  unsubscribe 0 (VFun (FUser 2)) 0 memory
  = (Normal VUndefined, snd (unsubscribe 0 (VFun (FUser 2)) 0 memory)) ∧
  VUndefined = VUndefined ∧
  cells (snd (unsubscribe 0 (VFun (FUser 2)) 0 memory)) !! 0 = Some false ∧
  unsubscribe 0 (VFun (FUser 2)) 0 (snd (unsubscribe 0 (VFun (FUser 2)) 0 memory))
  = (Normal VUndefined, snd (unsubscribe 0 (VFun (FUser 2)) 0 memory)).
Proof.
  assert (H1 : unsubscribe 0 (VFun (FUser 2)) 0 memory
    = (Normal VUndefined, snd (unsubscribe 0 (VFun (FUser 2)) 0 memory)))
    by evaluate.
  exact (conj wf_memory (conj H1
    (unsubscribe_twice 0 (VFun (FUser 2)) 0 memory _ _ wf_memory H1))).
Defined.

(** An instance: the dispatch of [{type: "+"}] to the counter store. *)
Lemma dispatch_notifies_subscribed_witness :
  wf memory ∧ stores memory !! 0 = Some memory_store ∧
  isDispatching memory_store = false ∧
  isPlainObject (heap memory) (VObj 3) = Some true ∧
  get (heap memory) (VObj 3) "type" = Some (VStr "+") ∧
  VStr "+" ≠ VUndefined ∧
  arrays memory !! nextListeners memory_store
  = Some [VFun (FUser 2); VFun (FUser 1)] ∧
  length [VFun (FUser 2); VFun (FUser 1)] < 5 ∧
  apply 5 (currentReducer memory_store) [currentState memory_store; VObj 3]
    (begin_dispatch 0 memory) = (Normal (VNum 1), memory_dispatching) ∧
  (∃ reducer,
     stores (commit_dispatch 0 (VNum 1) memory_dispatching) !! 0 =
       Some (StoreVars reducer (VNum 1) (Some (nextListeners memory_store))
               (nextListeners memory_store) false (store memory_store))) ∧
  arrays (commit_dispatch 0 (VNum 1) memory_dispatching)
    !! nextListeners memory_store
  = Some [VFun (FUser 2); VFun (FUser 1)] ∧
  apply 6 (VFun (FDispatch 0)) [VObj 3] memory =
  match call_each (apply 5) [VFun (FUser 2); VFun (FUser 1)]
          (commit_dispatch 0 (VNum 1) memory_dispatching) with
  | (Normal _, w2) => (Normal (VObj 3), w2)
  | (Thrown e, w2) => (Thrown e, w2)
  | (Diverged, w2) => (Diverged, w2)
  end.
Proof.
  assert (H1 : stores memory !! 0 = Some memory_store) by evaluate.
  assert (H2 : isDispatching memory_store = false) by done.
  assert (H3 : isPlainObject (heap memory) (VObj 3) = Some true) by evaluate.
  assert (H4 : get (heap memory) (VObj 3) "type" = Some (VStr "+")) by evaluate.
  assert (H5 : VStr "+" ≠ VUndefined) by discriminate.
  assert (H6 : arrays memory !! nextListeners memory_store
               = Some [VFun (FUser 2); VFun (FUser 1)]) by evaluate.
  assert (H7 : length [VFun (FUser 2); VFun (FUser 1)] < 5) by (simpl; lia).
  assert (H8 : apply 5 (currentReducer memory_store)
                 [currentState memory_store; VObj 3] (begin_dispatch 0 memory)
               = (Normal (VNum 1), memory_dispatching)) by evaluate.
  exact (conj wf_memory (conj H1 (conj H2 (conj H3 (conj H4 (conj H5 (conj H6
    (conj H7 (conj H8
    (dispatch_notifies_subscribed INIT REPLACE PROBE_UNKNOWN_ACTION OBSERVABLE false program
       5 0 (VObj 3) memory memory_store (VStr "+") _ (VNum 1) memory_dispatching
       wf_memory H1 H2 H3 H4 H5 H6 H7 H8)))))))))).
Defined.

(** An instance: of the listeners [f2; f1; dispatch; f2], the third throws
    for want of an action. *)
Lemma dispatch_listener_throws_witness :
  wf memory_listening ∧ stores memory_listening !! 0 = Some memory_store ∧
  isDispatching memory_store = false ∧
  isPlainObject (heap memory_listening) (VObj 3) = Some true ∧
  get (heap memory_listening) (VObj 3) "type" = Some (VStr "+") ∧
  VStr "+" ≠ VUndefined ∧
  arrays memory_listening !! nextListeners memory_store
  = Some ([VFun (FUser 2); VFun (FUser 1)] ++ VFun (FDispatch 0) :: [VFun (FUser 2)]) ∧
  length ([VFun (FUser 2); VFun (FUser 1)] ++ VFun (FDispatch 0) :: [VFun (FUser 2)])
  < 5 ∧
  apply 5 (currentReducer memory_store) [currentState memory_store; VObj 3]
    (begin_dispatch 0 memory_listening)
  = (Normal (VNum 1), begin_dispatch 0 memory_listening) ∧
  call_each (apply 5) [VFun (FUser 2); VFun (FUser 1)]
    (commit_dispatch 0 (VNum 1) (begin_dispatch 0 memory_listening))
  = (Normal tt,
     snd (call_each (apply 5) [VFun (FUser 2); VFun (FUser 1)]
            (commit_dispatch 0 (VNum 1) (begin_dispatch 0 memory_listening)))) ∧
  apply 5 (VFun (FDispatch 0)) []
    (snd (call_each (apply 5) [VFun (FUser 2); VFun (FUser 1)]
            (commit_dispatch 0 (VNum 1) (begin_dispatch 0 memory_listening))))
  = (Thrown (VError ErrActionNotPlain),
     snd (call_each (apply 5) [VFun (FUser 2); VFun (FUser 1)]
            (commit_dispatch 0 (VNum 1) (begin_dispatch 0 memory_listening)))) ∧
  apply 6 (VFun (FDispatch 0)) [VObj 3] memory_listening
  = (Thrown (VError ErrActionNotPlain),
     snd (call_each (apply 5) [VFun (FUser 2); VFun (FUser 1)]
            (commit_dispatch 0 (VNum 1) (begin_dispatch 0 memory_listening)))) ∧
  getState 0 (commit_dispatch 0 (VNum 1) (begin_dispatch 0 memory_listening))
  = (Normal (VNum 1), commit_dispatch 0 (VNum 1) (begin_dispatch 0 memory_listening)).
Proof.
  assert (H1 : stores memory_listening !! 0 = Some memory_store) by evaluate.
  assert (H2 : isDispatching memory_store = false) by done.
  assert (H3 : isPlainObject (heap memory_listening) (VObj 3) = Some true)
    by evaluate.
  assert (H4 : get (heap memory_listening) (VObj 3) "type" = Some (VStr "+"))
    by evaluate.
  assert (H5 : VStr "+" ≠ VUndefined) by discriminate.
  assert (H6 : arrays memory_listening !! nextListeners memory_store
    = Some ([VFun (FUser 2); VFun (FUser 1)]
            ++ VFun (FDispatch 0) :: [VFun (FUser 2)])) by evaluate.
  assert (H7 : length ([VFun (FUser 2); VFun (FUser 1)]
                       ++ VFun (FDispatch 0) :: [VFun (FUser 2)]) < 5)
    by (simpl; lia).
  assert (H8 : apply 5 (currentReducer memory_store)
                 [currentState memory_store; VObj 3]
                 (begin_dispatch 0 memory_listening)
               = (Normal (VNum 1), begin_dispatch 0 memory_listening)) by evaluate.
  assert (H9 : call_each (apply 5) [VFun (FUser 2); VFun (FUser 1)]
      (commit_dispatch 0 (VNum 1) (begin_dispatch 0 memory_listening))
    = (Normal tt,
       snd (call_each (apply 5) [VFun (FUser 2); VFun (FUser 1)]
              (commit_dispatch 0 (VNum 1) (begin_dispatch 0 memory_listening)))))
    by evaluate.
  assert (H10 : apply 5 (VFun (FDispatch 0)) []
      (snd (call_each (apply 5) [VFun (FUser 2); VFun (FUser 1)]
              (commit_dispatch 0 (VNum 1) (begin_dispatch 0 memory_listening))))
    = (Thrown (VError ErrActionNotPlain),
       snd (call_each (apply 5) [VFun (FUser 2); VFun (FUser 1)]
              (commit_dispatch 0 (VNum 1) (begin_dispatch 0 memory_listening)))))
    by evaluate.
  exact (conj wf_memory_listening (conj H1 (conj H2 (conj H3 (conj H4 (conj H5
    (conj H6 (conj H7 (conj H8 (conj H9 (conj H10
    (dispatch_listener_throws INIT REPLACE PROBE_UNKNOWN_ACTION OBSERVABLE false program
       5 0 (VObj 3) memory_listening memory_store (VStr "+")
       [VFun (FUser 2); VFun (FUser 1)] (VFun (FDispatch 0)) [VFun (FUser 2)]
       (VNum 1) _ _ _ _
       wf_memory_listening H1 H2 H3 H4 H5 H6 H7 H8 H9 H10)))))))))))).
Defined.

(** An instance: [createStore(f0)] in the initial memory. *)
Lemma createStore_initial_state_witness :
  wf initial_world ∧
  getPrototypeOf (heap initial_world) ObjectPrototype = Some None ∧
  typeof (VFun (FUser 0)) = TFunction ∧ typeof VUndefined ≠ TFunction ∧
  typeof VUndefined = TUndefined ∧
  apply 3 (VFun (FUser 0)) [VUndefined; VObj 1] (begin_dispatch 0 memory_creating)
  = (Normal (VNum 0), begin_dispatch 0 memory_creating) ∧
  own_keys (store_object OBSERVABLE 0)
  = ["dispatch"; "subscribe"; "getState"; "replaceReducer"; "@@observable"] ∧
  ∃ w' currentReducer,
    apply 4 (VFun FCreateStore) [VFun (FUser 0)] initial_world
    = (Normal (VObj 2), w') ∧
    heap w' = heap (begin_dispatch 0 memory_creating) ++ [store_object OBSERVABLE 0] ∧
    stores w' !! 0 =
      Some (StoreVars currentReducer (VNum 0) (Some 0) 0 false (Some 2)) ∧
    arrays w' !! 0 = Some [] ∧
    getState 0 w' = (Normal (VNum 0), w').
Proof.
  assert (H1 : getPrototypeOf (heap initial_world) ObjectPrototype = Some None)
    by done.
  assert (H2 : typeof (VFun (FUser 0)) = TFunction) by done.
  assert (H3 : typeof VUndefined ≠ TFunction) by discriminate.
  assert (H4 : typeof VUndefined = TUndefined) by done.
  assert (H5 : apply 3 (VFun (FUser 0)) [VUndefined; VObj 1]
                 (begin_dispatch 0 memory_creating)
               = (Normal (VNum 0), begin_dispatch 0 memory_creating)) by evaluate.
  assert (H6 : own_keys (store_object OBSERVABLE 0)
               = ["dispatch"; "subscribe"; "getState"; "replaceReducer";
                  "@@observable"]) by evaluate.
  exact (conj (wf_initial_world) (conj H1 (conj H2 (conj H3 (conj H4 (conj H5
    (conj H6
    (createStore_initial_state INIT REPLACE PROBE_UNKNOWN_ACTION OBSERVABLE false program
       3 [VFun (FUser 0)] initial_world (VNum 0) (begin_dispatch 0 memory_creating)
       wf_initial_world H1 H2 H3 H4 H5)))))))).
Defined.

(** An instance: the counter store is given the identity reducer. *)
Lemma replaceReducer_dispatches_replace_witness :
  wf memory ∧ getPrototypeOf (heap memory) ObjectPrototype = Some None ∧
  stores memory !! 0 = Some memory_store ∧ isDispatching memory_store = false ∧
  store memory_store = Some 2 ∧ typeof (VFun (FUser 3)) = TFunction ∧
  arrays memory !! nextListeners memory_store
  = Some [VFun (FUser 2); VFun (FUser 1)] ∧
  length [VFun (FUser 2); VFun (FUser 1)] < 5 ∧
  apply 5 (VFun (FUser 3)) [currentState memory_store; VObj 11]
    (begin_dispatch 0 memory_replacing)
  = (Normal (VNum 0), begin_dispatch 0 memory_replacing) ∧
  (∃ reducer,
     stores (commit_dispatch 0 (VNum 0) (begin_dispatch 0 memory_replacing)) !! 0 =
       Some (StoreVars reducer (VNum 0) (Some (nextListeners memory_store))
               (nextListeners memory_store) false (Some 2))) ∧
  apply 6 (VFun (FReplaceReducer 0)) [VFun (FUser 3)] memory =
  match call_each (apply 5) [VFun (FUser 2); VFun (FUser 1)]
          (commit_dispatch 0 (VNum 0) (begin_dispatch 0 memory_replacing)) with
  | (Normal _, w2) => (Normal (VObj 2), w2)
  | (Thrown e, w2) => (Thrown e, w2)
  | (Diverged, w2) => (Diverged, w2)
  end.
Proof.
  assert (H1 : getPrototypeOf (heap memory) ObjectPrototype = Some None) by evaluate.
  assert (H2 : stores memory !! 0 = Some memory_store) by evaluate.
  assert (H3 : isDispatching memory_store = false) by done.
  assert (H4 : store memory_store = Some 2) by done.
  assert (H5 : typeof (VFun (FUser 3)) = TFunction) by done.
  assert (H6 : arrays memory !! nextListeners memory_store
               = Some [VFun (FUser 2); VFun (FUser 1)]) by evaluate.
  assert (H7 : length [VFun (FUser 2); VFun (FUser 1)] < 5) by (simpl; lia).
  assert (H8 : apply 5 (VFun (FUser 3)) [currentState memory_store; VObj 11]
                 (begin_dispatch 0 memory_replacing)
               = (Normal (VNum 0), begin_dispatch 0 memory_replacing)) by evaluate.
  exact (conj wf_memory (conj H1 (conj H2 (conj H3 (conj H4 (conj H5 (conj H6
    (conj H7 (conj H8
    (replaceReducer_dispatches_replace INIT REPLACE PROBE_UNKNOWN_ACTION OBSERVABLE false
       program 5 0 memory_store 2 (VFun (FUser 3)) _ memory (VNum 0)
       (begin_dispatch 0 memory_replacing)
       wf_memory H1 H2 H3 H4 H5 H6 H7 H8)))))))))).
Defined.

(** An instance: the reducers object [{a: f3, b: 1, c: undefined, d: f0}]. *)
Lemma combineReducers_keeps_functions_witness :
  keys (heap memory_mixed) (VObj 11) = Some ["a"; "b"; "c"; "d"] ∧
  NoDup ["a"; "b"; "c"; "d"] ∧
  (∀ k, k ∈ ["a"; "b"; "c"; "d"] → is_Some (get (heap memory_mixed) (VObj 11) k)) ∧
  function_keys (heap memory_mixed) (VObj 11) ["a"; "b"; "c"; "d"] = ["a"; "d"] ∧
  ("__proto__" ∉ function_keys (heap memory_mixed) (VObj 11) ["a"; "b"; "c"; "d"]) ∧
  key_order ["a"; "b"; "c"; "d"] = true ∧
  ∃ fr,
    (reducerKeys ← keysM (VObj 11);
     combineReducers_loop false (VObj 11) reducerKeys []) memory_mixed =
    (Normal fr,
     set_console
       (console memory_mixed ++
        (WarnNoReducerForKey <$>
         filter (λ k, typeof (default VUndefined
                                (get (heap memory_mixed) (VObj 11) k))
                      = TUndefined) ["a"; "b"; "c"; "d"])) memory_mixed) ∧
    fr.*1 ≡ₚ function_keys (heap memory_mixed) (VObj 11) ["a"; "b"; "c"; "d"] ∧
    (∀ k, k ∈ function_keys (heap memory_mixed) (VObj 11) ["a"; "b"; "c"; "d"] →
       assoc_lookup k fr
       = Some (default VUndefined (get (heap memory_mixed) (VObj 11) k))) ∧
    (key_order ["a"; "b"; "c"; "d"] = true →
     fr = (λ k, (k, default VUndefined (get (heap memory_mixed) (VObj 11) k))) <$>
          function_keys (heap memory_mixed) (VObj 11) ["a"; "b"; "c"; "d"]).
Proof.
  assert (H1 : keys (heap memory_mixed) (VObj 11) = Some ["a"; "b"; "c"; "d"])
    by evaluate.
  assert (H2 : NoDup ["a"; "b"; "c"; "d"]) by compute_done.
  assert (H3 : ∀ k, k ∈ ["a"; "b"; "c"; "d"] →
                 is_Some (get (heap memory_mixed) (VObj 11) k)).
  { intros k Hk.
    repeat (apply elem_of_cons in Hk as [->|Hk]; [eexists; evaluate|]).
    by apply not_elem_of_nil in Hk. }
  assert (H4 : function_keys (heap memory_mixed) (VObj 11) ["a"; "b"; "c"; "d"]
               = ["a"; "d"]) by evaluate.
  assert (H5 : "__proto__" ∉
                 function_keys (heap memory_mixed) (VObj 11) ["a"; "b"; "c"; "d"]).
  { rewrite H4. compute_done. }
  assert (H6 : key_order ["a"; "b"; "c"; "d"] = true) by evaluate.
  exact (conj H1 (conj H2 (conj H3 (conj H4 (conj H5 (conj H6
    (combineReducers_keeps_functions false 11 _ memory_mixed H1 H2 H3 H5))))))).
Defined.

(** An instance: [combineReducers({count: f3})] in a program whose
    functions throw [null]: the first probe throws it, and the reducer
    returned does not rethrow it. *)
Lemma combineReducers_catches_witness :
  (reducerKeys ← keysM (VObj 5);
   combineReducers_loop false (VObj 5) reducerKeys []) memory
  = (Normal [("count", VFun (FUser 3))], memory) ∧
  assertReducerShape INIT PROBE_UNKNOWN_ACTION
    (Redux.apply INIT REPLACE PROBE_UNKNOWN_ACTION OBSERVABLE false throwing_program 3)
    [("count", VFun (FUser 3))] (set_caches (caches memory ++ [[]]) memory)
  = (Thrown VNull, memory_probed) ∧
  @Thrown unit VNull ≠ Diverged ∧
  Redux.apply INIT REPLACE PROBE_UNKNOWN_ACTION OBSERVABLE false throwing_program 4
    (VFun FCombineReducers) [VObj 5] memory
  = (Normal (VFun (FCombination (next_id memory_probed)
                     [("count", VFun (FUser 3))] VNull
                     (Some (length (caches memory))))),
     set_next_id (S (next_id memory_probed)) memory_probed) ∧
  (truthy VNull = true →
   ∀ n id args w', ∃ w'',
     Redux.apply INIT REPLACE PROBE_UNKNOWN_ACTION OBSERVABLE false throwing_program (S n)
       (VFun (FCombination id [("count", VFun (FUser 3))] VNull
                (Some (length (caches memory))))) args w'
     = (Thrown VNull, w'')) ∧
  (truthy VNull = false →
   ∀ n id args w',
     Redux.apply INIT REPLACE PROBE_UNKNOWN_ACTION OBSERVABLE false throwing_program (S n)
       (VFun (FCombination id [("count", VFun (FUser 3))] VNull
                (Some (length (caches memory))))) args w'
     = Redux.apply INIT REPLACE PROBE_UNKNOWN_ACTION OBSERVABLE false throwing_program (S n)
         (VFun (FCombination id [("count", VFun (FUser 3))] VUndefined
                  (Some (length (caches memory))))) args w').
Proof.
  assert (H1 : (reducerKeys ← keysM (VObj 5);
                combineReducers_loop false (VObj 5) reducerKeys []) memory
               = (Normal [("count", VFun (FUser 3))], memory)) by evaluate.
  assert (H2 : assertReducerShape INIT PROBE_UNKNOWN_ACTION
      (Redux.apply INIT REPLACE PROBE_UNKNOWN_ACTION OBSERVABLE false throwing_program 3)
      [("count", VFun (FUser 3))] (set_caches (caches memory ++ [[]]) memory)
    = (Thrown VNull, memory_probed)) by evaluate.
  assert (H3 : @Thrown unit VNull ≠ Diverged) by discriminate.
  exact (conj H1 (conj H2 (conj H3
    (combineReducers_catches INIT REPLACE PROBE_UNKNOWN_ACTION OBSERVABLE false
       throwing_program 3 (VObj 5) _ memory memory (Thrown VNull) memory_probed
       H1 H2 H3)))).
Defined.

(** An instance: the combined reducer of [slices] on the state
    [{type: "+"}] (object 3), which has none of their keys.  The reducer
    under ["a"] is called and makes an object; the identity under ["count"]
    returns the [undefined] it is given; the reducer under ["b"] is not
    called, so the heap has one object more, and not two. *)
Lemma combination_slice_undefined_witness :
  truthy VUndefined = false ∧
  slices.*1 = ["a"] ++ "count" :: ["b"] ∧
  ("__proto__" ∉ ["a"]) ∧
  default_state (VObj 3) memory = (VObj 3, memory) ∧
  warn_unexpected_state_shape INIT REPLACE false (apply 3) slices (Some 0)
    (VObj 3) (VObj 3) memory = (Normal tt, memory_checked) ∧
  slice_calls (apply 3) slices (VObj 3) (VObj 3) ["a"] memory_checked
    [(VUndefined, VObj 11)] memory_sliced ∧
  Forall (λ io, is_Some (same_object io.2 io.1)) [(VUndefined, VObj 11)] ∧
  get (heap memory_sliced) (VObj 3) "count" = Some VUndefined ∧
  apply 3 (assoc_get "count" slices) [VUndefined; VObj 3] memory_sliced
    = (Normal VUndefined, memory_sliced) ∧
  (truthy (VObj 3) = true →
   ∃ t, get (heap memory_sliced) (VObj 3) "type" = Some t ∧ ∀ l, t ≠ VObj l) ∧
  length (heap memory_sliced) = S (length (heap memory)) ∧
  apply 4 (VFun (FCombination 0 slices VUndefined (Some 0))) [VObj 3; VObj 3] memory
  = (Thrown (VError (ErrSliceReturnedUndefined "count")), memory_sliced).
Proof.
  assert (H1 : truthy VUndefined = false) by reflexivity.
  assert (H2 : slices.*1 = ["a"] ++ "count" :: ["b"]) by reflexivity.
  assert (H3 : "__proto__" ∉ ["a"]) by compute_done.
  assert (H4 : default_state (VObj 3) memory = (VObj 3, memory)) by reflexivity.
  assert (H5 : warn_unexpected_state_shape INIT REPLACE false (apply 3) slices
                 (Some 0) (VObj 3) (VObj 3) memory = (Normal tt, memory_checked))
    by evaluate.
  assert (H6 : slice_calls (apply 3) slices (VObj 3) (VObj 3) ["a"] memory_checked
                 [(VUndefined, VObj 11)] memory_sliced).
  { eapply slice_calls_cons; [evaluate|evaluate|discriminate|apply slice_calls_nil]. }
  assert (H7 : Forall (λ io, is_Some (same_object io.2 io.1)) [(VUndefined, VObj 11)]).
  { repeat constructor. by eexists. }
  assert (H8 : get (heap memory_sliced) (VObj 3) "count" = Some VUndefined)
    by evaluate.
  assert (H9 : apply 3 (assoc_get "count" slices) [VUndefined; VObj 3] memory_sliced
               = (Normal VUndefined, memory_sliced)) by evaluate.
  assert (H10 : truthy (VObj 3) = true →
            ∃ t, get (heap memory_sliced) (VObj 3) "type" = Some t ∧ ∀ l, t ≠ VObj l).
  { intros _. exists (VStr "+"). split; [evaluate|done]. }
  assert (H11 : length (heap memory_sliced) = S (length (heap memory))) by evaluate.
  exact (conj H1 (conj H2 (conj H3 (conj H4 (conj H5 (conj H6 (conj H7 (conj H8
    (conj H9 (conj H10 (conj H11
    (combination_slice_undefined INIT REPLACE PROBE_UNKNOWN_ACTION OBSERVABLE false
       program 3 0 slices VUndefined (Some 0) (VObj 3) (VObj 3) memory (VObj 3)
       memory memory_checked ["a"] "count" ["b"] [(VUndefined, VObj 11)]
       memory_sliced VUndefined memory_sliced
       H1 H2 H3 H4 H5 H6 H7 H8 H9 H10)))))))))))).
Defined.


(** An instance: in the memory [createStore(f0)] dispatches INIT in, a
    reducer that dispatches to the store being made (the store's own
    [dispatch], given as reducer, called on a state that is no action). *)
Lemma createStore_reducer_throws_witness :
  wf initial_world ∧
  getPrototypeOf (heap initial_world) ObjectPrototype = Some None ∧
  typeof (VFun (FDispatch 0)) = TFunction ∧ typeof VUndefined ≠ TFunction ∧
  typeof VUndefined = TUndefined ∧
  apply 3 (VFun (FDispatch 0)) [VUndefined; VObj 1]
    (begin_dispatch 0
       (set_heap (heap initial_world ++ [literal [("type", VStr INIT)]])
          (set_stores
             (stores initial_world ++
              [StoreVars (VFun (FDispatch 0)) VUndefined (Some 0) 0 false None])
             (set_arrays (arrays initial_world ++ [[]]) initial_world))))
  = (Thrown (VError ErrActionNotPlain),
     begin_dispatch 0
       (set_heap (heap initial_world ++ [literal [("type", VStr INIT)]])
          (set_stores
             (stores initial_world ++
              [StoreVars (VFun (FDispatch 0)) VUndefined (Some 0) 0 false None])
             (set_arrays (arrays initial_world ++ [[]]) initial_world)))) ∧
  apply 4 (VFun FCreateStore) [VFun (FDispatch 0)] initial_world
  = (Thrown (VError ErrActionNotPlain),
     abort_dispatch 0
       (begin_dispatch 0
          (set_heap (heap initial_world ++ [literal [("type", VStr INIT)]])
             (set_stores
                (stores initial_world ++
                 [StoreVars (VFun (FDispatch 0)) VUndefined (Some 0) 0 false None])
                (set_arrays (arrays initial_world ++ [[]]) initial_world))))) ∧
  ∃ st,
    stores
      (abort_dispatch 0
         (begin_dispatch 0
            (set_heap (heap initial_world ++ [literal [("type", VStr INIT)]])
               (set_stores
                  (stores initial_world ++
                   [StoreVars (VFun (FDispatch 0)) VUndefined (Some 0) 0 false None])
                  (set_arrays (arrays initial_world ++ [[]]) initial_world)))))
      !! 0 = Some st ∧
    isDispatching st = false ∧ store st = None.
Proof.
  assert (H1 : getPrototypeOf (heap initial_world) ObjectPrototype = Some None)
    by done.
  assert (H2 : typeof (VFun (FDispatch 0)) = TFunction) by done.
  assert (H3 : typeof VUndefined ≠ TFunction) by discriminate.
  assert (H4 : typeof VUndefined = TUndefined) by done.
  assert (H5 : apply 3 (VFun (FDispatch 0)) [VUndefined; VObj 1]
    (begin_dispatch 0
       (set_heap (heap initial_world ++ [literal [("type", VStr INIT)]])
          (set_stores
             (stores initial_world ++
              [StoreVars (VFun (FDispatch 0)) VUndefined (Some 0) 0 false None])
             (set_arrays (arrays initial_world ++ [[]]) initial_world))))
    = (Thrown (VError ErrActionNotPlain),
       begin_dispatch 0
         (set_heap (heap initial_world ++ [literal [("type", VStr INIT)]])
            (set_stores
               (stores initial_world ++
                [StoreVars (VFun (FDispatch 0)) VUndefined (Some 0) 0 false None])
               (set_arrays (arrays initial_world ++ [[]]) initial_world)))))
    by evaluate.
  exact (conj wf_initial_world (conj H1 (conj H2 (conj H3 (conj H4 (conj H5
    (createStore_reducer_throws INIT REPLACE PROBE_UNKNOWN_ACTION OBSERVABLE false program
       3 [VFun (FDispatch 0)] initial_world _ _
       wf_initial_world H1 H2 H3 H4 H5))))))).
Defined.

(** An instance: the memory after script 7. *)
Lemma stores_own_their_lists_witness :
  reachable INIT REPLACE PROBE_UNKNOWN_ACTION OBSERVABLE false program initial_world memory ∧
  ∀ s st, stores memory !! s = Some st →
    nextListeners st < length (arrays memory) ∧
    ∀ s' st', stores memory !! s' = Some st' →
      nextListeners st' = nextListeners st → s' = s.
Proof.
  assert (H1 : reachable INIT REPLACE PROBE_UNKNOWN_ACTION OBSERVABLE false program
                 initial_world memory).
  { eapply (reachable_call _ _ _ _ _ _ initial_world initial_world memory 9
              (VFun (FUser 7)) [] (Normal _)); [apply reachable_refl|evaluate]. }
  exact (conj H1
    (stores_own_their_lists INIT REPLACE PROBE_UNKNOWN_ACTION OBSERVABLE false program
       memory H1)).
Defined.

(** An instance: the memory after script 7. *)
Lemma no_store_left_dispatching_witness :
  ended INIT REPLACE PROBE_UNKNOWN_ACTION OBSERVABLE false program initial_world memory ∧
  ∀ s st, stores memory !! s = Some st →
    isDispatching st = false ∧ getState s memory = (Normal (currentState st), memory).
Proof.
  assert (H0 : Normal (VFun (FCombination 0 [("count", VFun (FUser 0))] VUndefined
                              (Some 0))) ≠ @Diverged value) by discriminate.
  assert (H1 : ended INIT REPLACE PROBE_UNKNOWN_ACTION OBSERVABLE false program
                 initial_world memory).
  { eapply (ended_call _ _ _ _ _ _ initial_world initial_world memory 9
              (VFun (FUser 7)) [] (Normal _)); [apply ended_refl|evaluate|exact H0]. }
  exact (conj H1
    (no_store_left_dispatching INIT REPLACE PROBE_UNKNOWN_ACTION OBSERVABLE false program
       memory H1)).
Defined.

(** An instance: [bindActionCreators] on object 12 of [memory_inherited],
    whose [for]-[in] keys are its own ["b"] and ["n"], then the inherited
    ["1"]: the number under ["n"] is left out, and the new object has the
    keys ["1"] and ["b"], which [Object.keys] lists in another order than
    the loop met them. *)
Lemma bindActionCreators_skips_non_functions_witness :
  for_in_keys (heap memory_inherited) (VObj 12) = Some ["b"; "n"; "1"] ∧
  NoDup ["b"; "n"; "1"] ∧
  (∀ k, k ∈ ["b"; "n"; "1"] → is_Some (get (heap memory_inherited) (VObj 12) k)) ∧
  function_keys (heap memory_inherited) (VObj 12) ["b"; "n"; "1"] = ["b"; "1"] ∧
  ("__proto__" ∉ function_keys (heap memory_inherited) (VObj 12) ["b"; "n"; "1"]) ∧
  key_order ["b"; "n"; "1"] = false ∧
  ∃ w' o,
    apply 3 (VFun FBindActionCreators) [VObj 12; VFun (FDispatch 0)] memory_inherited
    = (Normal (VObj (length (heap memory_inherited))), w') ∧
    heap w' = heap memory_inherited ++ [o] ∧
    proto o = Some ObjectPrototype ∧
    own_keys o ≡ₚ function_keys (heap memory_inherited) (VObj 12) ["b"; "n"; "1"] ∧
    (key_order ["b"; "n"; "1"] = true →
     own_keys o = function_keys (heap memory_inherited) (VObj 12) ["b"; "n"; "1"]) ∧
    ∀ i k,
      function_keys (heap memory_inherited) (VObj 12) ["b"; "n"; "1"] !! i = Some k →
      find_prop k (props o) =
      Some (Property
              (VFun (FBound (next_id memory_inherited + i)
                       (default VUndefined (get (heap memory_inherited) (VObj 12) k))
                       (VFun (FDispatch 0)))) true).
Proof.
  assert (H1 : for_in_keys (heap memory_inherited) (VObj 12) = Some ["b"; "n"; "1"])
    by evaluate.
  assert (H2 : NoDup ["b"; "n"; "1"]) by compute_done.
  assert (H3 : ∀ k, k ∈ ["b"; "n"; "1"] →
                 is_Some (get (heap memory_inherited) (VObj 12) k)).
  { intros k Hk.
    repeat (apply elem_of_cons in Hk as [->|Hk]; [eexists; evaluate|]).
    by apply not_elem_of_nil in Hk. }
  assert (H4 : function_keys (heap memory_inherited) (VObj 12) ["b"; "n"; "1"]
               = ["b"; "1"]) by evaluate.
  assert (H5 : "__proto__" ∉
                 function_keys (heap memory_inherited) (VObj 12) ["b"; "n"; "1"]).
  { rewrite H4. compute_done. }
  assert (H6 : key_order ["b"; "n"; "1"] = false) by evaluate.
  exact (conj H1 (conj H2 (conj H3 (conj H4 (conj H5 (conj H6
    (proj2 (bindActionCreators_skips_non_functions INIT REPLACE
              PROBE_UNKNOWN_ACTION OBSERVABLE false program 2 (VObj 12)
              (VFun (FDispatch 0)) memory_inherited)
       12 _ eq_refl H1 H2 H3 H5))))))).
Defined.

(** An instance: the number 1 given as enhancer, with a reducer that
    would be accepted. *)
Lemma createStore_rejects_witness :
  typeof (VNum 1) ≠ TUndefined ∧ typeof (VNum 1) ≠ TFunction ∧
  apply 3 (VFun FCreateStore) [VFun (FUser 0); VUndefined; VNum 1] memory
  = (Thrown (VError ErrEnhancerNotFunction), memory).
Proof.
  assert (H1 : typeof (VNum 1) ≠ TUndefined) by discriminate.
  assert (H2 : typeof (VNum 1) ≠ TFunction) by discriminate.
  exact (conj H1 (conj H2
    (proj1 (createStore_rejects INIT REPLACE PROBE_UNKNOWN_ACTION OBSERVABLE false program
              2 [VFun (FUser 0); VUndefined; VNum 1] memory) H1 H2))).
Defined.

End Witnesses.
